(** * envfile: EnvironmentFile (dot env) marshalling, embedded from env.go

    The Go package has two entry points, [Marshal] and [Unmarshal], and one
    helper, [parseFieldOpts].  The embedding follows the source:

    - Go strings and byte slices are sequences of bytes, here [list ascii];
    - the values handed over as [interface{}] are what reflection shows of
      them: their kind, the fields of a struct with name, [env] tag and
      contents, and what a pointer points to;
    - [Unmarshal] updates the struct behind its pointer argument; here it
      returns the argument as the call leaves it, next to the way the call
      ends: with an error value, or with a panic of a reflection call;
    - the functions of the Go standard library that the package calls
      ([strings], [bufio.Scanner]) are embedded, in the modules of their
      names, with the behaviour the library documents.  The Unicode case
      tables behind [strings.ToUpper] are a parameter. *)

From Stdlib Require Import Ascii String ZArith Lia Bool Arith DecimalString DecimalZ List.
Import ListNotations.

Local Open Scope string_scope.
Local Open Scope Z_scope.
Local Open Scope list_scope.

(** ** Go strings *)

Definition gostring := list ascii.
Definition bytes := list ascii.

(** A string literal as a Go string. *)
Definition str (s : string) : gostring := list_ascii_of_string s.

(** [len(s)], the number of bytes. *)
Definition len (s : gostring) : Z := Z.of_nat (length s).

Fixpoint eqs (a b : gostring) : bool :=
  match a, b with
  | [], [] => true
  | x :: a', y :: b' => Ascii.eqb x y && eqs a' b'
  | _, _ => false
  end.

Definition NL : ascii := "010"%char.
Definition CR : ascii := "013"%char.

(** ** Package reflect: kinds and the values the package inspects *)

Module reflect.

Inductive Kind : Set :=
| Invalid | Bool | Int | Int8 | Int16 | Int32 | Int64
| Uint | Uint8 | Uint16 | Uint32 | Uint64 | Uintptr
| Float32 | Float64 | Complex64 | Complex128
| Array | Chan | Func | Interface | Map | Ptr | Slice
| String | Struct | UnsafePointer.

(** [reflect.StructField], reduced to what [parseFieldOpts], [Marshal]
    and [Unmarshal] read: the declared name, the value that
    [field.Tag.Get("env")] returns (empty when the tag has no [env] key),
    whether the field is exported (only exported fields can be set
    through reflection, and only their values can be handed to a method)
    and, of the field's type, the method that [fmt] calls for the verb
    [%s]: a string field is of type [string], which has none, or of a
    named string type, which may have a [Format], an [Error] or a
    [String] method ([fmt] looks for them in this order, among the
    methods with a value receiver: [Marshal] holds the record by value).
    The method is given as what it makes [%s] print for the contents of
    the field; when the method panics, that is the message [fmt] prints
    in place of the panic. *)
Record StructField : Set := mkStructField {
  Name : gostring;
  EnvTag : gostring;
  Exported : bool;
  Formatter : option (gostring -> gostring)
}.

End reflect.

(** The contents of a struct field: a string, or a value of another kind
    (in [FOther k], [k] ranges over the kinds other than [String]; its
    contents are never read).  The type of a string field, [string] or
    a named string type, is told by [reflect.Formatter]. *)
Inductive FieldValue : Set :=
| FStr (s : gostring)
| FOther (k : reflect.Kind).

Record Field : Set := mkField {
  fType : reflect.StructField;
  fValue : FieldValue
}.

(** The dynamic value of an [interface{}] argument: the nil interface, a
    struct, a nil pointer, a pointer to a value (which [Unmarshal] may
    update in place), or a value of another kind ([Other k], where [k]
    ranges over the kinds other than [Struct] and [Ptr]). *)
Inductive Value : Set :=
| Nil
| StructValue (fields : list Field)
| NilPointer
| PointerTo (elem : Value)
| Other (k : reflect.Kind).

(** [reflect.ValueOf(v).Kind()]; for a non-nil [v] also
    [reflect.TypeOf(v).Kind()]. *)
Definition kindOf (v : Value) : reflect.Kind :=
  match v with
  | Nil => reflect.Invalid
  | StructValue _ => reflect.Struct
  | NilPointer | PointerTo _ => reflect.Ptr
  | Other k => k
  end.

(** ** Errors and outcomes *)

Inductive error : Set :=
| ErrorUnsupportedType (Kind : reflect.Kind)
| ErrorLineParsing (LineNumber : Z)
| ErrTooLong.   (* bufio.ErrTooLong, the only error scanner.Err() can hold here *)

(** How a call ends: it returns an error value ([None] is Go's [nil]) or a
    reflection call panics. *)
Inductive outcome : Set :=
| Returns (err : option error)
| Panics.

(** How a loop is left before its end: by [return err] or by a panic. *)
Inductive exit : Set :=
| Return (err : error)
| Panic.

Definition outcomeOf (x : exit) : outcome :=
  match x with
  | Return err => Returns (Some err)
  | Panic => Panics
  end.

(** ** Package strings *)

Module strings.

(** [strings.HasPrefix(s, prefix)]. *)
Fixpoint HasPrefix (s prefix : gostring) {struct prefix} : bool :=
  match prefix with
  | [] => true
  | p :: prefix' =>
      match s with
      | c :: s' => Ascii.eqb c p && HasPrefix s' prefix'
      | [] => false
      end
  end.

(** The UTF-8 encodings of the runes for which [unicode.IsSpace] holds:
    the six ASCII ones, U+0085, U+00A0, U+1680, U+2000..U+200A, U+2028,
    U+2029, U+202F, U+205F and U+3000.  A string starts (ends) with a
    space rune exactly when it starts (ends) with one of these byte
    sequences: an invalid or truncated sequence decodes to U+FFFD, which
    is no space. *)
Definition enc (l : list nat) : gostring := map ascii_of_nat l.

Definition spaceEncodings : list gostring :=
  map enc
    [ [9]; [10]; [11]; [12]; [13]; [32];
      [194; 133]; [194; 160];
      [225; 154; 128];
      [226; 128; 128]; [226; 128; 129]; [226; 128; 130]; [226; 128; 131];
      [226; 128; 132]; [226; 128; 133]; [226; 128; 134]; [226; 128; 135];
      [226; 128; 136]; [226; 128; 137]; [226; 128; 138];
      [226; 128; 168]; [226; 128; 169]; [226; 128; 175];
      [226; 129; 159];
      [227; 128; 128] ]%nat.

(** Removes one leading sequence of [encs] from [s], if there is one. *)
Definition stripOne (encs : list gostring) (s : gostring) : option gostring :=
  match find (HasPrefix s) encs with
  | Some e => Some (skipn (length e) s)
  | None => None
  end.

(** Removes leading sequences of [encs] as long as there is one; [fuel]
    bounds the number of removals. *)
Fixpoint stripAll (fuel : nat) (encs : list gostring) (s : gostring) : gostring :=
  match fuel with
  | O => s
  | S fuel' =>
      match stripOne encs s with
      | Some s' => stripAll fuel' encs s'
      | None => s
      end
  end.

(** The strings made of sequences of [encs] only. *)
Inductive Spaces (encs : list gostring) : gostring -> Prop :=
| Spaces_nil : Spaces encs []
| Spaces_cons e r : In e encs -> Spaces encs r -> Spaces encs (e ++ r).

(** [strings.TrimLeftFunc(s, unicode.IsSpace)]: every removal takes at
    least one byte, so [length s] removals are enough. *)
Definition TrimLeftSpace (s : gostring) : gostring :=
  stripAll (length s) spaceEncodings s.

(** [strings.TrimRightFunc(s, unicode.IsSpace)]: the same from the end,
    on the reversed string ([rev_append s []] is [rev s]). *)
Definition TrimRightSpace (s : gostring) : gostring :=
  rev_append
    (stripAll (length s) (map (@rev ascii) spaceEncodings) (rev_append s [])) [].

(** [strings.TrimSpace(s)]: leading, then trailing white space removed. *)
Definition TrimSpace (s : gostring) : gostring :=
  TrimRightSpace (TrimLeftSpace s).

(** [strings.Index] and slicing around the hit: the part before the
    first [sep] and the part after it. *)
Fixpoint cut (s : gostring) (sep : ascii) : option (gostring * gostring) :=
  match s with
  | [] => None
  | c :: r =>
      if Ascii.eqb c sep then Some ([], r)
      else match cut r sep with
           | Some (a, b) => Some (c :: a, b)
           | None => None
           end
  end.

(** [strings.SplitN(s, sep, n)] for a one-byte separator and [n >= 0]:
    at most [n] pieces, the last one the unsplit remainder. *)
Fixpoint SplitN (s : gostring) (sep : ascii) (n : nat) : list gostring :=
  match n with
  | O => []
  | S O => [s]
  | S n' =>
      match cut s sep with
      | Some (a, rest) => a :: SplitN rest sep n'
      | None => [s]
      end
  end.

(** [strings.Split(s, sep)] for a one-byte separator: all the pieces
    between separators; never empty. *)
Fixpoint Split (s : gostring) (sep : ascii) : list gostring :=
  match s with
  | [] => [[]]
  | c :: r =>
      if Ascii.eqb c sep then [] :: Split r sep
      else match Split r sep with
           | seg :: segs => (c :: seg) :: segs
           | [] => [[c]]
           end
  end.

(** The two halves of the ASCII path of [strings.ToUpper]: the test that
    no byte is [utf8.RuneSelf] or above, and ['a'..'z'] moved to
    ['A'..'Z']. *)
Definition isASCII (s : gostring) : bool :=
  forallb (fun c => (nat_of_ascii c <? 128)%nat) s.

Definition upperByte (c : ascii) : ascii :=
  let n := nat_of_ascii c in
  if ((97 <=? n) && (n <=? 122))%nat then ascii_of_nat (n - 32) else c.

End strings.

(** ** Package bufio: the line scanner *)

Module bufio.

(** [bufio.MaxScanTokenSize]: the scanner's buffer holds at most this
    many bytes, so a line of this many bytes or more before its newline
    (or before the end of the input) stops the scan with [ErrTooLong]. *)
Definition MaxScanTokenSize : Z := 64 * 1024.

(** The pieces [bufio.ScanLines] cuts the input into, before the
    end-of-line carriage return is dropped: the input is cut after every
    newline, and a last piece without newline counts when it is not
    empty. *)
Fixpoint lines (data : bytes) : list gostring :=
  match data with
  | [] => []
  | c :: r =>
      if Ascii.eqb c NL then [] :: lines r
      else match lines r with
           | l :: ls => (c :: l) :: ls
           | [] => [[c]]
           end
  end.

(** [dropCR]: a terminal carriage return belongs to the end-of-line
    marker. *)
Fixpoint dropCR (l : gostring) : gostring :=
  match l with
  | [] => []
  | [c] => if Ascii.eqb c CR then [] else [c]
  | c :: r => c :: dropCR r
  end.

End bufio.

(** ** Records and inputs of the package's tests *)

(** An exported field of type [string] with its tag and contents, and an
    exported [int] field. *)
Definition stringField (name tag contents : string) : Field :=
  mkField (reflect.mkStructField (str name) (str tag) true None) (FStr (str contents)).

Definition intField (name tag : string) : Field :=
  mkField (reflect.mkStructField (str name) (str tag) true None) (FOther reflect.Int).

(** An exported field of a named string type whose [String] method is
    [method]. *)
Definition stringerField (name tag : string) (method : gostring -> gostring)
    (contents : string) : Field :=
  mkField (reflect.mkStructField (str name) (str tag) true (Some method))
          (FStr (str contents)).

(** The [String] method of the examples: the contents between brackets. *)
Definition bracketed (s : gostring) : gostring := str "<" ++ s ++ str ">".

(** The text of several lines, each followed by a newline. *)
Definition text (ls : list string) : bytes :=
  concat (map (fun l => str l ++ [NL]) ls).

(** A comment line of [bufio.MaxScanTokenSize] bytes. *)
Definition longComment : gostring :=
  "#"%char :: repeat "x"%char (Nat.pow 2 16 - 1).

(** A key/value line of [bufio.MaxScanTokenSize] bytes. *)
Definition longKeyValue : gostring :=
  str "TEST=" ++ repeat "x"%char (Nat.pow 2 16 - 5).

(** The Unicode path of [strings.ToUpper] for the closed examples below:
    their field names are ASCII, so the path is never taken. *)
Definition noUnicode : gostring -> gostring := fun s => s.

(** ** Package fmt *)

Module fmt.

(** What the verb [%s] prints for the field [val.Field(i)] of kind string
    holding [s].  [fmt] takes the value out of an exported field
    ([CanInterface]) and, when its type has a [Format], [Error] or
    [String] method, prints what the method gives; in every other case
    it prints the contents. *)
Definition formatString (field : reflect.StructField) (s : gostring) : gostring :=
  match reflect.Formatter field with
  | Some method => if reflect.Exported field then method s else s
  | None => s
  end.

End fmt.

(** ** Package envfile *)

(** envOptions contains the options set in the field. *)
Record envOptions : Set := mkEnvOptions {
  Skip : bool;
  OmitEmpty : bool
}.

Section Envfile.

(** [strings.ToUpper] on a string with a non-ASCII byte maps
    [unicode.ToUpper] over its runes; the Unicode case tables are not
    part of the package and are taken as a parameter. *)
Variable unicodeToUpper : gostring -> gostring.

(** [strings.ToUpper(s)]: ASCII-only strings are mapped byte by byte. *)
Definition ToUpper (s : gostring) : gostring :=
  if strings.isASCII s then map strings.upperByte s else unicodeToUpper s.

(** The loop over [options[1:]] of [parseFieldOpts]. *)
Fixpoint scanOptions (options : list gostring) (opts : envOptions) : envOptions :=
  match options with
  | [] => opts
  | v :: rest =>
      if eqs v (str "omitempty")
      then scanOptions rest (mkEnvOptions (Skip opts) true)
      else scanOptions rest opts
  end.

(** parseFieldOpts will convert a StructType field tag to an environment
    name.  [name] and [opts] start at their zero values. *)
Definition parseFieldOpts (field : reflect.StructField) : gostring * envOptions :=
  let tag := reflect.EnvTag field in
  let options := strings.Split tag ","%char in
  let opts := scanOptions (tl options) (mkEnvOptions false false) in
  let o := hd [] options in
  if eqs o (str "-") then ([], mkEnvOptions true (OmitEmpty opts))
  else if eqs o [] then (ToUpper (reflect.Name field), opts)
  else (o, opts).

(** The loop of [Marshal] over the fields, [buf] being the buffer
    written so far.  An unsupported field returns the empty slice. *)
Fixpoint marshalFields (fs : list Field) (buf : bytes) : bytes * option error :=
  match fs with
  | [] => (buf, None)
  | f :: rest =>
      let '(keyname, opts) := parseFieldOpts (fType f) in
      if Skip opts then marshalFields rest buf
      else
        match fValue f with
        | FStr s =>
            if negb (OmitEmpty opts && eqs s [])
            then marshalFields rest
                   (buf ++ keyname ++ str "=" ++ fmt.formatString (fType f) s ++ [NL])
            else marshalFields rest buf
        | FOther k => ([], Some (ErrorUnsupportedType k))
        end
  end.

(** Marshal returns the EnvironmentFile encoding of v. *)
Definition Marshal (v : Value) : bytes * option error :=
  match v with
  | Nil => ([], None)                                   (* t == nil *)
  | StructValue fs => marshalFields fs []
  | _ => ([], Some (ErrorUnsupportedType (kindOf v)))   (* k != reflect.Struct *)
  end.

(** The loop of [Unmarshal] over the fields of the target for one
    key/value line.  It returns the fields as the loop leaves them and,
    when the loop is left early, how. *)
Fixpoint assignFields (k v : gostring) (fs : list Field) : list Field * option exit :=
  match fs with
  | [] => ([], None)
  | f :: rest =>
      let '(keyname, opts) := parseFieldOpts (fType f) in
      let next f' := let '(rest', o) := assignFields k v rest in (f' :: rest', o) in
      if Skip opts then next f
      else if eqs (strings.TrimSpace k) keyname then
        match fValue f with
        | FStr _ =>
            if negb (OmitEmpty opts && eqs v [])
            then
              if reflect.Exported (fType f)
              then next (mkField (fType f) (FStr (strings.TrimSpace v)))
              else (f :: rest, Some Panic)       (* SetString on an unexported field *)
            else next f
        | FOther kd => (f :: rest, Some (Return (ErrorUnsupportedType kd)))
        end
      else next f
  end.

(** The body of the scan loop from the point where the line has been
    split into [kv]: the check of the target and the field loop. *)
Definition assignTarget (k val : gostring) (v : Value) : Value * option exit :=
  match v with
  | PointerTo (StructValue fs) =>
      let '(fs', o) := assignFields k val fs in (PointerTo (StructValue fs'), o)
  | PointerTo _ => (v, Some Panic)               (* NumField of a non-struct type *)
  | _ => (v, Some (Return (ErrorUnsupportedType (kindOf v))))
  end.

(** The scan loop of [Unmarshal].  [ls] are the lines the scanner still
    has to deliver, [count] is the number of lines delivered so far. *)
Fixpoint unmarshalLoop (ls : list gostring) (count : Z) (v : Value) : Value * outcome :=
  match ls with
  | [] => (v, Returns None)
  | raw :: rest =>
      if bufio.MaxScanTokenSize <=? len raw
      then (v, Returns (Some ErrTooLong))        (* Scan() fails, Err() is returned *)
      else
        let count := count + 1 in
        let line := strings.TrimSpace (bufio.dropCR raw) in
        if eqs line [] || strings.HasPrefix line (str "#")
        then unmarshalLoop rest count v
        else
          match strings.SplitN line "="%char 2 with
          | [k; val] =>
              match assignTarget k val v with
              | (v', None) => unmarshalLoop rest count v'
              | (v', Some x) => (v', outcomeOf x)
              end
          | _ => (v, Returns (Some (ErrorLineParsing count)))
          end
  end.

(** Unmarshal parses the environmentfile encoded data and stores the
    result in the value pointed to by v.  The result is [v] with the
    pointed-to struct as the call leaves it, and how the call ends. *)
Definition Unmarshal (data : bytes) (v : Value) : Value * outcome :=
  unmarshalLoop (bufio.lines data) 0 v.

(** ** Vocabulary of the statements *)

(** A document written line by line: every line is followed by a
    newline. *)
Definition unlines (ls : list gostring) : bytes :=
  concat (map (fun l => l ++ [NL]) ls).

(** The first comma-separated token of a tag: what precedes the first
    comma. *)
Fixpoint firstToken (tag : gostring) : gostring :=
  match tag with
  | [] => []
  | c :: r => if Ascii.eqb c ","%char then [] else c :: firstToken r
  end.

(** [tok] is a comma-separated token of [tag] after the first one: it
    stands between a comma and the next comma or the end of the tag. *)
Definition laterToken (tok tag : gostring) : Prop :=
  ~ In ","%char tok /\
  exists pre post,
    tag = pre ++ ","%char :: tok ++ post /\
    (post = [] \/ exists post', post = ","%char :: post').

(** The classes of lines [Unmarshal] distinguishes, on the raw line. *)
Definition isBlank (l : gostring) : bool := eqs (strings.TrimSpace l) [].
Definition isComment (l : gostring) : bool :=
  strings.HasPrefix (strings.TrimSpace l) (str "#").
Definition isIgnored (l : gostring) : bool := isBlank l || isComment l.
Definition hasEq (l : gostring) : bool := existsb (Ascii.eqb "="%char) l.
(** A key/value line: not ignored, with a ['=']. *)
Definition isKeyValue (l : gostring) : bool := negb (isIgnored l) && hasEq l.
(** A malformed line: not ignored, without ['=']. *)
Definition isMalformed (l : gostring) : bool := negb (isIgnored l) && negb (hasEq l).

(** A target [Unmarshal] accepts: a pointer that is not nil. *)
Definition nonNilPointer (v : Value) : bool :=
  match v with PointerTo _ => true | _ => false end.

(** A line the scanner can deliver. *)
Definition fits (l : gostring) : bool := len l <? bufio.MaxScanTokenSize.

(** The key and the options a field resolves to. *)
Definition keyOf (f : Field) : gostring := fst (parseFieldOpts (fType f)).
Definition optsOf (f : Field) : envOptions := snd (parseFieldOpts (fType f)).

Definition stringOf (f : Field) : gostring :=
  match fValue f with FStr s => s | FOther _ => [] end.

Definition isString (f : Field) : bool :=
  match fValue f with FStr _ => true | FOther _ => false end.

(** The zero value of a record type: every string field empty. *)
Definition zeroFields (fs : list Field) : list Field :=
  map (fun f => mkField (fType f)
                  (match fValue f with FStr _ => FStr [] | FOther k => FOther k end)) fs.

Definition hasNL (l : gostring) : bool := existsb (Ascii.eqb NL) l.

(** A key that survives a round trip: already trimmed, no ['='], no
    newline, no leading ['#']. *)
Definition plainKey (k : gostring) : Prop :=
  strings.TrimSpace k = k /\ hasEq k = false /\ hasNL k = false /\
  strings.HasPrefix k (str "#") = false.

(** A value that survives a round trip: already trimmed, no newline. *)
Definition plainValue (v : gostring) : Prop :=
  strings.TrimSpace v = v /\ hasNL v = false.

(** The line of a string field, without its newline: its key, ['='] and
    its contents. *)
Definition lineOf (f : Field) : gostring :=
  keyOf f ++ "="%char :: stringOf f.

(** The assignment one key/value line makes to the fields of a record
    of plain string fields. *)
Definition setKey (k v : gostring) (fs : list Field) : list Field :=
  map (fun f => if eqs k (keyOf f) then mkField (fType f) (FStr v) else f) fs.

(** A field whose type has no [Format], [Error] or [String] method: for
    a string field, [%s] prints its contents. *)
Definition unformatted (f : Field) : Prop := reflect.Formatter (fType f) = None.

(** A plain string field: exported, of kind string and of a type without
    formatting method, not skipped, without omitempty. *)
Definition plainField (f : Field) : Prop :=
  reflect.Exported (fType f) = true /\ isString f = true /\
  Skip (optsOf f) = false /\ OmitEmpty (optsOf f) = false /\
  unformatted f.

(** What the lines written for the fields [gs] make of one field. *)
Fixpoint assigned (gs : list Field) (f : Field) : Field :=
  match gs with
  | [] => f
  | g :: gs' =>
      assigned gs' (if eqs (keyOf g) (keyOf f)
                    then mkField (fType f) (FStr (stringOf g)) else f)
  end.

(** ** The error messages *)

(** [reflect.Kind.String()]: the names of the kinds, which [%v] prints. *)
Definition KindString (k : reflect.Kind) : gostring :=
  str match k with
      | reflect.Invalid => "invalid" | reflect.Bool => "bool"
      | reflect.Int => "int" | reflect.Int8 => "int8" | reflect.Int16 => "int16"
      | reflect.Int32 => "int32" | reflect.Int64 => "int64"
      | reflect.Uint => "uint" | reflect.Uint8 => "uint8" | reflect.Uint16 => "uint16"
      | reflect.Uint32 => "uint32" | reflect.Uint64 => "uint64"
      | reflect.Uintptr => "uintptr"
      | reflect.Float32 => "float32" | reflect.Float64 => "float64"
      | reflect.Complex64 => "complex64" | reflect.Complex128 => "complex128"
      | reflect.Array => "array" | reflect.Chan => "chan" | reflect.Func => "func"
      | reflect.Interface => "interface" | reflect.Map => "map"
      | reflect.Ptr => "ptr" | reflect.Slice => "slice"
      | reflect.String => "string" | reflect.Struct => "struct"
      | reflect.UnsafePointer => "unsafe.Pointer"
      end.

(** What [%d] prints for an integer: its decimal digits, behind a ['-']
    when it is negative. *)
Definition itoa (n : Z) : gostring := str (NilEmpty.string_of_int (Z.to_int n)).

(** The [Error] methods of [ErrorUnsupportedType] and [ErrorLineParsing];
    the third message is the one of [bufio.ErrTooLong]. *)
Definition Error (e : error) : gostring :=
  match e with
  | ErrorUnsupportedType k => str "unsupported type " ++ KindString k
  | ErrorLineParsing n => str "error parsing line " ++ itoa n
  | ErrTooLong => str "bufio.Scanner: token too long"
  end.

(** ** Vocabulary of the further statements *)

(** The zero value of a field.  Two fields with the same zero value are
    of the same type: same name, tag and kind. *)
Definition zeroField (f : Field) : Field :=
  mkField (fType f) (match fValue f with FStr _ => FStr [] | FOther k => FOther k end).

(** A string field for which [Marshal] writes a line. *)
Definition emitted (f : Field) : bool :=
  negb (Skip (optsOf f)) && negb (OmitEmpty (optsOf f) && eqs (stringOf f) []).

(** The line [Marshal] writes for a string field, without its newline:
    its key, ['='] and what [%s] prints for the field. *)
Definition writtenLine (f : Field) : gostring :=
  keyOf f ++ "="%char :: fmt.formatString (fType f) (stringOf f).

(** A field that [Marshal] passes: skipped, or a string. *)
Definition encodable (f : Field) : bool := Skip (optsOf f) || isString f.

(** A field that [Unmarshal] passes or can assign: skipped, or an
    exported string. *)
Definition decodable (f : Field) : bool :=
  Skip (optsOf f) || (isString f && reflect.Exported (fType f)).

(** A field that the line with key [k] matches: not skipped, its key the
    trimmed [k]. *)
Definition matched (k : gostring) (f : Field) : bool :=
  negb (Skip (optsOf f)) && eqs (strings.TrimSpace k) (keyOf f).

(** A field that the line with key [k] and value [v] assigns: matched,
    and not an omitempty field when the value is empty. *)
Definition assigns (k v : gostring) (f : Field) : bool :=
  matched k f && negb (OmitEmpty (optsOf f) && eqs v []).

(** The record after the line with key [k] and value [v]. *)
Definition assignAll (k v : gostring) (fs : list Field) : list Field :=
  map (fun f => if assigns k v f
                then mkField (fType f) (FStr (strings.TrimSpace v)) else f) fs.

(** The key and the value of a key/value line as the scan loop cuts
    them: what precedes the first ['='] of the trimmed line, and what
    follows it.  The key is trimmed when it is compared, the value when
    it is assigned. *)
Fixpoint beforeEq (l : gostring) : gostring :=
  match l with
  | [] => []
  | c :: r => if Ascii.eqb c "="%char then [] else c :: beforeEq r
  end.

Fixpoint afterEq (l : gostring) : gostring :=
  match l with
  | [] => []
  | c :: r => if Ascii.eqb c "="%char then r else afterEq r
  end.

Definition lineKey (l : gostring) : gostring := beforeEq (strings.TrimSpace l).
Definition lineValue (l : gostring) : gostring := afterEq (strings.TrimSpace l).

(** A field at which the line with key [k] and value [v] does not stop:
    when it is matched it is a string, and exported when it is assigned. *)
Definition assignable (k v : gostring) (f : Field) : bool :=
  implb (matched k f)
        (isString f && implb (assigns k v f) (reflect.Exported (fType f))).

(** The record after the key/value lines [ls], taken in their order. *)
Definition assignLines (ls : list gostring) (fs : list Field) : list Field :=
  fold_left (fun st l => assignAll (lineKey l) (lineValue l) st) ls fs.

(** What the key/value lines [ls], taken in their order, make of one
    field. *)
Definition assignedBy (ls : list gostring) (f : Field) : Field :=
  fold_left (fun f l => if assigns (lineKey l) (lineValue l) f
                        then mkField (fType f) (FStr (strings.TrimSpace (lineValue l)))
                        else f) ls f.

(** A line at which decoding into the record [fs] goes on: it fits the
    scanner, it is blank, a comment or a key/value line, and as a
    key/value line it meets no field that stops it. *)
Definition passes (fs : list Field) (l : gostring) : bool :=
  fits l && negb (isMalformed l) &&
  implb (isKeyValue l) (forallb (assignable (lineKey l) (lineValue l)) fs).

(** A key/value line without the white space around its key and its
    value. *)
Definition trimmedLine (l : gostring) : gostring :=
  strings.TrimSpace (lineKey l) ++ "="%char :: strings.TrimSpace (lineValue l).

(** The outcome of decoding a text when [d] lines stand before it: a
    reported line number counts them too. *)
Definition shiftLine (d : Z) (o : outcome) : outcome :=
  match o with
  | Returns (Some (ErrorLineParsing n)) => Returns (Some (ErrorLineParsing (n + d)))
  | _ => o
  end.

(** The lines up to the first one that the scanner cannot deliver. *)
Fixpoint fitting (ls : list gostring) : list gostring :=
  match ls with
  | [] => []
  | l :: rest => if fits l then l :: fitting rest else []
  end.

(** A field that no input can change: skipped, not a string, or not
    exported. *)
Definition fixedField (f : Field) : bool :=
  Skip (optsOf f) || negb (isString f) || negb (reflect.Exported (fType f)).

(** A key/value line whose key no field of the record resolves to. *)
Definition unknownKey (fs : list Field) (l : gostring) : bool :=
  isKeyValue l && forallb (fun f => negb (matched (lineKey l) f)) fs.

(** The document with a carriage return before every newline. *)
Definition unlinesCRLF (ls : list gostring) : bytes :=
  concat (map (fun l => l ++ [CR; NL]) ls).

(** The record a round trip returns: the skipped fields at their zero
    value, the other fields as they are. *)
Definition withoutSkipped (fs : list Field) : list Field :=
  map (fun f => if Skip (optsOf f)
                then mkField (fType f)
                       (match fValue f with FStr _ => FStr [] | FOther k => FOther k end)
                else f) fs.

(** The space sequences, and the same read from the end. *)
Local Abbreviation E := strings.spaceEncodings.
Local Abbreviation R := (map (@rev ascii) strings.spaceEncodings).

(** ** Facts about the string functions *)

Lemma eqs_spec (a b : gostring) : eqs a b = true <-> a = b.
Proof.
  revert b; induction a as [|x a IH]; intros [|y b]; simpl; split;
    try congruence; try reflexivity.
  - intros H. apply andb_true_iff in H as [Hx Hab].
    apply Ascii.eqb_eq in Hx. apply IH in Hab. congruence.
  - intros H. inversion H; subst. apply andb_true_iff; split.
    + apply Ascii.eqb_refl.
    + now apply IH.
Qed.

Lemma eqs_refl (a : gostring) : eqs a a = true.
Proof. now apply eqs_spec. Qed.

Lemma eqs_neq (a b : gostring) : a <> b -> eqs a b = false.
Proof.
  intros H. destruct (eqs a b) eqn:E; [|reflexivity].
  apply eqs_spec in E. contradiction.
Qed.

Lemma HasPrefix_app (p r : gostring) : strings.HasPrefix (p ++ r) p = true.
Proof.
  induction p as [|c p IH]; simpl; [reflexivity|].
  now rewrite Ascii.eqb_refl, IH.
Qed.

Lemma HasPrefix_inv (s p : gostring) :
  strings.HasPrefix s p = true -> s = p ++ skipn (length p) s.
Proof.
  revert s; induction p as [|c p IH]; intros [|d s]; simpl; try congruence.
  intros H. apply andb_true_iff in H as [Hc Hp].
  apply Ascii.eqb_eq in Hc. subst. f_equal. now apply IH.
Qed.

(** Two prefixes of one string: one is a prefix of the other. *)
Lemma HasPrefix_comparable (s p q : gostring) :
  strings.HasPrefix s p = true -> strings.HasPrefix s q = true ->
  strings.HasPrefix p q = true \/ strings.HasPrefix q p = true.
Proof.
  revert s q; induction p as [|c p IH]; intros s q Hp Hq.
  - right. destruct q; reflexivity.
  - destruct q as [|d q]; [left; reflexivity|].
    destruct s as [|e s]; simpl in *; [discriminate|].
    apply andb_true_iff in Hp as [Hc Hp].
    apply andb_true_iff in Hq as [Hd Hq].
    apply Ascii.eqb_eq in Hc, Hd. subst.
    rewrite Ascii.eqb_refl. simpl.
    destruct (IH s q Hp Hq) as [H|H]; rewrite H; auto.
Qed.

(** A prefix of [a ++ c :: b] is a prefix of [a] or contains [c]. *)
Lemma HasPrefix_app_sep (a b e : gostring) (c : ascii) :
  strings.HasPrefix (a ++ c :: b) e = true ->
  strings.HasPrefix a e = true \/ In c e.
Proof.
  revert e; induction a as [|x a IH]; intros [|y e]; simpl; auto.
  - intros H. apply andb_true_iff in H as [Hc _].
    apply Ascii.eqb_eq in Hc. auto.
  - intros H. apply andb_true_iff in H as [Hx He].
    rewrite Hx. simpl. apply IH in He as [He|He]; auto.
Qed.

(** A prefix of [a ++ [c]] is a prefix of [a] or the whole of it. *)
Lemma HasPrefix_snoc (a e : gostring) (c : ascii) :
  strings.HasPrefix (a ++ [c]) e = true ->
  strings.HasPrefix a e = true \/ e = a ++ [c].
Proof.
  revert e; induction a as [|x a IH]; intros [|y e]; simpl; auto.
  - intros H. apply andb_true_iff in H as [Hc He].
    apply Ascii.eqb_eq in Hc. subst. destruct e; [auto|discriminate].
  - intros H. apply andb_true_iff in H as [Hx He].
    rewrite Hx. simpl. apply Ascii.eqb_eq in Hx. subst.
    apply IH in He as [He|He]; [auto|right; congruence].
Qed.

Lemma find_none_iff {A} (f : A -> bool) (l : list A) :
  find f l = None <-> forall x, In x l -> f x = false.
Proof.
  split; [apply find_none|].
  induction l as [|a l IH]; simpl; intros H; [reflexivity|].
  rewrite (H a) by auto. apply IH. intros x Hx. apply H. auto.
Qed.


(** ** Removing leading sequences *)

Section Strip.

Variable encs : list gostring.
Hypothesis encs_nonempty : forall e, In e encs -> e <> [].
Hypothesis encs_prefix_free :
  forall e e', In e encs -> In e' encs -> strings.HasPrefix e e' = true -> e = e'.

Lemma stripOne_some (s r : gostring) :
  strings.stripOne encs s = Some r -> exists e, In e encs /\ s = e ++ r.
Proof.
  unfold strings.stripOne. destruct (find _ encs) as [e|] eqn:E; [|discriminate].
  intros H; inversion H; subst; clear H.
  apply find_some in E as [Hin Hp]. exists e. split; [assumption|].
  now apply HasPrefix_inv.
Qed.

Lemma stripOne_none (s : gostring) :
  strings.stripOne encs s = None <->
  forall e, In e encs -> strings.HasPrefix s e = false.
Proof.
  unfold strings.stripOne. rewrite <- find_none_iff.
  destruct (find _ encs); split; congruence.
Qed.

Lemma stripOne_shorter (s r : gostring) :
  strings.stripOne encs s = Some r -> (length r < length s)%nat.
Proof.
  intros H. apply stripOne_some in H as (e & Hin & ->).
  rewrite length_app. specialize (encs_nonempty e Hin).
  destruct e; [congruence|simpl; lia].
Qed.

Lemma stripOne_enc (e r : gostring) :
  In e encs -> strings.stripOne encs (e ++ r) = Some r.
Proof.
  intros Hin. unfold strings.stripOne.
  destruct (find _ encs) as [e'|] eqn:E.
  - apply find_some in E as [Hin' Hp].
    assert (e' = e) as ->.
    { destruct (HasPrefix_comparable _ _ _ Hp (HasPrefix_app e r)) as [H|H].
      - now apply encs_prefix_free.
      - symmetry. now apply encs_prefix_free. }
    now rewrite skipn_app, skipn_all, Nat.sub_diag.
  - rewrite find_none_iff in E. specialize (E e Hin).
    now rewrite HasPrefix_app in E.
Qed.

Lemma stripAll_none (n : nat) (s : gostring) :
  strings.stripOne encs s = None -> strings.stripAll n encs s = s.
Proof. intros H. destruct n; simpl; [reflexivity|now rewrite H]. Qed.

Lemma stripAll_decomp (n : nat) (s : gostring) :
  exists p, strings.Spaces encs p /\ s = p ++ strings.stripAll n encs s.
Proof.
  revert s; induction n as [|n IH]; intros s; simpl.
  - exists []. split; [constructor|reflexivity].
  - destruct (strings.stripOne encs s) as [r|] eqn:E.
    + apply stripOne_some in E as (e & Hin & ->).
      destruct (IH r) as (p & Hp & Hr).
      exists (e ++ p). split; [now constructor|].
      rewrite <- app_assoc. now rewrite <- Hr.
    + exists []. split; [constructor|reflexivity].
Qed.

Lemma stripAll_fixed (n : nat) (s : gostring) :
  (length s <= n)%nat ->
  strings.stripOne encs (strings.stripAll n encs s) = None.
Proof.
  revert s; induction n as [|n IH]; intros s Hn; simpl.
  - destruct s; [|simpl in Hn; lia].
    apply stripOne_none. intros e He.
    specialize (encs_nonempty e He). destruct e; [congruence|reflexivity].
  - destruct (strings.stripOne encs s) as [r|] eqn:E; [|assumption].
    apply IH. apply stripOne_shorter in E. lia.
Qed.

Lemma stripAll_spaces (p m : gostring) :
  strings.Spaces encs p -> strings.stripOne encs m = None ->
  forall n, (length (p ++ m) <= n)%nat -> strings.stripAll n encs (p ++ m) = m.
Proof.
  induction 1 as [|e r Hin Hr IH]; intros Hm n Hn.
  - now apply stripAll_none.
  - rewrite <- app_assoc in *. rewrite length_app in Hn.
    specialize (encs_nonempty e Hin).
    destruct n as [|n]; [destruct e; [congruence|simpl in Hn; lia]|].
    simpl. rewrite stripOne_enc by assumption.
    apply IH; [assumption|].
    destruct e; [congruence|simpl in Hn; lia].
Qed.

Lemma Spaces_app (p q : gostring) :
  strings.Spaces encs p -> strings.Spaces encs q -> strings.Spaces encs (p ++ q).
Proof.
  induction 1; intros Hq; simpl; [assumption|].
  rewrite <- app_assoc. constructor; auto.
Qed.

Lemma Spaces_In (c : ascii) (p : gostring) :
  strings.Spaces encs p -> In c p -> exists e, In e encs /\ In c e.
Proof.
  induction 1 as [|e r Hin Hr IH]; intros Hc; [contradiction|].
  apply in_app_or in Hc as [Hc|Hc]; eauto.
Qed.

End Strip.


(** ** TrimSpace *)

Lemma forallb_In {A} (f : A -> bool) (l : list A) (x : A) :
  forallb f l = true -> In x l -> f x = true.
Proof. intros H Hx. rewrite forallb_forall in H. now apply H. Qed.

Lemma E_nonempty : forall e, In e E -> e <> [].
Proof.
  intros e He.
  assert (H : forallb (fun e => negb (eqs e [])) E = true) by (vm_compute; reflexivity).
  pose proof (forallb_In _ _ _ H He) as H1. simpl in H1.
  intros ->. discriminate.
Qed.

Lemma R_nonempty : forall e, In e R -> e <> [].
Proof.
  intros e He.
  assert (H : forallb (fun e => negb (eqs e [])) R = true) by (vm_compute; reflexivity).
  pose proof (forallb_In _ _ _ H He) as H1. simpl in H1.
  intros ->. discriminate.
Qed.

Lemma prefix_free_check (l : list gostring) :
  forallb (fun e => forallb (fun e' => implb (strings.HasPrefix e e') (eqs e e')) l) l = true ->
  forall e e', In e l -> In e' l -> strings.HasPrefix e e' = true -> e = e'.
Proof.
  intros H e e' He He' Hp.
  pose proof (forallb_In _ _ _ H He) as H1. simpl in H1.
  pose proof (forallb_In _ _ _ H1 He') as H2. simpl in H2.
  rewrite Hp in H2. simpl in H2. now apply eqs_spec.
Qed.

Lemma E_prefix_free :
  forall e e', In e E -> In e' E -> strings.HasPrefix e e' = true -> e = e'.
Proof. apply prefix_free_check. vm_compute. reflexivity. Qed.

Lemma R_prefix_free :
  forall e e', In e R -> In e' R -> strings.HasPrefix e e' = true -> e = e'.
Proof. apply prefix_free_check. vm_compute. reflexivity. Qed.

(** No space sequence contains ['=']. *)
Lemma E_no_eq : forall e, In e E -> ~ In "="%char e.
Proof.
  intros e He Hin.
  assert (H : forallb (fun e => negb (existsb (Ascii.eqb "="%char) e)) E = true)
    by (vm_compute; reflexivity).
  pose proof (forallb_In _ _ _ H He) as H1. simpl in H1.
  apply negb_true_iff in H1.
  assert (existsb (Ascii.eqb "="%char) e = true); [|congruence].
  apply existsb_exists. exists "="%char. split; [assumption|apply Ascii.eqb_refl].
Qed.

Lemma R_no_eq : forall e, In e R -> ~ In "="%char e.
Proof.
  intros e He Hin. apply in_map_iff in He as (e0 & <- & He0).
  apply in_rev in Hin. now apply (E_no_eq e0).
Qed.

(** The carriage return is the only space sequence that ends with it. *)
Lemma R_CR : forall r, In r R -> strings.HasPrefix r [CR] = true -> r = [CR].
Proof.
  intros r Hr Hp.
  assert (H : forallb (fun r => implb (strings.HasPrefix r [CR]) (eqs r [CR])) R = true)
    by (vm_compute; reflexivity).
  pose proof (forallb_In _ _ _ H Hr) as H1. cbv beta in H1.
  rewrite Hp in H1. now apply eqs_spec.
Qed.

Lemma CR_in_E : In [CR] E.
Proof. vm_compute. tauto. Qed.

Lemma CR_in_R : In [CR] R.
Proof. vm_compute. tauto. Qed.

Lemma TrimLeft_decomp (s : gostring) :
  exists p, strings.Spaces E p /\ s = p ++ strings.TrimLeftSpace s /\
            strings.stripOne E (strings.TrimLeftSpace s) = None.
Proof.
  unfold strings.TrimLeftSpace.
  destruct (stripAll_decomp E (length s) s) as (p & Hp & Hs).
  exists p. repeat split; try assumption.
  apply stripAll_fixed; [apply E_nonempty|lia].
Qed.

Lemma TrimRight_decomp (s : gostring) :
  exists q, strings.Spaces R (rev q) /\ s = strings.TrimRightSpace s ++ q /\
            strings.stripOne R (rev (strings.TrimRightSpace s)) = None.
Proof.
  unfold strings.TrimRightSpace. rewrite <- !rev_alt.
  destruct (stripAll_decomp R (length s) (rev s)) as (p & Hp & Hs).
  exists (rev p). rewrite !rev_involutive. repeat split; try assumption.
  - rewrite <- rev_app_distr, <- Hs. now rewrite rev_involutive.
  - apply stripAll_fixed; [apply R_nonempty|rewrite length_rev; lia].
Qed.

Lemma TrimLeft_intro (p m : gostring) :
  strings.Spaces E p -> strings.stripOne E m = None ->
  strings.TrimLeftSpace (p ++ m) = m.
Proof.
  intros Hp Hm. unfold strings.TrimLeftSpace.
  apply stripAll_spaces; auto using E_nonempty, E_prefix_free.
Qed.

Lemma TrimRight_intro (m q : gostring) :
  strings.Spaces R (rev q) -> strings.stripOne R (rev m) = None ->
  strings.TrimRightSpace (m ++ q) = m.
Proof.
  intros Hq Hm. unfold strings.TrimRightSpace. rewrite <- !rev_alt.
  rewrite rev_app_distr.
  rewrite stripAll_spaces; auto using R_nonempty, R_prefix_free.
  - apply rev_involutive.
  - rewrite !length_app, !length_rev. lia.
Qed.

Lemma TrimLeft_id (s : gostring) :
  strings.stripOne E s = None -> strings.TrimLeftSpace s = s.
Proof. intros H. now apply (TrimLeft_intro [] s); [constructor|]. Qed.

Lemma TrimRight_id (s : gostring) :
  strings.stripOne R (rev s) = None -> strings.TrimRightSpace s = s.
Proof.
  intros H. rewrite <- (app_nil_r s) at 1.
  now apply TrimRight_intro; [constructor|].
Qed.

Lemma stripOne_nil (encs : list gostring) :
  (forall e, In e encs -> e <> []) -> strings.stripOne encs [] = None.
Proof.
  intros H. apply stripOne_none. intros e He. specialize (H e He).
  destruct e; [congruence|reflexivity].
Qed.

(** A string is its own trimming exactly when no space sequence starts
    or ends it. *)
Lemma TrimSpace_id_iff (s : gostring) :
  strings.TrimSpace s = s <->
  strings.stripOne E s = None /\ strings.stripOne R (rev s) = None.
Proof.
  unfold strings.TrimSpace. split.
  - intros H.
    destruct (TrimLeft_decomp s) as (p & Hp & Hs & Hl).
    destruct (TrimRight_decomp (strings.TrimLeftSpace s)) as (q & Hq & Hs' & Hr).
    rewrite H in Hs', Hr.
    assert (Hlen : length s = (length p + (length s + length q))%nat).
    { rewrite Hs at 1. rewrite length_app. f_equal. rewrite Hs'. apply length_app. }
    assert (p = []) as -> by (destruct p; [reflexivity|simpl in Hlen; lia]).
    simpl in Hs. rewrite <- Hs in Hl. auto.
  - intros [Hl Hr]. rewrite TrimLeft_id by assumption. now apply TrimRight_id.
Qed.

(** Trimming twice is trimming once: the fuel of [stripAll] is enough to
    remove all the white space. *)
Lemma TrimSpace_idempotent (s : gostring) :
  strings.TrimSpace (strings.TrimSpace s) = strings.TrimSpace s.
Proof.
  apply TrimSpace_id_iff. unfold strings.TrimSpace.
  destruct (TrimLeft_decomp s) as (p & _ & _ & Hl).
  destruct (TrimRight_decomp (strings.TrimLeftSpace s)) as (q & _ & Hs & Hr).
  split; [|assumption].
  apply stripOne_none. intros e He.
  destruct (strings.HasPrefix (strings.TrimRightSpace (strings.TrimLeftSpace s)) e) eqn:Hp;
    [|reflexivity].
  rewrite stripOne_none in Hl. specialize (Hl e He).
  apply HasPrefix_inv in Hp. rewrite Hs, Hp, <- app_assoc, HasPrefix_app in Hl.
  discriminate.
Qed.

Lemma TrimSpace_In (c : ascii) (s : gostring) :
  In c (strings.TrimSpace s) -> In c s.
Proof.
  unfold strings.TrimSpace. intros H.
  destruct (TrimLeft_decomp s) as (p & _ & Hs & _).
  destruct (TrimRight_decomp (strings.TrimLeftSpace s)) as (q & _ & Hs' & _).
  rewrite Hs, Hs'. apply in_or_app. right. apply in_or_app. now left.
Qed.

Lemma TrimSpace_In_eq (s : gostring) :
  In "="%char s -> In "="%char (strings.TrimSpace s).
Proof.
  unfold strings.TrimSpace. intros H.
  destruct (TrimLeft_decomp s) as (p & Hp & Hs & _).
  destruct (TrimRight_decomp (strings.TrimLeftSpace s)) as (q & Hq & Hs' & _).
  rewrite Hs, Hs' in H.
  apply in_app_or in H as [H|H].
  - destruct (Spaces_In _ _ _ Hp H) as (e & He & Hc). now apply E_no_eq in Hc.
  - apply in_app_or in H as [H|H]; [assumption|].
    apply in_rev in H.
    destruct (Spaces_In _ _ _ Hq H) as (e & He & Hc). now apply R_no_eq in Hc.
Qed.

Lemma dropCR_cases (l : gostring) :
  bufio.dropCR l = l \/ l = bufio.dropCR l ++ [CR].
Proof.
  induction l as [|c l IH]; [now left|].
  destruct l as [|d l].
  - simpl. destruct (Ascii.eqb c CR) eqn:Ec; [|now left].
    apply Ascii.eqb_eq in Ec. subst. now right.
  - change (bufio.dropCR (c :: d :: l)) with (c :: bufio.dropCR (d :: l)).
    destruct IH as [IH|IH]; [left|right].
    + now rewrite IH.
    + now rewrite IH at 1.
Qed.

(** The carriage return the scanner drops would be trimmed anyway. *)
Lemma TrimSpace_dropCR (l : gostring) :
  strings.TrimSpace (bufio.dropCR l) = strings.TrimSpace l.
Proof.
  destruct (dropCR_cases l) as [H|H]; [now rewrite H|].
  set (l' := bufio.dropCR l) in *. rewrite H. clearbody l'. clear H l.
  unfold strings.TrimSpace.
  destruct (TrimLeft_decomp l') as (p & Hp & Hs & Hl).
  set (m := strings.TrimLeftSpace l') in *.
  destruct m as [|c m'] eqn:Em.
  - rewrite app_nil_r in Hs. subst p.
    rewrite <- (app_nil_r (l' ++ [CR])).
    rewrite TrimLeft_intro; [reflexivity| |apply stripOne_nil, E_nonempty].
    apply Spaces_app; [assumption|].
    change [CR] with ([CR] ++ []). constructor; [apply CR_in_E|constructor].
  - rewrite <- Em in *.
    assert (Hne : m <> []) by (rewrite Em; discriminate).
    assert (HL : strings.TrimLeftSpace (l' ++ [CR]) = m ++ [CR]).
    { rewrite Hs at 1. rewrite <- app_assoc. apply TrimLeft_intro; [assumption|].
      apply stripOne_none. intros e He.
      destruct (strings.HasPrefix (m ++ [CR]) e) eqn:Hpre; [|reflexivity].
      apply HasPrefix_snoc in Hpre as [Hpre| ->].
      - rewrite stripOne_none in Hl. rewrite (Hl e He) in Hpre. discriminate.
      - exfalso. apply Hne.
        assert (Hr : In (rev (m ++ [CR])) R) by now apply in_map.
        rewrite rev_app_distr in Hr. simpl in Hr.
        apply R_CR in Hr; [|reflexivity].
        inversion Hr as [Hrev]. apply (f_equal (@rev ascii)) in Hrev.
        now rewrite rev_involutive in Hrev. }
    rewrite HL.
    destruct (TrimRight_decomp m) as (q & Hq & Hm & Hr).
    replace (m ++ [CR]) with (strings.TrimRightSpace m ++ (q ++ [CR]))
      by (rewrite app_assoc; now rewrite <- Hm).
    symmetry. apply TrimRight_intro; [|assumption].
    rewrite rev_app_distr. simpl.
    change (CR :: rev q) with ([CR] ++ rev q). constructor; [apply CR_in_R|assumption].
Qed.


(** ** Splitting *)

Lemma cut_none (s : gostring) (sep : ascii) :
  strings.cut s sep = None <-> ~ In sep s.
Proof.
  induction s as [|c s IH]; simpl; [tauto|].
  destruct (Ascii.eqb_spec c sep) as [->|Hne].
  - split; [discriminate|intros H; exfalso; auto].
  - destruct (strings.cut s sep) as [[a b]|].
    + split; [discriminate|]. intros H. exfalso. apply H. right.
      destruct (in_dec ascii_dec sep s) as [Hin|Hin]; [assumption|].
      now apply IH in Hin.
    + split; [|reflexivity]. intros _ [H|H]; [congruence|]. now apply IH in H.
Qed.

Lemma cut_some (s a b : gostring) (sep : ascii) :
  strings.cut s sep = Some (a, b) -> s = a ++ sep :: b /\ ~ In sep a.
Proof.
  revert a; induction s as [|c s IH]; simpl; intros a; [discriminate|].
  destruct (Ascii.eqb_spec c sep) as [->|Hne].
  - intros H; inversion H; subst. split; [reflexivity|intros []].
  - destruct (strings.cut s sep) as [[a' b']|]; [|discriminate].
    intros H; inversion H; subst. destruct (IH a' eq_refl) as [-> Hn].
    split; [reflexivity|]. intros [Hc|Hc]; [congruence|contradiction].
Qed.

Lemma cut_app (k v : gostring) (sep : ascii) :
  ~ In sep k -> strings.cut (k ++ sep :: v) sep = Some (k, v).
Proof.
  induction k as [|c k IH]; simpl; intros Hn.
  - now rewrite Ascii.eqb_refl.
  - destruct (Ascii.eqb_spec c sep) as [->|Hne]; [exfalso; auto|].
    rewrite IH; auto.
Qed.

Lemma SplitN_2_none (s : gostring) (sep : ascii) :
  ~ In sep s -> strings.SplitN s sep 2 = [s].
Proof. intros H. apply cut_none in H. simpl. now rewrite H. Qed.

(** Split at the first separator only: what follows it stays whole. *)
Lemma SplitN_2_app (k v : gostring) (sep : ascii) :
  ~ In sep k -> strings.SplitN (k ++ sep :: v) sep 2 = [k; v].
Proof. intros H. simpl. now rewrite cut_app. Qed.

Lemma SplitN_2_some (s : gostring) (sep : ascii) :
  In sep s ->
  exists k v, strings.SplitN s sep 2 = [k; v] /\ s = k ++ sep :: v /\ ~ In sep k.
Proof.
  intros H. simpl. destruct (strings.cut s sep) as [[a b]|] eqn:E.
  - apply cut_some in E as [-> Hn]. exists a, b. auto.
  - apply cut_none in E. contradiction.
Qed.

Lemma hasEq_In (l : gostring) : hasEq l = true <-> In "="%char l.
Proof.
  unfold hasEq. rewrite existsb_exists. split.
  - intros (x & Hx & He). apply Ascii.eqb_eq in He. now subst.
  - intros H. exists "="%char. split; [assumption|apply Ascii.eqb_refl].
Qed.

Lemma hasEq_not_In (l : gostring) : hasEq l = false <-> ~ In "="%char l.
Proof.
  rewrite <- hasEq_In. destruct (hasEq l); split; congruence.
Qed.

(** ** The scanner's lines *)

Lemma lines_line (l rest : gostring) :
  ~ In NL l -> bufio.lines (l ++ NL :: rest) = l :: bufio.lines rest.
Proof.
  induction l as [|c l IH]; intros Hn.
  - reflexivity.
  - simpl. destruct (Ascii.eqb_spec c NL) as [->|Hne]; [exfalso; apply Hn; now left|].
    rewrite IH; [reflexivity|]. intros H. apply Hn. now right.
Qed.

Lemma lines_unlines (ls : list gostring) :
  (forall l, In l ls -> ~ In NL l) -> bufio.lines (unlines ls) = ls.
Proof.
  induction ls as [|l ls IH]; intros H; [reflexivity|].
  unfold unlines. simpl. rewrite <- app_assoc. simpl.
  rewrite lines_line by (apply H; now left).
  f_equal. apply IH. intros l' Hl'. apply H. now right.
Qed.

Lemma lines_no_NL (data : bytes) (l : gostring) :
  In l (bufio.lines data) -> ~ In NL l.
Proof.
  revert l; induction data as [|c data IH]; intros l; simpl; [tauto|].
  destruct (Ascii.eqb_spec c NL) as [->|Hne].
  - intros [<-|H]; [intros []|now apply IH].
  - destruct (bufio.lines data) as [|l0 ls].
    + intros [<-|[]]. intros [H|[]]. congruence.
    + intros [<-|H].
      * intros [Hc|Hc]; [congruence|]. apply (IH l0); [now left|assumption].
      * apply IH. now right.
Qed.

(** A last line without newline is a line all the same. *)
Lemma lines_last (l : gostring) :
  l <> [] -> ~ In NL l -> bufio.lines l = [l].
Proof.
  induction l as [|c l IH]; intros Hne Hn; [congruence|].
  simpl. destruct (Ascii.eqb_spec c NL) as [->|Hc]; [exfalso; apply Hn; now left|].
  destruct l as [|d l]; [reflexivity|].
  rewrite IH; [reflexivity|discriminate|]. intros H. apply Hn. now right.
Qed.

(** ** One turn of the scan loop *)


Lemma fits_spec (l : gostring) :
  fits l = true <-> (bufio.MaxScanTokenSize <=? len l) = false.
Proof.
  unfold fits. rewrite Z.ltb_lt, Z.leb_gt. tauto.
Qed.

Lemma loop_cons (raw : gostring) rest c v :
  unmarshalLoop (raw :: rest) c v =
    if bufio.MaxScanTokenSize <=? len raw
    then (v, Returns (Some ErrTooLong))
    else
      let line := strings.TrimSpace (bufio.dropCR raw) in
      if eqs line [] || strings.HasPrefix line (str "#")
      then unmarshalLoop rest (c + 1) v
      else
        match strings.SplitN line "="%char 2 with
        | [k; val] =>
            match assignTarget k val v with
            | (v', None) => unmarshalLoop rest (c + 1) v'
            | (v', Some x) => (v', outcomeOf x)
            end
        | _ => (v, Returns (Some (ErrorLineParsing (c + 1))))
        end.
Proof. reflexivity. Qed.

Lemma loop_too_long (l : gostring) rest c v :
  fits l = false ->
  unmarshalLoop (l :: rest) c v = (v, Returns (Some ErrTooLong)).
Proof.
  intros H. rewrite loop_cons.
  assert ((bufio.MaxScanTokenSize <=? len l) = true) as ->; [|reflexivity].
  unfold fits in H. apply Z.ltb_ge in H. now apply Z.leb_le.
Qed.

Lemma loop_ignored (l : gostring) rest c v :
  fits l = true -> isIgnored l = true ->
  unmarshalLoop (l :: rest) c v = unmarshalLoop rest (c + 1) v.
Proof.
  intros Hf Hi. apply fits_spec in Hf. rewrite loop_cons, Hf. cbv zeta.
  rewrite TrimSpace_dropCR.
  unfold isIgnored, isBlank, isComment in Hi. now rewrite Hi.
Qed.

Lemma loop_malformed (l : gostring) rest c v :
  fits l = true -> isMalformed l = true ->
  unmarshalLoop (l :: rest) c v = (v, Returns (Some (ErrorLineParsing (c + 1)))).
Proof.
  intros Hf Hm. apply fits_spec in Hf.
  unfold isMalformed in Hm. apply andb_true_iff in Hm as [Hi He].
  apply negb_true_iff in Hi, He. apply hasEq_not_In in He.
  rewrite loop_cons, Hf. cbv zeta. rewrite TrimSpace_dropCR.
  unfold isIgnored, isBlank, isComment in Hi. rewrite Hi.
  rewrite SplitN_2_none; [reflexivity|].
  intros H. apply He. now apply TrimSpace_In.
Qed.

Lemma loop_key_value (l : gostring) :
  fits l = true -> isKeyValue l = true ->
  exists k val,
    strings.TrimSpace l = k ++ "="%char :: val /\ ~ In "="%char k /\
    forall rest c v,
      unmarshalLoop (l :: rest) c v =
        match assignTarget k val v with
        | (v', None) => unmarshalLoop rest (c + 1) v'
        | (v', Some x) => (v', outcomeOf x)
        end.
Proof.
  intros Hf Hk. apply fits_spec in Hf.
  unfold isKeyValue in Hk. apply andb_true_iff in Hk as [Hi He].
  apply negb_true_iff in Hi. apply hasEq_In in He.
  apply TrimSpace_In_eq in He.
  destruct (SplitN_2_some _ _ He) as (k & val & Hs & Hl & Hn).
  exists k, val. repeat split; try assumption.
  intros rest c v.
  rewrite loop_cons, Hf. cbv zeta. rewrite TrimSpace_dropCR.
  unfold isIgnored, isBlank, isComment in Hi. rewrite Hi.
  now rewrite Hs.
Qed.


(** ** The field resolver *)

(** On ASCII names the upper-casing is the byte-wise one, whatever the
    Unicode tables are. *)
Lemma ToUpper_ascii (s : gostring) :
  strings.isASCII s = true -> ToUpper s = map strings.upperByte s.
Proof. unfold ToUpper. now intros ->. Qed.

Lemma Split_nonempty (s : gostring) (sep : ascii) : strings.Split s sep <> [].
Proof.
  destruct s as [|c s]; simpl; [discriminate|].
  destruct (Ascii.eqb c sep); [discriminate|].
  destruct (strings.Split s sep); discriminate.
Qed.

Lemma Split_hd (tag : gostring) :
  hd [] (strings.Split tag ","%char) = firstToken tag.
Proof.
  induction tag as [|c tag IH]; simpl; [reflexivity|].
  destruct (Ascii.eqb c ","%char); [reflexivity|].
  destruct (strings.Split tag ","%char) as [|seg segs] eqn:E.
  - now apply Split_nonempty in E.
  - simpl in *. now rewrite IH.
Qed.

Lemma Split_tl_cons (c : ascii) (tag : gostring) :
  Ascii.eqb c ","%char = false ->
  tl (strings.Split (c :: tag) ","%char) = tl (strings.Split tag ","%char).
Proof.
  intros H. simpl. rewrite H.
  destruct (strings.Split tag ","%char) as [|seg segs] eqn:E; [|reflexivity].
  now apply Split_nonempty in E.
Qed.

Lemma firstToken_decomp (tag : gostring) :
  exists post, tag = firstToken tag ++ post /\
               (post = [] \/ exists post', post = ","%char :: post').
Proof.
  induction tag as [|c tag (post & Ht & Hp)]; simpl.
  - exists []. auto.
  - destruct (Ascii.eqb_spec c ","%char) as [->|Hne].
    + exists (","%char :: tag). split; [reflexivity|right; eauto].
    + exists post. split; [simpl; congruence|assumption].
Qed.

Lemma firstToken_token (tok post : gostring) :
  ~ In ","%char tok -> (post = [] \/ exists post', post = ","%char :: post') ->
  firstToken (tok ++ post) = tok.
Proof.
  intros Hn Hp. induction tok as [|c tok IH]; simpl.
  - destruct Hp as [->|(post' & ->)]; reflexivity.
  - destruct (Ascii.eqb_spec c ","%char) as [->|Hne]; [exfalso; apply Hn; now left|].
    rewrite IH; [reflexivity|]. intros H. apply Hn. now right.
Qed.

Lemma Split_no_sep (s tok : gostring) :
  In tok (strings.Split s ","%char) -> ~ In ","%char tok.
Proof.
  revert tok; induction s as [|c s IH]; simpl; intros tok.
  - intros [<-|[]]. tauto.
  - destruct (Ascii.eqb_spec c ","%char) as [->|Hne].
    + intros [<-|H]; [tauto|now apply IH].
    + destruct (strings.Split s ","%char) as [|seg segs] eqn:E.
      * intros [<-|[]]. intros [H|[]]. congruence.
      * intros [<-|H].
        -- intros [H|H]; [congruence|]. apply (IH seg); [now left|assumption].
        -- apply IH. now right.
Qed.

(** The tokens that [options[1:]] ranges over are the later tokens of
    the tag. *)
Lemma Split_tl_later (tag tok : gostring) :
  In tok (tl (strings.Split tag ","%char)) <-> laterToken tok tag.
Proof.
  split.
  - intros Hin. split.
    { apply (Split_no_sep tag). destruct (strings.Split tag ","%char); [destruct Hin|].
      now right. }
    revert Hin. induction tag as [|c tag IH]; [intros []|].
    destruct (Ascii.eqb c ","%char) eqn:Ec.
    + apply Ascii.eqb_eq in Ec. subst. simpl. intros Hin.
      destruct (strings.Split tag ","%char) as [|seg segs] eqn:E;
        [now apply Split_nonempty in E|].
      destruct Hin as [<-|Hin].
      * pose proof (Split_hd tag) as Hh. rewrite E in Hh. simpl in Hh. subst seg.
        destruct (firstToken_decomp tag) as (post & Ht & Hp).
        exists [], post. split; [simpl; congruence|assumption].
      * destruct (IH Hin) as (pre & post & Ht & Hp).
        exists (","%char :: pre), post. split; [simpl; congruence|assumption].
    + rewrite Split_tl_cons by assumption. intros Hin.
      destruct (IH Hin) as (pre & post & Ht & Hp).
      exists (c :: pre), post. split; [simpl; congruence|assumption].
  - intros (Hn & pre & post & -> & Hp).
    induction pre as [|c pre IH].
    + simpl.
      pose proof (Split_hd (tok ++ post)) as Hh.
      rewrite firstToken_token in Hh by assumption.
      destruct (strings.Split (tok ++ post) ","%char) as [|seg segs] eqn:E;
        [now apply Split_nonempty in E|].
      simpl in Hh. subst. now left.
    + destruct (Ascii.eqb c ","%char) eqn:Ec.
      * apply Ascii.eqb_eq in Ec. subst. simpl.
        destruct (strings.Split (pre ++ ","%char :: tok ++ post) ","%char); [destruct IH|].
        now right.
      * change ((c :: pre) ++ ","%char :: tok ++ post)
          with (c :: (pre ++ ","%char :: tok ++ post)).
        now rewrite Split_tl_cons.
Qed.

Lemma scanOptions_Skip (options : list gostring) (opts : envOptions) :
  Skip (scanOptions options opts) = Skip opts.
Proof.
  revert opts; induction options as [|v rest IH]; intros opts; [reflexivity|].
  cbn [scanOptions]. destruct (eqs v (str "omitempty")); now rewrite IH.
Qed.

Lemma scanOptions_OmitEmpty (options : list gostring) (opts : envOptions) :
  OmitEmpty (scanOptions options opts) = true <->
  OmitEmpty opts = true \/ In (str "omitempty") options.
Proof.
  revert opts; induction options as [|v rest IH]; intros opts; [simpl; tauto|].
  cbn [scanOptions In].
  destruct (eqs v (str "omitempty")) eqn:Ev; rewrite IH; cbn [OmitEmpty].
  - apply eqs_spec in Ev. subst. tauto.
  - split; [tauto|]. intros [H|[H|H]]; auto.
    subst. now rewrite eqs_refl in Ev.
Qed.

Lemma parseFieldOpts_eq (field : reflect.StructField) :
  parseFieldOpts field =
    let opts := scanOptions (tl (strings.Split (reflect.EnvTag field) ","%char))
                  (mkEnvOptions false false) in
    let o := firstToken (reflect.EnvTag field) in
    if eqs o (str "-") then ([], mkEnvOptions true (OmitEmpty opts))
    else if eqs o [] then (ToUpper (reflect.Name field), opts)
    else (o, opts).
Proof. unfold parseFieldOpts. now rewrite Split_hd. Qed.

Lemma parseFieldOpts_Skip (field : reflect.StructField) :
  Skip (snd (parseFieldOpts field)) = true <->
  firstToken (reflect.EnvTag field) = str "-".
Proof.
  rewrite parseFieldOpts_eq. cbv zeta.
  destruct (eqs (firstToken (reflect.EnvTag field)) (str "-")) eqn:E1.
  - apply eqs_spec in E1. cbn [snd Skip]. tauto.
  - assert (firstToken (reflect.EnvTag field) <> str "-")
      by (intros H; rewrite H, eqs_refl in E1; discriminate).
    destruct (eqs (firstToken (reflect.EnvTag field)) []); cbn [snd];
      rewrite scanOptions_Skip; cbn [Skip]; split; congruence.
Qed.

(** C3 -- Field Resolver correctness.  For every field (name and raw
    configuration string): [Skip] is set exactly when the first
    comma-separated token is ["-"]; the key is the upper-cased field name
    when the first token is empty, and the first token verbatim when it
    is neither empty nor ["-"]; [OmitEmpty] is set exactly when a later
    token equals ["omitempty"], so that all other tokens are ignored.
    The resolver is a total function without error outcome: the only
    partial operation of the source, [options[0]], is always in range. *)
Theorem parseFieldOpts_correct (field : reflect.StructField) :
  (Skip (snd (parseFieldOpts field)) = true <->
     firstToken (reflect.EnvTag field) = str "-") /\
  (firstToken (reflect.EnvTag field) = [] ->
     fst (parseFieldOpts field) = ToUpper (reflect.Name field)) /\
  (firstToken (reflect.EnvTag field) <> [] ->
   firstToken (reflect.EnvTag field) <> str "-" ->
     fst (parseFieldOpts field) = firstToken (reflect.EnvTag field)) /\
  (OmitEmpty (snd (parseFieldOpts field)) = true <->
     laterToken (str "omitempty") (reflect.EnvTag field)) /\
  strings.Split (reflect.EnvTag field) ","%char <> [].
Proof.
  split; [apply parseFieldOpts_Skip|].
  split; [|split; [|split; [|apply Split_nonempty]]].
  - intros H. rewrite parseFieldOpts_eq. cbv zeta. now rewrite H.
  - intros H1 H2. rewrite parseFieldOpts_eq. cbv zeta.
    now rewrite (eqs_neq _ _ H2), (eqs_neq _ _ H1).
  - rewrite <- Split_tl_later.
    rewrite parseFieldOpts_eq. cbv zeta.
    destruct (eqs (firstToken (reflect.EnvTag field)) (str "-"));
      [|destruct (eqs (firstToken (reflect.EnvTag field)) [])];
      cbn [snd OmitEmpty]; rewrite scanOptions_OmitEmpty; cbn [OmitEmpty];
      (split; [intros [H|H]; [discriminate|assumption]|auto]).
Qed.


(** ** Marshal *)

Lemma marshalFields_cons (f : Field) (rest : list Field) (buf : bytes) :
  marshalFields (f :: rest) buf =
    if Skip (optsOf f) then marshalFields rest buf
    else
      match fValue f with
      | FStr s =>
          if negb (OmitEmpty (optsOf f) && eqs s [])
          then marshalFields rest
                 (buf ++ keyOf f ++ str "=" ++ fmt.formatString (fType f) s ++ [NL])
          else marshalFields rest buf
      | FOther k => ([], Some (ErrorUnsupportedType k))
      end.
Proof.
  unfold keyOf, optsOf. cbn [marshalFields].
  now destruct (parseFieldOpts (fType f)).
Qed.

Lemma marshalFields_error (fs : list Field) (buf b : bytes) (e : error) :
  marshalFields fs buf = (b, Some e) ->
  b = [] /\
  exists pre f post k,
    fs = pre ++ f :: post /\ Skip (optsOf f) = false /\
    fValue f = FOther k /\ e = ErrorUnsupportedType k.
Proof.
  revert buf; induction fs as [|f fs IH]; intros buf; [discriminate|].
  rewrite marshalFields_cons.
  assert (Hrec : forall buf', marshalFields fs buf' = (b, Some e) ->
    b = [] /\ exists pre f0 post k,
      f :: fs = pre ++ f0 :: post /\ Skip (optsOf f0) = false /\
      fValue f0 = FOther k /\ e = ErrorUnsupportedType k).
  { intros buf' H. destruct (IH _ H) as (Hb & pre & f0 & post & k & -> & Hs & Hv & He).
    split; [assumption|]. exists (f :: pre), f0, post, k. auto. }
  destruct (Skip (optsOf f)) eqn:Es; [apply Hrec|].
  destruct (fValue f) as [s|k] eqn:Ev.
  - destruct (negb _); apply Hrec.
  - intros H; inversion H; subst. split; [reflexivity|].
    exists [], f, fs, k. auto.
Qed.

Lemma marshalFields_skipped (pre post : list Field) (f : Field) (buf : bytes) :
  Skip (optsOf f) = true ->
  marshalFields (pre ++ f :: post) buf = marshalFields (pre ++ post) buf.
Proof.
  intros Hs. revert buf; induction pre as [|x pre IH]; intros buf.
  - simpl app. now rewrite marshalFields_cons, Hs.
  - simpl app. rewrite !marshalFields_cons.
    destruct (Skip (optsOf x)); [apply IH|].
    destruct (fValue x); [|reflexivity].
    destruct (negb _); apply IH.
Qed.

(** C7 -- Nil record encodes to empty: encoding the nil interface value
    returns a zero-length byte sequence and no error. *)
Theorem Marshal_nil : Marshal Nil = ([], None).
Proof. reflexivity. Qed.

(** C10 -- Whenever [Marshal] returns an error, the byte sequence it
    returns is zero-length, not the buffer filled for the fields before
    the failing one; and an error comes from an input that is no struct
    (reported with its kind) or from a field that is not skipped and is
    no string (reported with the field's kind). *)
Theorem Marshal_error_empty (v : Value) (e : error) :
  snd (Marshal v) = Some e ->
  fst (Marshal v) = [] /\
  (((forall fs, v <> StructValue fs) /\ e = ErrorUnsupportedType (kindOf v)) \/
   (exists pre f post k,
      v = StructValue (pre ++ f :: post) /\ Skip (optsOf f) = false /\
      fValue f = FOther k /\ e = ErrorUnsupportedType k)).
Proof.
  destruct v as [|fs| |elem|k]; simpl; intros H;
    try (inversion H; subst; split; [reflexivity|left; split; [discriminate|reflexivity]]).
  - discriminate.
  - destruct (marshalFields fs []) as [b oe] eqn:E. simpl in H. subst oe.
    apply marshalFields_error in E as (-> & pre & f & post & k & -> & Hs & Hv & He).
    split; [reflexivity|]. right. exists pre, f, post, k. auto.
Qed.


(** ** Unmarshal *)

Lemma assignFields_cons (k v : gostring) (f : Field) (rest : list Field) :
  assignFields k v (f :: rest) =
    let next f' := (f' :: fst (assignFields k v rest), snd (assignFields k v rest)) in
    if Skip (optsOf f) then next f
    else if eqs (strings.TrimSpace k) (keyOf f) then
      match fValue f with
      | FStr _ =>
          if negb (OmitEmpty (optsOf f) && eqs v [])
          then
            if reflect.Exported (fType f)
            then next (mkField (fType f) (FStr (strings.TrimSpace v)))
            else (f :: rest, Some Panic)
          else next f
      | FOther kd => (f :: rest, Some (Return (ErrorUnsupportedType kd)))
      end
    else next f.
Proof.
  unfold keyOf, optsOf. cbn [assignFields].
  destruct (parseFieldOpts (fType f)). now destruct (assignFields k v rest).
Qed.

Lemma assignTarget_struct (k val : gostring) (fs : list Field) :
  assignTarget k val (PointerTo (StructValue fs)) =
    (PointerTo (StructValue (fst (assignFields k val fs))),
     snd (assignFields k val fs)).
Proof. unfold assignTarget. now destruct (assignFields k val fs). Qed.

Lemma outcomeOf_not_nil (x : exit) : outcomeOf x <> Returns None.
Proof. destruct x; discriminate. Qed.

(** A skipped field stays as it is and the other fields are treated as
    if it were not there. *)
Lemma assignFields_skipped (k v : gostring) (pre post : list Field) (f : Field) :
  Skip (optsOf f) = true ->
  exists pre' post',
    length pre' = length pre /\
    assignFields k v (pre ++ f :: post) =
      (pre' ++ f :: post', snd (assignFields k v (pre ++ post))) /\
    fst (assignFields k v (pre ++ post)) = pre' ++ post'.
Proof.
  intros Hs. induction pre as [|x pre (pre' & post' & Hlen & Hf & Hw)].
  - exists [], (fst (assignFields k v post)). simpl app.
    rewrite assignFields_cons, Hs. auto.
  - simpl app. rewrite !assignFields_cons. cbv zeta.
    rewrite Hf, Hw. cbn [fst snd].
    assert (Hnext : forall x',
      exists pre'0 post'0,
        length pre'0 = length (x :: pre) /\
        (x' :: pre' ++ f :: post', snd (assignFields k v (pre ++ post))) =
          (pre'0 ++ f :: post'0, snd (assignFields k v (pre ++ post))) /\
        x' :: pre' ++ post' = pre'0 ++ post'0).
    { intros x'. exists (x' :: pre'), post'. simpl. auto. }
    assert (Hstop : forall x0 : exit,
      exists pre'0 post'0,
        length pre'0 = length (x :: pre) /\
        (x :: pre ++ f :: post, Some x0) = (pre'0 ++ f :: post'0, Some x0) /\
        x :: pre ++ post = pre'0 ++ post'0).
    { intros x0. exists (x :: pre), post. auto. }
    destruct (Skip (optsOf x)); [apply Hnext|].
    destruct (eqs (strings.TrimSpace k) (keyOf x)); [|apply Hnext].
    destruct (fValue x); [|apply Hstop].
    destruct (negb _); [|apply Hnext].
    destruct (reflect.Exported (fType x)); [apply Hnext|apply Hstop].
Qed.

Lemma loop_skipped (f : Field) :
  Skip (optsOf f) = true ->
  forall ls c pre post,
  exists pre' post' o,
    length pre' = length pre /\
    unmarshalLoop ls c (PointerTo (StructValue (pre ++ f :: post))) =
      (PointerTo (StructValue (pre' ++ f :: post')), o) /\
    unmarshalLoop ls c (PointerTo (StructValue (pre ++ post))) =
      (PointerTo (StructValue (pre' ++ post')), o).
Proof.
  intros Hs. induction ls as [|l ls IH]; intros c pre post.
  - exists pre, post, (Returns None). auto.
  - rewrite !loop_cons. cbv zeta.
    destruct (bufio.MaxScanTokenSize <=? len l); [exists pre, post; eauto|].
    destruct (eqs _ [] || _); [apply IH|].
    destruct (strings.SplitN _ _ 2) as [|k [|val [|]]];
      try (exists pre, post; eauto; fail).
    rewrite !assignTarget_struct.
    destruct (assignFields_skipped k val pre post f Hs)
      as (pre' & post' & Hlen & Hf & Hw).
    rewrite Hf, Hw. cbn [fst snd].
    destruct (snd (assignFields k val (pre ++ post))) as [x|].
    + exists pre', post'. eauto.
    + destruct (IH (c + 1) pre' post') as (pre2 & post2 & o & Hlen2 & H1 & H2).
      exists pre2, post2, o. repeat split; congruence.
Qed.

(** C6 -- Skip fields never appear.  A field whose configuration's first
    token is ["-"], whatever its type or value, leaves the encoding as if
    the field were not in the record; and decoding any input leaves the
    field as it was, treating the other fields and ending as if the field
    were not in the record -- also for lines whose key is the field's
    upper-cased name. *)
Theorem skipped_field_never_appears (pre post : list Field) (f : Field) :
  firstToken (reflect.EnvTag (fType f)) = str "-" ->
  Marshal (StructValue (pre ++ f :: post)) = Marshal (StructValue (pre ++ post)) /\
  forall data,
  exists pre' post' o,
    length pre' = length pre /\
    Unmarshal data (PointerTo (StructValue (pre ++ f :: post))) =
      (PointerTo (StructValue (pre' ++ f :: post')), o) /\
    Unmarshal data (PointerTo (StructValue (pre ++ post))) =
      (PointerTo (StructValue (pre' ++ post')), o).
Proof.
  intros Ht. apply parseFieldOpts_Skip in Ht. split.
  - apply marshalFields_skipped. exact Ht.
  - intros data. apply loop_skipped. exact Ht.
Qed.

(** Lines that are ignored are passed over; only the count moves. *)
Lemma loop_ignored_prefix (pre rest : list gostring) (c : Z) (v : Value) :
  Forall (fun l => fits l = true /\ isIgnored l = true) pre ->
  unmarshalLoop (pre ++ rest) c v =
    unmarshalLoop rest (c + Z.of_nat (length pre)) v.
Proof.
  intros H. revert c. induction H as [|l pre [Hf Hi] _ IH]; intros c.
  - simpl. now rewrite Z.add_0_r.
  - simpl app. rewrite loop_ignored by assumption. rewrite IH.
    f_equal. rewrite length_cons. lia.
Qed.

(** When the lines [pre] decode without error, the loop goes on behind
    them with the record they leave. *)
Lemma loop_prefix (pre rest : list gostring) (c : Z) (v v' : Value) :
  unmarshalLoop pre c v = (v', Returns None) ->
  unmarshalLoop (pre ++ rest) c v =
    unmarshalLoop rest (c + Z.of_nat (length pre)) v'.
Proof.
  revert c v. induction pre as [|l pre IH]; intros c v H.
  - simpl in *. inversion H; subst. now rewrite Z.add_0_r.
  - simpl app. rewrite loop_cons in *. cbv zeta in *.
    replace (c + Z.of_nat (length (l :: pre)))
      with (c + 1 + Z.of_nat (length pre)) by (rewrite length_cons; lia).
    destruct (bufio.MaxScanTokenSize <=? len l); [discriminate|].
    destruct (eqs _ [] || _); [now apply IH|].
    destruct (strings.SplitN _ _ 2) as [|k [|val [|]]]; try discriminate.
    destruct (assignTarget k val v) as [v1 [x|]].
    + inversion H as [[Hv Ho]]. now apply outcomeOf_not_nil in Ho.
    + now apply IH.
Qed.


Lemma assignTarget_invalid (k val : gostring) (v : Value) :
  nonNilPointer v = false ->
  assignTarget k val v = (v, Some (Return (ErrorUnsupportedType (kindOf v)))).
Proof. destruct v; simpl; intros H; reflexivity || discriminate. Qed.

Lemma classes_exclusive (l : gostring) :
  isIgnored l = false -> isMalformed l = false -> isKeyValue l = true.
Proof.
  unfold isMalformed, isKeyValue. intros ->. simpl.
  now destruct (hasEq l).
Qed.

(** Ignored lines can be taken out of the input when no line is
    malformed: the line numbers, which they alone change, are not
    reported then. *)
Lemma loop_filter (ls : list gostring) :
  Forall (fun l => isMalformed l = false /\ (isIgnored l = true -> fits l = true)) ls ->
  forall c1 c2 v,
    unmarshalLoop ls c1 v =
    unmarshalLoop (filter (fun l => negb (isIgnored l)) ls) c2 v.
Proof.
  induction 1 as [|l ls [Hm Hi] _ IH]; intros c1 c2 v; [reflexivity|].
  cbn [filter]. destruct (isIgnored l) eqn:Ei; cbn [negb].
  - rewrite loop_ignored by auto. apply IH.
  - destruct (fits l) eqn:Ef.
    + destruct (loop_key_value l Ef (classes_exclusive l Ei Hm))
        as (k & val & _ & _ & Hstep).
      rewrite !Hstep. destruct (assignTarget k val v) as [v1 [x|]]; [reflexivity|].
      apply IH.
    + now rewrite !loop_too_long.
Qed.

(** C2 (amended) -- A target that is not a non-nil pointer (the nil
    interface, a nil pointer, or a value that is no pointer) makes
    [Unmarshal] fail with [UnsupportedType] carrying the target's kind
    when the input's first line that is neither blank nor comment is a
    key/value line, the lines up to it being shorter than the scanner's
    limit; the target is examined only when such a line is reached. *)
Theorem Unmarshal_invalid_target (data : bytes) (pre post : list gostring)
    (l : gostring) (v : Value) :
  nonNilPointer v = false ->
  bufio.lines data = pre ++ l :: post ->
  Forall (fun l => fits l = true /\ isIgnored l = true) pre ->
  fits l = true -> isKeyValue l = true ->
  Unmarshal data v = (v, Returns (Some (ErrorUnsupportedType (kindOf v)))).
Proof.
  intros Hv Hl Hpre Hf Hk. unfold Unmarshal. rewrite Hl.
  rewrite loop_ignored_prefix by assumption.
  destruct (loop_key_value l Hf Hk) as (k & val & _ & _ & Hstep).
  rewrite Hstep. now rewrite assignTarget_invalid.
Qed.

(** C4 (amended) -- Line-parsing failure.  When the lines before it
    decode without error, a line shorter than the scanner's limit that
    is neither blank nor comment and contains no ['='] makes decoding
    fail with [LineParsing] carrying its 1-based number; the record is
    left as the lines before it made it and nothing behind the line is
    looked at.  In particular a 3-line document whose line 2 is such a
    line fails reporting line number 2 whatever line 3 is, provided
    line 1 decodes without error. *)
Theorem Unmarshal_line_parsing (data : bytes) (pre post : list gostring)
    (bad : gostring) (v v' : Value) :
  bufio.lines data = pre ++ bad :: post ->
  fits bad = true -> isMalformed bad = true ->
  Unmarshal (unlines pre) v = (v', Returns None) ->
  Unmarshal data v =
    (v', Returns (Some (ErrorLineParsing (Z.of_nat (length pre) + 1)))).
Proof.
  intros Hl Hf Hm Hpre. unfold Unmarshal in *.
  rewrite lines_unlines in Hpre.
  - rewrite Hl. rewrite (loop_prefix _ _ _ _ _ Hpre).
    now rewrite loop_malformed.
  - intros l Hin. apply (lines_no_NL data). rewrite Hl.
    apply in_or_app. now left.
Qed.

(** C8 (amended) -- Comment/blank tolerance.  For every target, a
    document whose lines are blank lines, comment lines and key/value
    lines, the blank and comment lines being shorter than the scanner's
    limit, decodes to the same record with the same outcome as the
    document with the blank and comment lines removed. *)
Theorem Unmarshal_ignores_blank_and_comment (data : bytes) (v : Value) :
  Forall (fun l => isMalformed l = false /\ (isIgnored l = true -> fits l = true))
         (bufio.lines data) ->
  Unmarshal data v =
  Unmarshal (unlines (filter (fun l => negb (isIgnored l)) (bufio.lines data))) v.
Proof.
  intros H. unfold Unmarshal. rewrite lines_unlines.
  - now apply loop_filter.
  - intros l Hin. apply filter_In in Hin as [Hin _].
    now apply (lines_no_NL data).
Qed.

(** C9 (amended) -- [Unmarshal] examines its target only when it reaches
    a key/value line.  For every target, valid or not: an input whose
    lines are all blank or comment lines shorter than the scanner's
    limit (or that has no line at all) returns no error and leaves the
    target as it is; and an input whose first line that is neither blank
    nor comment has no ['='] returns the [LineParsing] error with that
    line's number, not [UnsupportedType], the lines up to it being
    shorter than the scanner's limit. *)
Theorem Unmarshal_target_checked_late (v : Value) :
  (forall data,
     Forall (fun l => fits l = true /\ isIgnored l = true) (bufio.lines data) ->
     Unmarshal data v = (v, Returns None)) /\
  (forall data pre bad post,
     bufio.lines data = pre ++ bad :: post ->
     Forall (fun l => fits l = true /\ isIgnored l = true) pre ->
     fits bad = true -> isMalformed bad = true ->
     Unmarshal data v =
       (v, Returns (Some (ErrorLineParsing (Z.of_nat (length pre) + 1))))).
Proof.
  split.
  - intros data H. unfold Unmarshal.
    rewrite <- (app_nil_r (bufio.lines data)).
    now rewrite loop_ignored_prefix.
  - intros data pre bad post Hl Hpre Hf Hm. unfold Unmarshal. rewrite Hl.
    rewrite loop_ignored_prefix by assumption.
    now rewrite loop_malformed.
Qed.


(** ** Lines that carry a key and a value *)

Lemma hasNL_not_In (l : gostring) : hasNL l = false <-> ~ In NL l.
Proof.
  unfold hasNL. split.
  - intros H Hin.
    assert (existsb (Ascii.eqb NL) l = true); [|congruence].
    apply existsb_exists. exists NL. split; [assumption|apply Ascii.eqb_refl].
  - intros H. destruct (existsb (Ascii.eqb NL) l) eqn:E; [|reflexivity].
    apply existsb_exists in E as (x & Hx & He).
    apply Ascii.eqb_eq in He. subst. contradiction.
Qed.

Lemma stripOne_app_sep (encs : list gostring) (a b : gostring) (c : ascii) :
  (forall e, In e encs -> ~ In c e) ->
  strings.stripOne encs a = None ->
  strings.stripOne encs (a ++ c :: b) = None.
Proof.
  intros Hc Ha. apply stripOne_none. intros e He.
  destruct (strings.HasPrefix (a ++ c :: b) e) eqn:Hp; [|reflexivity].
  apply HasPrefix_app_sep in Hp as [Hp|Hp].
  - rewrite stripOne_none in Ha. rewrite (Ha e He) in Hp. discriminate.
  - now apply Hc in Hp.
Qed.

(** A line [k=v] with a trimmed key and a trimmed value is its own
    trimming. *)
Lemma TrimSpace_key_value (k v : gostring) :
  strings.TrimSpace k = k -> strings.TrimSpace v = v ->
  strings.TrimSpace (k ++ "="%char :: v) = k ++ "="%char :: v.
Proof.
  intros Hk Hv. apply TrimSpace_id_iff in Hk as [Hk _].
  apply TrimSpace_id_iff in Hv as [_ Hv].
  apply TrimSpace_id_iff. split.
  - apply stripOne_app_sep; [apply E_no_eq|assumption].
  - rewrite rev_app_distr. simpl. rewrite <- app_assoc. simpl.
    apply stripOne_app_sep; [apply R_no_eq|assumption].
Qed.

Lemma HasPrefix_hash_key (k v : gostring) :
  strings.HasPrefix k (str "#") = false ->
  strings.HasPrefix (k ++ "="%char :: v) (str "#") = false.
Proof. destruct k as [|c k]; simpl; [reflexivity|]. now rewrite !andb_true_r. Qed.

(** The scan loop on a line [k=v]: the line is cut at the first ['='],
    which is the one behind the key. *)
Lemma loop_plain_line (k v : gostring) (rest : list gostring) (c : Z) (t : Value) :
  fits (k ++ "="%char :: v) = true ->
  strings.TrimSpace k = k -> hasEq k = false ->
  strings.HasPrefix k (str "#") = false ->
  strings.TrimSpace v = v ->
  unmarshalLoop ((k ++ "="%char :: v) :: rest) c t =
    match assignTarget k v t with
    | (t', None) => unmarshalLoop rest (c + 1) t'
    | (t', Some x) => (t', outcomeOf x)
    end.
Proof.
  intros Hf Hk He Hh Hv. apply fits_spec in Hf. apply hasEq_not_In in He.
  rewrite loop_cons, Hf. cbv zeta.
  rewrite TrimSpace_dropCR, TrimSpace_key_value by assumption.
  rewrite HasPrefix_hash_key by assumption.
  rewrite eqs_neq by (destruct k; discriminate).
  cbn [orb]. now rewrite SplitN_2_app.
Qed.

(** The field loop on a record whose fields can all take the value. *)
Lemma assignFields_strings (k v : gostring) (fs : list Field) :
  strings.TrimSpace k = k ->
  Forall (fun f => Skip (optsOf f) = false /\ isString f = true /\
                   reflect.Exported (fType f) = true /\
                   OmitEmpty (optsOf f) && eqs v [] = false) fs ->
  assignFields k v fs = (setKey k (strings.TrimSpace v) fs, None).
Proof.
  intros Hk. induction 1 as [|f fs (Hs & Hstr & Hx & Ho) _ IH]; [reflexivity|].
  rewrite assignFields_cons. cbv zeta. rewrite IH, Hs, Hk, Ho, Hx. cbn [fst snd negb].
  unfold isString in Hstr. cbn [setKey map].
  destruct (eqs k (keyOf f)); [|reflexivity].
  destruct (fValue f); [reflexivity|discriminate].
Qed.

Lemma keyOf_skipped (f : Field) : Skip (optsOf f) = true -> keyOf f = [].
Proof.
  unfold optsOf, keyOf. rewrite parseFieldOpts_eq. cbv zeta.
  destruct (eqs (firstToken (reflect.EnvTag (fType f))) (str "-")); [reflexivity|].
  destruct (eqs (firstToken (reflect.EnvTag (fType f))) []); cbn [snd];
    rewrite scanOptions_Skip; discriminate.
Qed.

(** C5 (amended) -- First-['=']-wins.  Every key/value line shorter than
    the scanner's limit of 65536 bytes is cut at its first ['='] only:
    the scan loop hands the field loop the part before the first ['=']
    as key and all that follows it as value, further ['='] characters
    included.  When such a line is the only line of the input and its key
    (trimmed, without ['='], not starting with ['#']) is the key that the
    one field of the record resolves to, a string field that is exported
    and not skipped, decoding assigns the field the whole value
    (trimmed, not empty) behind the first ['='] and returns no error.  In
    particular, decoding the line [TEST=abc123=123=a] into a record with
    one exported string field resolving to [TEST] assigns the field the
    value [abc123=123=a]. *)
Theorem Unmarshal_first_eq_wins :
  (forall l,
     fits l = true -> isKeyValue l = true ->
     exists k val,
       strings.TrimSpace l = k ++ "="%char :: val /\ ~ In "="%char k /\
       forall rest c v,
         unmarshalLoop (l :: rest) c v =
           match assignTarget k val v with
           | (v', None) => unmarshalLoop rest (c + 1) v'
           | (v', Some x) => (v', outcomeOf x)
           end) /\
  (forall data f k val,
     bufio.lines data = [k ++ "="%char :: val] ->
     fits (k ++ "="%char :: val) = true ->
     strings.TrimSpace k = k -> hasEq k = false ->
     strings.HasPrefix k (str "#") = false ->
     strings.TrimSpace val = val -> eqs val [] = false ->
     keyOf f = k -> Skip (optsOf f) = false ->
     isString f = true -> reflect.Exported (fType f) = true ->
     Unmarshal data (PointerTo (StructValue [f])) =
       (PointerTo (StructValue [mkField (fType f) (FStr val)]), Returns None)) /\
  (forall data f,
     bufio.lines data = [str "TEST=abc123=123=a"] ->
     keyOf f = str "TEST" -> isString f = true ->
     reflect.Exported (fType f) = true ->
     Unmarshal data (PointerTo (StructValue [f])) =
       (PointerTo (StructValue [mkField (fType f) (FStr (str "abc123=123=a"))]),
        Returns None)).
Proof.
  assert (Hone : forall data f k val,
     bufio.lines data = [k ++ "="%char :: val] ->
     fits (k ++ "="%char :: val) = true ->
     strings.TrimSpace k = k -> hasEq k = false ->
     strings.HasPrefix k (str "#") = false ->
     strings.TrimSpace val = val -> eqs val [] = false ->
     keyOf f = k -> Skip (optsOf f) = false ->
     isString f = true -> reflect.Exported (fType f) = true ->
     Unmarshal data (PointerTo (StructValue [f])) =
       (PointerTo (StructValue [mkField (fType f) (FStr val)]), Returns None)).
  { intros data f k val Hl Hf Hk He Hh Hv Hne Hkey Hs Hstr Hx.
    unfold Unmarshal. rewrite Hl, loop_plain_line by assumption.
    rewrite assignTarget_struct, assignFields_strings; [|assumption|].
    - cbn [fst snd setKey map]. rewrite Hv, Hkey, eqs_refl. reflexivity.
    - constructor; [|constructor]. rewrite Hne, andb_false_r. auto. }
  split; [exact loop_key_value|]. split; [exact Hone|].
  intros data f Hl Hkey Hstr Hx.
  apply (Hone data f (str "TEST") (str "abc123=123=a"));
    try assumption; try (vm_compute; reflexivity).
  destruct (Skip (optsOf f)) eqn:Es; [|reflexivity].
  apply keyOf_skipped in Es. rewrite Es in Hkey. discriminate.
Qed.


(** ** Round trip *)

(** For a field of a type without formatting method, [%s] prints the
    contents. *)
Lemma formatString_unformatted (f : Field) (s : gostring) :
  unformatted f -> fmt.formatString (fType f) s = s.
Proof. unfold unformatted, fmt.formatString. now intros ->. Qed.

Lemma writtenLine_unformatted (f : Field) :
  unformatted f -> writtenLine f = lineOf f.
Proof.
  intros H. unfold writtenLine, lineOf. now rewrite formatString_unformatted.
Qed.

Lemma marshalFields_plain (fs : list Field) (buf : bytes) :
  Forall plainField fs ->
  marshalFields fs buf = (buf ++ unlines (map lineOf fs), None).
Proof.
  intros H. revert buf.
  induction H as [|f fs (_ & Hstr & Hs & Ho & Hu) _ IH]; intros buf.
  - simpl. now rewrite app_nil_r.
  - rewrite marshalFields_cons, Hs, Ho. unfold isString in Hstr.
    change (unlines (map lineOf (f :: fs)))
      with ((lineOf f ++ [NL]) ++ unlines (map lineOf fs)).
    unfold lineOf at 1, stringOf at 1.
    destruct (fValue f) as [s|]; [|discriminate].
    rewrite (formatString_unformatted f) by assumption.
    cbn [andb negb]. rewrite IH. f_equal.
    change (str "=" ++ s ++ [NL]) with ("="%char :: s ++ [NL]).
    repeat (rewrite <- app_assoc || rewrite <- app_comm_cons). reflexivity.
Qed.

Lemma lineOf_no_NL (f : Field) :
  hasNL (keyOf f) = false -> hasNL (stringOf f) = false -> ~ In NL (lineOf f).
Proof.
  rewrite !hasNL_not_In. unfold lineOf. intros Hk Hv Hin.
  apply in_app_or in Hin as [Hin|[Hin|Hin]]; auto. discriminate.
Qed.

Lemma plainField_setKey (k v : gostring) (fs : list Field) :
  Forall plainField fs -> Forall plainField (setKey k v fs).
Proof.
  unfold setKey. induction 1 as [|f fs Hf _ IH]; simpl; constructor; [|assumption].
  destruct (eqs k (keyOf f)); [|assumption].
  destruct Hf as (Hx & _ & Hs & Ho & Hu). repeat split; assumption.
Qed.

Lemma loop_plain_lines (gs : list Field) :
  Forall (fun g => plainKey (keyOf g) /\ plainValue (stringOf g) /\
                   fits (lineOf g) = true) gs ->
  forall c st, Forall plainField st ->
    unmarshalLoop (map lineOf gs) c (PointerTo (StructValue st)) =
      (PointerTo (StructValue (map (assigned gs) st)), Returns None).
Proof.
  induction 1 as [|g gs ((Hk & He & _ & Hh) & (Hv & _) & Hf) _ IH]; intros c st Hst.
  - simpl. now rewrite map_id.
  - cbn [map]. unfold lineOf at 1.
    rewrite loop_plain_line by assumption.
    rewrite assignTarget_struct, assignFields_strings; [|assumption|].
    + cbn [fst snd]. rewrite Hv. rewrite IH by now apply plainField_setKey.
      unfold setKey. rewrite map_map. reflexivity.
    + eapply Forall_impl; [|exact Hst].
      intros f (Hx & Hstr & Hs & Ho & Hu). rewrite Ho. auto.
Qed.

Lemma assigned_other (gs : list Field) (f : Field) :
  ~ In (keyOf f) (map keyOf gs) -> assigned gs f = f.
Proof.
  induction gs as [|g gs IH]; simpl; intros H; [reflexivity|].
  rewrite eqs_neq by (intros E; apply H; now left).
  apply IH. intros Hin. apply H. now right.
Qed.

Lemma assigned_app (gs hs : list Field) (f : Field) :
  assigned (gs ++ hs) f = assigned hs (assigned gs f).
Proof. revert f; induction gs as [|g gs IH]; intros f; simpl; [reflexivity|apply IH]. Qed.

(** With distinct keys, the lines written for a record give every field
    of the zero record the value it has in the record. *)
Lemma assigned_zero (fs : list Field) (f : Field) :
  NoDup (map keyOf fs) -> In f fs -> isString f = true ->
  assigned fs (mkField (fType f) (FStr [])) = f.
Proof.
  intros Hnd Hin Hstr. apply in_split in Hin as (pre & post & ->).
  rewrite map_app in Hnd. cbn [map] in Hnd.
  pose proof (NoDup_remove_2 _ _ _ Hnd) as Hni.
  rewrite assigned_app. rewrite (assigned_other pre).
  - cbn [assigned]. change (keyOf (mkField (fType f) (FStr []))) with (keyOf f).
    rewrite eqs_refl. rewrite assigned_other.
    + destruct f as [t [s|k]]; [reflexivity|discriminate].
    + intros H. apply Hni. apply in_or_app. now right.
  - intros H. apply Hni. apply in_or_app. now left.
Qed.

(** C1 (amended) -- Round trip.  For every record of plain string fields
    (exported, of kind string and of a type without [Format], [Error] or
    [String] method -- the type [string] itself is one --, not skipped,
    without omitempty) whose keys are distinct and are trimmed, without
    ['='], newline or leading ['#'], whose values are trimmed and without
    newline, and whose lines [KEY=value] are shorter than the scanner's
    limit of 65536 bytes: encoding succeeds, and decoding the encoding
    into the zero record of the same type yields the record. *)
Theorem Marshal_Unmarshal_roundtrip (fs : list Field) :
  Forall plainField fs ->
  Forall (fun f => plainKey (keyOf f) /\ plainValue (stringOf f) /\
                   fits (lineOf f) = true) fs ->
  NoDup (map keyOf fs) ->
  exists data,
    Marshal (StructValue fs) = (data, None) /\
    Unmarshal data (PointerTo (StructValue (zeroFields fs))) =
      (PointerTo (StructValue fs), Returns None).
Proof.
  intros Hp Hl Hnd. exists (unlines (map lineOf fs)). split.
  - unfold Marshal. now rewrite marshalFields_plain.
  - unfold Unmarshal. rewrite lines_unlines.
    + rewrite loop_plain_lines; [| assumption |].
      * do 3 f_equal. unfold zeroFields. rewrite map_map.
        rewrite <- (map_id fs) at 2. apply map_ext_in.
        intros f Hin. rewrite Forall_forall in Hp.
        destruct (Hp f Hin) as (_ & Hstr & _).
        unfold isString in Hstr. destruct (fValue f) eqn:Ev; [|discriminate].
        apply assigned_zero; try assumption. unfold isString. now rewrite Ev.
      * unfold zeroFields. rewrite Forall_forall in *.
        intros z Hz. apply in_map_iff in Hz as (f & <- & Hin).
        destruct (Hp f Hin) as (Hx & Hstr & Hs & Ho & Hu).
        unfold isString in Hstr. destruct (fValue f); [|discriminate].
        repeat split; assumption.
    + intros l Hin. apply in_map_iff in Hin as (f & <- & Hin).
      rewrite Forall_forall in Hl.
      destruct (Hl f Hin) as ((_ & _ & Hk & _) & (_ & Hv) & _).
      now apply lineOf_no_NL.
Qed.


(** ** Further properties of Marshal *)

Lemma unlines_app (a b : list gostring) : unlines (a ++ b) = unlines a ++ unlines b.
Proof. unfold unlines. now rewrite map_app, concat_app. Qed.

(** The loop over fields that [Marshal] passes writes their lines, in
    their order, behind the buffer, and goes on. *)
Lemma marshalFields_app (pre rest : list Field) (buf : bytes) :
  forallb encodable pre = true ->
  marshalFields (pre ++ rest) buf =
    marshalFields rest (buf ++ unlines (map writtenLine (filter emitted pre))).
Proof.
  revert buf. induction pre as [|f pre IH]; intros buf H.
  - simpl. now rewrite app_nil_r.
  - cbn [forallb] in H. apply andb_true_iff in H as [Hf Hpre].
    simpl app. rewrite marshalFields_cons. cbn [filter]. unfold emitted at 1.
    unfold encodable, isString in Hf.
    destruct (Skip (optsOf f)) eqn:Es; cbn [negb andb].
    + now apply IH.
    + cbn [orb] in Hf. unfold stringOf at 1.
      destruct (fValue f) as [s|k] eqn:Ev; [|discriminate].
      destruct (negb (OmitEmpty (optsOf f) && eqs s [])) eqn:Eo.
      * rewrite IH by assumption. f_equal.
        change (unlines (map writtenLine (f :: filter emitted pre)))
          with ((writtenLine f ++ [NL]) ++
                unlines (map writtenLine (filter emitted pre))).
        assert (Hl : writtenLine f = keyOf f ++ "="%char :: fmt.formatString (fType f) s)
          by (unfold writtenLine, stringOf; now rewrite Ev).
        rewrite Hl.
        change (str "=" ++ fmt.formatString (fType f) s ++ [NL])
          with ("="%char :: fmt.formatString (fType f) s ++ [NL]).
        repeat (rewrite <- app_assoc || rewrite <- app_comm_cons). reflexivity.
      * now apply IH.
Qed.

(** X1 -- What [Marshal] writes.  When every field that is not skipped
    is of kind string, encoding succeeds and the output is, in
    declaration order, one line [key=value] with its newline for every
    field that is not skipped and that is not an omitempty field with
    empty contents -- nothing else.  The value is what [%s] prints for
    the field: what the [Format], [Error] or [String] method of the
    field's type gives for the contents when the field is exported and
    its type has such a method, and the contents themselves in every
    other case (a field of type [string], an unexported field).  So
    when the types of the written fields have no such method, every
    line is the key, ['='] and the contents. *)
Theorem Marshal_output (fs : list Field) :
  forallb encodable fs = true ->
  Marshal (StructValue fs) = (unlines (map writtenLine (filter emitted fs)), None) /\
  (Forall unformatted (filter emitted fs) ->
   Marshal (StructValue fs) = (unlines (map lineOf (filter emitted fs)), None)).
Proof.
  intros H.
  assert (HM : Marshal (StructValue fs) =
                 (unlines (map writtenLine (filter emitted fs)), None)).
  { unfold Marshal. rewrite <- (app_nil_r fs) at 1.
    now rewrite marshalFields_app. }
  split; [exact HM|].
  intros Hu. rewrite HM. do 2 f_equal. apply map_ext_in.
  intros f Hin. apply writtenLine_unformatted.
  rewrite Forall_forall in Hu. now apply Hu.
Qed.

(** X2 -- Type rejection on encoding.  The first field that is neither
    skipped nor a string ends the encoding: [Marshal] returns the empty
    slice and [UnsupportedType] with the kind of that field, whatever
    follows it. *)
Theorem Marshal_first_unsupported (pre post : list Field) (f : Field) (k : reflect.Kind) :
  forallb encodable pre = true ->
  Skip (optsOf f) = false -> fValue f = FOther k ->
  Marshal (StructValue (pre ++ f :: post)) = ([], Some (ErrorUnsupportedType k)).
Proof.
  intros Hpre Hs Hv. unfold Marshal.
  rewrite marshalFields_app by assumption.
  now rewrite marshalFields_cons, Hs, Hv.
Qed.


(** ** Further properties of Unmarshal: one line *)

Lemma cut_eq (s : gostring) :
  In "="%char s -> strings.cut s "="%char = Some (beforeEq s, afterEq s).
Proof.
  induction s as [|c s IH]; intros H; [destruct H|].
  simpl. destruct (Ascii.eqb_spec c "="%char) as [->|Hne]; [reflexivity|].
  rewrite IH; [reflexivity|]. destruct H as [H|H]; [congruence|assumption].
Qed.

(** The four things the scan loop can do with a line. *)
Lemma line_cases (l : gostring) :
  fits l = false \/
  fits l = true /\ (isIgnored l = true \/ isMalformed l = true \/ isKeyValue l = true).
Proof.
  destruct (fits l); [right; split; [reflexivity|]|now left].
  unfold isMalformed, isKeyValue.
  destruct (isIgnored l); [now left|right].
  destruct (hasEq l); [now right|now left].
Qed.

(** The scan loop on a key/value line, with the key and the value named. *)
Lemma loop_key_value_line (l : gostring) :
  fits l = true -> isKeyValue l = true ->
  forall rest c v,
    unmarshalLoop (l :: rest) c v =
      match assignTarget (lineKey l) (lineValue l) v with
      | (v', None) => unmarshalLoop rest (c + 1) v'
      | (v', Some x) => (v', outcomeOf x)
      end.
Proof.
  intros Hf Hk rest c v. apply fits_spec in Hf.
  unfold isKeyValue in Hk. apply andb_true_iff in Hk as [Hi He].
  apply negb_true_iff in Hi. apply hasEq_In, TrimSpace_In_eq in He.
  rewrite loop_cons, Hf. cbv zeta. rewrite TrimSpace_dropCR.
  unfold isIgnored, isBlank, isComment in Hi. rewrite Hi.
  unfold lineKey, lineValue. cbn [strings.SplitN]. now rewrite cut_eq.
Qed.

Lemma assigns_matched (k v : gostring) (f : Field) :
  assigns k v f = true -> matched k f = true.
Proof. unfold assigns. intros H. now apply andb_true_iff in H. Qed.

(** The field loop in terms of [matched] and [assigns]. *)
Lemma assignFields_step (k v : gostring) (f : Field) (rest : list Field) :
  assignFields k v (f :: rest) =
    if matched k f then
      match fValue f with
      | FStr _ =>
          if assigns k v f then
            if reflect.Exported (fType f)
            then (mkField (fType f) (FStr (strings.TrimSpace v))
                    :: fst (assignFields k v rest), snd (assignFields k v rest))
            else (f :: rest, Some Panic)
          else (f :: fst (assignFields k v rest), snd (assignFields k v rest))
      | FOther kd => (f :: rest, Some (Return (ErrorUnsupportedType kd)))
      end
    else (f :: fst (assignFields k v rest), snd (assignFields k v rest)).
Proof.
  rewrite assignFields_cons. cbv zeta. unfold assigns, matched.
  destruct (Skip (optsOf f)); cbn [negb andb]; [reflexivity|].
  destruct (eqs (strings.TrimSpace k) (keyOf f)); cbn [andb]; reflexivity.
Qed.

(** While no field stops the line, the field loop assigns field by
    field and goes on. *)
Lemma assignFields_app (k v : gostring) (pre rest : list Field) :
  forallb (assignable k v) pre = true ->
  assignFields k v (pre ++ rest) =
    (assignAll k v pre ++ fst (assignFields k v rest), snd (assignFields k v rest)).
Proof.
  induction pre as [|f pre IH]; intros H.
  - simpl. now destruct (assignFields k v rest).
  - cbn [forallb] in H. apply andb_true_iff in H as [Hf Hpre].
    simpl app. rewrite assignFields_step, (IH Hpre). cbn [fst snd assignAll map].
    unfold assignable, isString in Hf.
    destruct (matched k f) eqn:Em.
    + cbn [implb] in Hf. destruct (fValue f); [|discriminate].
      destruct (assigns k v f); [|reflexivity].
      cbn [implb andb] in Hf. now rewrite Hf.
    + assert (assigns k v f = false) as ->; [|reflexivity].
      unfold assigns. now rewrite Em.
Qed.

Lemma assignFields_assignable (k v : gostring) (fs : list Field) :
  forallb (assignable k v) fs = true ->
  assignFields k v fs = (assignAll k v fs, None).
Proof.
  intros H. rewrite <- (app_nil_r fs) at 1.
  rewrite assignFields_app by assumption. cbn. now rewrite app_nil_r.
Qed.

(** A field loop that comes to its end has met no field that stops it. *)
Lemma assignFields_finished (k v : gostring) (fs : list Field) :
  snd (assignFields k v fs) = None -> forallb (assignable k v) fs = true.
Proof.
  induction fs as [|f fs IH]; [reflexivity|].
  rewrite assignFields_step. cbn [forallb]. unfold assignable, isString.
  destruct (matched k f); cbn [implb].
  - destruct (fValue f); [|discriminate].
    destruct (assigns k v f); cbn [implb andb].
    + destruct (reflect.Exported (fType f)); [|discriminate]. exact IH.
    + exact IH.
  - exact IH.
Qed.

Lemma zeroFields_map (fs : list Field) : zeroFields fs = map zeroField fs.
Proof. reflexivity. Qed.

Lemma zeroField_inv (f g : Field) :
  zeroField f = zeroField g ->
  fType f = fType g /\
  match fValue f, fValue g with
  | FStr _, FStr _ => True
  | FOther k, FOther k' => k = k'
  | _, _ => False
  end.
Proof.
  unfold zeroField. intros H.
  destruct (fValue f), (fValue g); inversion H; auto.
Qed.

(** What stops the field loop is decided by the record type alone. *)
Lemma assignable_type (k v : gostring) (f g : Field) :
  zeroField f = zeroField g -> assignable k v f = assignable k v g.
Proof.
  intros H. apply zeroField_inv in H as [Ht Hv].
  unfold assignable, assigns, matched, isString, keyOf, optsOf. rewrite Ht.
  destruct (fValue f), (fValue g); (reflexivity || contradiction).
Qed.

Lemma fixedField_type (f g : Field) :
  zeroField f = zeroField g -> fixedField f = fixedField g.
Proof.
  intros H. apply zeroField_inv in H as [Ht Hv].
  unfold fixedField, isString, optsOf. rewrite Ht.
  destruct (fValue f), (fValue g); (reflexivity || contradiction).
Qed.

Lemma zeroFields_cons_inv (f : Field) (fs gs : list Field) :
  zeroFields (f :: fs) = zeroFields gs ->
  exists g gs', gs = g :: gs' /\ zeroField f = zeroField g /\
                zeroFields fs = zeroFields gs'.
Proof.
  destruct gs as [|g gs']; [discriminate|]. rewrite !zeroFields_map. cbn [map].
  intros H. exists g, gs'. split; [reflexivity|].
  rewrite !zeroFields_map. split.
  - exact (f_equal (hd f) H).
  - exact (f_equal (@tl Field) H).
Qed.

Lemma assignFields_exit_type (k v : gostring) (fs gs : list Field) :
  zeroFields fs = zeroFields gs ->
  snd (assignFields k v fs) = snd (assignFields k v gs).
Proof.
  revert gs. induction fs as [|f fs IH]; intros gs H.
  - destruct gs; [reflexivity|discriminate].
  - apply zeroFields_cons_inv in H as (g & gs' & -> & Hz & Hs).
    rewrite !assignFields_step. specialize (IH gs' Hs).
    apply zeroField_inv in Hz as [Ht Hv].
    unfold assigns, matched, keyOf, optsOf. rewrite Ht.
    destruct (negb _ && eqs _ _); cbn [andb]; [|exact IH].
    destruct (fValue f), (fValue g); try contradiction.
    + destruct (negb _); [|exact IH].
      destruct (reflect.Exported (fType g)); [exact IH|reflexivity].
    + now subst.
Qed.

(** The field loop keeps the type of every field, and the fields that
    cannot be assigned as they are. *)
Lemma assignFields_keeps (k v : gostring) (fs : list Field) :
  Forall2 (fun f f' => zeroField f' = zeroField f /\ (fixedField f = true -> f' = f))
          fs (fst (assignFields k v fs)).
Proof.
  induction fs as [|f fs IH]; [constructor|].
  assert (Hrefl : forall rest, Forall2 (fun f f' => zeroField f' = zeroField f /\
            (fixedField f = true -> f' = f)) rest rest).
  { induction rest; constructor; auto. }
  rewrite assignFields_step.
  destruct (matched k f) eqn:Em; [|constructor; auto].
  destruct (fValue f) as [s|kd] eqn:Ev; [|apply Hrefl].
  destruct (assigns k v f); [|constructor; auto].
  destruct (reflect.Exported (fType f)) eqn:Ex; [|apply Hrefl].
  constructor; [|exact IH]. cbn [fst]. split.
  - unfold zeroField. cbn. now rewrite Ev.
  - unfold fixedField, isString. rewrite Ev, Ex. cbn [negb orb].
    unfold matched in Em. destruct (Skip (optsOf f)); discriminate.
Qed.

Lemma keeps_type (fs fs' : list Field) :
  Forall2 (fun f f' => zeroField f' = zeroField f /\ (fixedField f = true -> f' = f))
          fs fs' ->
  zeroFields fs' = zeroFields fs.
Proof.
  rewrite !zeroFields_map.
  induction 1 as [|f f' fs fs' (Hz & _) _ IH]; [reflexivity|].
  cbn [map]. now rewrite Hz, IH.
Qed.

Lemma keeps_trans (fs gs hs : list Field) :
  Forall2 (fun f f' => zeroField f' = zeroField f /\ (fixedField f = true -> f' = f))
          fs gs ->
  Forall2 (fun f f' => zeroField f' = zeroField f /\ (fixedField f = true -> f' = f))
          gs hs ->
  Forall2 (fun f f' => zeroField f' = zeroField f /\ (fixedField f = true -> f' = f))
          fs hs.
Proof.
  intros H. revert hs. induction H as [|f g fs gs (Hz & Hx) _ IH]; intros hs H2.
  - inversion H2. constructor.
  - inversion H2 as [|g' h gs' hs' (Hz' & Hx') Hrest]; subst.
    constructor; [|now apply IH]. split; [congruence|].
    intros Hfix. rewrite Hx' by (rewrite (fixedField_type g f); auto). auto.
Qed.

Lemma keeps_refl (fs : list Field) :
  Forall2 (fun f f' => zeroField f' = zeroField f /\ (fixedField f = true -> f' = f))
          fs fs.
Proof. induction fs; constructor; auto. Qed.


(** ** Further properties of Unmarshal: the scan loop *)

Lemma assignFields_exit_kind (k v : gostring) (fs : list Field) (x : exit) :
  snd (assignFields k v fs) = Some x ->
  x = Panic \/ exists kd, x = Return (ErrorUnsupportedType kd).
Proof.
  induction fs as [|f fs IH]; [discriminate|].
  rewrite assignFields_step.
  destruct (matched k f); [|exact IH].
  destruct (fValue f) as [s|kd].
  - destruct (assigns k v f); [|exact IH].
    destruct (reflect.Exported (fType f)); [exact IH|].
    intros H; inversion H. now left.
  - intros H; inversion H. right. now exists kd.
Qed.

Lemma assignTarget_exit_kind (k val : gostring) (v v' : Value) (x : exit) :
  assignTarget k val v = (v', Some x) ->
  x = Panic \/ exists kd, x = Return (ErrorUnsupportedType kd).
Proof.
  destruct v as [|fs| |elem|kd]; simpl;
    try (intros H; inversion H; right; eexists; reflexivity).
  destruct elem as [|fs| |elem|kd];
    try (intros H; inversion H; now left).
  destruct (assignFields k val fs) as [fs' o] eqn:E.
  intros H; inversion H; subst.
  apply (assignFields_exit_kind k val fs). now rewrite E.
Qed.

Lemma loop_keeps (ls : list gostring) :
  forall c fs,
  exists fs',
    fst (unmarshalLoop ls c (PointerTo (StructValue fs))) = PointerTo (StructValue fs') /\
    Forall2 (fun f f' => zeroField f' = zeroField f /\ (fixedField f = true -> f' = f))
            fs fs'.
Proof.
  induction ls as [|l ls IH]; intros c fs.
  - exists fs. split; [reflexivity|apply keeps_refl].
  - destruct (line_cases l) as [Hf|[Hf [Hi|[Hm|Hk]]]].
    + rewrite loop_too_long by assumption. exists fs. split; [reflexivity|apply keeps_refl].
    + rewrite loop_ignored by assumption. apply IH.
    + rewrite loop_malformed by assumption. exists fs. split; [reflexivity|apply keeps_refl].
    + rewrite loop_key_value_line, assignTarget_struct by assumption.
      pose proof (assignFields_keeps (lineKey l) (lineValue l) fs) as Hkeep.
      destruct (snd (assignFields (lineKey l) (lineValue l) fs)) as [x|].
      * eexists. split; [reflexivity|exact Hkeep].
      * destruct (IH (c + 1) (fst (assignFields (lineKey l) (lineValue l) fs)))
          as (fs' & Hr & Hk').
        exists fs'. split; [exact Hr|]. eapply keeps_trans; eassumption.
Qed.

(** X3 -- What decoding keeps.  Whatever the input and however the call
    ends (no error, an error, a panic), the record behind the pointer
    keeps its fields, each with its type, and every field that is
    skipped, that is no string or that is not exported keeps its
    contents: only exported string fields that are not skipped are ever
    written. *)
Theorem Unmarshal_keeps_record (data : bytes) (fs : list Field) :
  exists fs',
    fst (Unmarshal data (PointerTo (StructValue fs))) = PointerTo (StructValue fs') /\
    Forall2 (fun f f' => zeroField f' = zeroField f /\ (fixedField f = true -> f' = f))
            fs fs'.
Proof. apply loop_keeps. Qed.

Lemma isMalformed_ignored (l : gostring) : isIgnored l = true -> isMalformed l = false.
Proof. unfold isMalformed. now intros ->. Qed.

Lemma isMalformed_key_value (l : gostring) : isKeyValue l = true -> isMalformed l = false.
Proof.
  unfold isMalformed, isKeyValue. intros H. apply andb_true_iff in H as [-> ->].
  reflexivity.
Qed.

Lemma loop_line_parsing (ls : list gostring) :
  forall c v v' n,
  unmarshalLoop ls c v = (v', Returns (Some (ErrorLineParsing n))) ->
  exists pre bad post,
    ls = pre ++ bad :: post /\ n = c + Z.of_nat (length pre) + 1 /\
    fits bad = true /\ isMalformed bad = true /\
    Forall (fun l => fits l = true /\ isMalformed l = false) pre.
Proof.
  induction ls as [|l ls IH]; intros c v v' n H; [discriminate|].
  assert (Hnext : forall v1,
    isMalformed l = false -> fits l = true ->
    unmarshalLoop ls (c + 1) v1 = (v', Returns (Some (ErrorLineParsing n))) ->
    exists pre bad post,
      l :: ls = pre ++ bad :: post /\ n = c + Z.of_nat (length pre) + 1 /\
      fits bad = true /\ isMalformed bad = true /\
      Forall (fun l => fits l = true /\ isMalformed l = false) pre).
  { intros v1 Hm Hf H1.
    destruct (IH _ _ _ _ H1) as (pre & bad & post & -> & -> & Hfb & Hmb & Hpre).
    exists (l :: pre), bad, post. repeat split; auto.
    rewrite length_cons. lia. }
  destruct (line_cases l) as [Hf|[Hf [Hi|[Hm|Hk]]]].
  - rewrite loop_too_long in H by assumption. discriminate.
  - rewrite loop_ignored in H by assumption.
    eapply Hnext; eauto using isMalformed_ignored.
  - rewrite loop_malformed in H by assumption. inversion H; subst.
    exists [], l, ls. repeat split; auto. simpl. lia.
  - rewrite loop_key_value_line in H by assumption.
    destruct (assignTarget (lineKey l) (lineValue l) v) as [v1 [x|]] eqn:E.
    + apply assignTarget_exit_kind in E as [->|(kd & ->)]; discriminate.
    + eapply Hnext; eauto using isMalformed_key_value.
Qed.

(** X4 -- The reported line number.  When decoding ends with
    [LineParsing], the number it carries is the 1-based number of a line
    of the input: that line is neither blank nor comment and has no
    ['='], and it is the first such line; the lines before it all fit the
    scanner. *)
Theorem Unmarshal_line_number (data : bytes) (v v' : Value) (n : Z) :
  Unmarshal data v = (v', Returns (Some (ErrorLineParsing n))) ->
  exists pre bad post,
    bufio.lines data = pre ++ bad :: post /\ n = Z.of_nat (length pre) + 1 /\
    fits bad = true /\ isMalformed bad = true /\
    Forall (fun l => fits l = true /\ isMalformed l = false) pre.
Proof. intros H. apply loop_line_parsing in H. exact H. Qed.

Lemma fitting_split (ls : list gostring) :
  forallb fits ls = false ->
  exists long post, ls = fitting ls ++ long :: post /\ fits long = false.
Proof.
  induction ls as [|l ls IH]; [discriminate|].
  cbn [forallb fitting]. destruct (fits l) eqn:Ef; cbn [andb].
  - intros H. destruct (IH H) as (long & post & Hl & Hf).
    exists long, post. split; [simpl; congruence|assumption].
  - intros _. exists l, ls. auto.
Qed.

Lemma fitting_incl (ls : list gostring) (l : gostring) :
  In l (fitting ls) -> In l ls.
Proof.
  induction ls as [|x ls IH]; [intros []|].
  cbn [fitting]. destruct (fits x); [|intros []].
  intros [<-|H]; [now left|right; auto].
Qed.

(** X5 -- A line too long for the scanner.  When some line of the input
    has 65536 bytes or more and the lines before the first such line
    decode without error, decoding returns [bufio.ErrTooLong]; the
    assignments of the lines before it stay in the record, and no line
    behind it is read. *)
Theorem Unmarshal_too_long (data : bytes) (v v' : Value) :
  forallb fits (bufio.lines data) = false ->
  Unmarshal (unlines (fitting (bufio.lines data))) v = (v', Returns None) ->
  Unmarshal data v = (v', Returns (Some ErrTooLong)).
Proof.
  intros Hf Hpre. unfold Unmarshal in *.
  rewrite lines_unlines in Hpre
    by (intros l Hin; apply (lines_no_NL data); now apply fitting_incl).
  destruct (fitting_split _ Hf) as (long & post & Hl & Hlong).
  rewrite Hl at 1. rewrite (loop_prefix _ _ _ _ _ Hpre).
  now apply loop_too_long.
Qed.

Lemma decodable_assignable (k v : gostring) (f : Field) :
  decodable f = true -> assignable k v f = true.
Proof.
  unfold decodable, assignable, assigns, matched.
  destruct (Skip (optsOf f)); cbn [negb andb orb implb]; [reflexivity|].
  intros H. apply andb_true_iff in H as [-> ->].
  now rewrite implb_true_r, implb_true_r.
Qed.

Lemma decodable_assignAll (k v : gostring) (fs : list Field) :
  forallb decodable fs = true -> forallb decodable (assignAll k v fs) = true.
Proof.
  induction fs as [|f fs IH]; [reflexivity|].
  cbn [forallb assignAll map]. intros H. apply andb_true_iff in H as [Hf Hfs].
  apply andb_true_iff. split; [|now apply IH].
  destruct (assigns k v f); [|assumption].
  unfold decodable, isString, optsOf in *. cbn [fType fValue].
  destruct (Skip _); [reflexivity|]. cbn [orb] in *.
  apply andb_true_iff in Hf as [_ ->]. reflexivity.
Qed.

Lemma loop_decodable (ls : list gostring) :
  forall c fs,
  forallb decodable fs = true ->
  (snd (unmarshalLoop ls c (PointerTo (StructValue fs))) = Returns None <->
     forallb (fun l => fits l && negb (isMalformed l)) ls = true) /\
  snd (unmarshalLoop ls c (PointerTo (StructValue fs))) <> Panics /\
  forall kd, snd (unmarshalLoop ls c (PointerTo (StructValue fs))) <>
             Returns (Some (ErrorUnsupportedType kd)).
Proof.
  induction ls as [|l ls IH]; intros c fs Hd.
  - simpl. repeat split; discriminate.
  - cbn [forallb].
    destruct (line_cases l) as [Hf|[Hf [Hi|[Hm|Hk]]]].
    + rewrite loop_too_long, Hf by assumption. cbn.
      repeat split; discriminate.
    + rewrite loop_ignored, Hf, (isMalformed_ignored l Hi) by assumption.
      cbn [negb andb]. now apply IH.
    + rewrite loop_malformed, Hf, Hm by assumption. cbn.
      repeat split; discriminate.
    + rewrite loop_key_value_line, assignTarget_struct by assumption.
      rewrite assignFields_assignable.
      * cbn [fst snd]. rewrite Hf, (isMalformed_key_value l Hk). cbn [negb andb].
        apply IH. now apply decodable_assignAll.
      * apply forallb_forall. intros f Hin. apply decodable_assignable.
        rewrite forallb_forall in Hd. now apply Hd.
Qed.

(** X6 -- A record that decoding cannot trip over.  When every field of
    the target record is skipped or is an exported string, decoding never
    panics and never returns [UnsupportedType]; it returns no error
    exactly when every line of the input fits the scanner and none is
    malformed (not blank, not a comment, and without ['=']).  Keys that
    no field resolves to, an empty input, and lines given twice are no
    errors. *)
Theorem Unmarshal_decodable_record (data : bytes) (fs : list Field) :
  forallb decodable fs = true ->
  (snd (Unmarshal data (PointerTo (StructValue fs))) = Returns None <->
     forallb (fun l => fits l && negb (isMalformed l)) (bufio.lines data) = true) /\
  snd (Unmarshal data (PointerTo (StructValue fs))) <> Panics /\
  forall kd, snd (Unmarshal data (PointerTo (StructValue fs))) <>
             Returns (Some (ErrorUnsupportedType kd)).
Proof. intros H. now apply loop_decodable. Qed.


(** ** Further properties of Unmarshal: line ends *)

Lemma dropCR_snoc (l : gostring) : bufio.dropCR (l ++ [CR]) = l.
Proof.
  induction l as [|c l IH]; [reflexivity|].
  simpl app. destruct (l ++ [CR]) as [|d r] eqn:E.
  - destruct l; discriminate.
  - change (bufio.dropCR (c :: d :: r)) with (c :: bufio.dropCR (d :: r)).
    now rewrite IH.
Qed.

Lemma fits_snoc (l : gostring) (c : ascii) : fits (l ++ [c]) = true -> fits l = true.
Proof.
  unfold fits, len. rewrite !Z.ltb_lt, length_app. simpl. lia.
Qed.

Lemma unlinesCRLF_unlines (ls : list gostring) :
  unlinesCRLF ls = unlines (map (fun l => l ++ [CR]) ls).
Proof.
  unfold unlinesCRLF, unlines. rewrite map_map. f_equal.
  apply map_ext. intros l. now rewrite <- app_assoc.
Qed.

Lemma loop_CR (ls : list gostring) :
  Forall (fun l => fits (l ++ [CR]) = true) ls ->
  forall c v,
    unmarshalLoop (map (fun l => l ++ [CR]) ls) c v = unmarshalLoop ls c v.
Proof.
  induction 1 as [|l ls Hf _ IH]; intros c v; [reflexivity|].
  cbn [map]. rewrite !loop_cons. cbv zeta.
  pose proof (fits_snoc _ _ Hf) as Hf'. apply fits_spec in Hf, Hf'.
  rewrite Hf, Hf', dropCR_snoc, TrimSpace_dropCR.
  destruct (eqs _ [] || _); [apply IH|].
  destruct (strings.SplitN _ _ 2) as [|k [|val [|]]]; try reflexivity.
  destruct (assignTarget k val v) as [v1 [x|]]; [reflexivity|apply IH].
Qed.

(** X7 -- Carriage returns.  A document whose lines end in carriage
    return and newline decodes, for every target, to the same record with
    the same outcome as the document with plain newlines, as long as
    every line still fits the scanner with its carriage return. *)
Theorem Unmarshal_CRLF (ls : list gostring) (v : Value) :
  forallb (fun l => negb (hasNL l) && fits (l ++ [CR])) ls = true ->
  Unmarshal (unlinesCRLF ls) v = Unmarshal (unlines ls) v.
Proof.
  intros H. rewrite forallb_forall in H.
  assert (Hnl : forall l, In l ls -> ~ In NL l).
  { intros l Hin. apply H in Hin. apply andb_true_iff in Hin as [Hn _].
    apply negb_true_iff in Hn. now apply hasNL_not_In. }
  unfold Unmarshal. rewrite unlinesCRLF_unlines, !lines_unlines; [| assumption |].
  - apply loop_CR. apply Forall_forall. intros l Hin. apply H in Hin.
    now apply andb_true_iff in Hin as [_ Hf].
  - intros l' Hin. apply in_map_iff in Hin as (l & <- & Hin).
    intros Hc. apply in_app_or in Hc as [Hc|[Hc|[]]]; [|discriminate].
    now apply (Hnl l).
Qed.

Lemma lines_snoc_NL (data : bytes) :
  bufio.lines (data ++ [NL]) = bufio.lines data \/
  bufio.lines (data ++ [NL]) = bufio.lines data ++ [[]].
Proof.
  induction data as [|c data IH]; [now right|].
  simpl app. cbn [bufio.lines].
  destruct (Ascii.eqb c NL).
  - destruct IH as [-> | ->]; [now left|now right].
  - destruct IH as [-> | ->]; [now left|].
    destruct (bufio.lines data) as [|l ls]; [left|right]; reflexivity.
Qed.

Lemma loop_snoc_blank (ls : list gostring) :
  forall c v, unmarshalLoop (ls ++ [[]]) c v = unmarshalLoop ls c v.
Proof.
  induction ls as [|l ls IH]; intros c v; [reflexivity|].
  simpl app. rewrite !loop_cons. cbv zeta.
  destruct (bufio.MaxScanTokenSize <=? len l); [reflexivity|].
  destruct (eqs _ [] || _); [apply IH|].
  destruct (strings.SplitN _ _ 2) as [|k [|val [|]]]; try reflexivity.
  destruct (assignTarget k val v) as [v1 [x|]]; [reflexivity|apply IH].
Qed.

(** X8 -- The final newline.  For every input and every target, one more
    newline at the end of the input changes nothing: a last line decodes
    the same with and without its newline, and a blank line at the end is
    passed over. *)
Theorem Unmarshal_final_newline (data : bytes) (v : Value) :
  Unmarshal (data ++ [NL]) v = Unmarshal data v.
Proof.
  unfold Unmarshal. destruct (lines_snoc_NL data) as [-> | ->];
    [reflexivity|apply loop_snoc_blank].
Qed.

(** ** Further properties of Unmarshal: what a line assigns *)

(** X9 -- What one more key/value line does.  When an input decodes
    into a record without error and a key/value line is put behind it
    that is shorter than the scanner's limit of 65536 bytes and at whose
    key no field stops (the fields that are not skipped and resolve to
    the key are strings, and exported when they are assigned), the longer
    input decodes without error, and its result is the result of the
    shorter one with the trimmed value in every field that is not skipped
    and resolves to the trimmed key -- all of them when there are
    several, none when there is none -- except that an empty value leaves
    omitempty fields as they are. *)
Theorem Unmarshal_append_line (data data' : bytes) (l : gostring) (v : Value)
    (fs : list Field) :
  Unmarshal data v = (PointerTo (StructValue fs), Returns None) ->
  bufio.lines data' = bufio.lines data ++ [l] ->
  fits l = true -> isKeyValue l = true ->
  forallb (assignable (lineKey l) (lineValue l)) fs = true ->
  Unmarshal data' v =
    (PointerTo (StructValue (assignAll (lineKey l) (lineValue l) fs)), Returns None).
Proof.
  intros H Hl Hf Hk Ha. unfold Unmarshal in *.
  rewrite Hl, (loop_prefix _ _ _ _ _ H).
  rewrite loop_key_value_line, assignTarget_struct by assumption.
  now rewrite assignFields_assignable.
Qed.

(** X10 -- Type rejection on decoding.  Behind an input that decodes
    into a record without error, a key/value line shorter than the
    scanner's limit of 65536 bytes ends the decoding with
    [UnsupportedType] at the first field at which it stops, when that
    field is no string: the field is not skipped, resolves to the key of
    the line and is of another kind, and no field declared before it
    stops the line (those that are not skipped and resolve to the key are
    strings, and exported when the line assigns them).  The error carries
    that field's kind, also when the field has omitempty and the value is
    empty.  The fields declared before it have been assigned by the
    line, the fields behind it have not, and no further line is read. *)
Theorem Unmarshal_unsupported_field (data data' : bytes) (l : gostring)
    (rest : list gostring) (v : Value) (pre post : list Field) (f : Field)
    (kd : reflect.Kind) :
  Unmarshal data v = (PointerTo (StructValue (pre ++ f :: post)), Returns None) ->
  bufio.lines data' = bufio.lines data ++ l :: rest ->
  fits l = true -> isKeyValue l = true ->
  forallb (assignable (lineKey l) (lineValue l)) pre = true ->
  matched (lineKey l) f = true -> fValue f = FOther kd ->
  Unmarshal data' v =
    (PointerTo (StructValue (assignAll (lineKey l) (lineValue l) pre ++ f :: post)),
     Returns (Some (ErrorUnsupportedType kd))).
Proof.
  intros H Hl Hf Hk Ha Hm Hv. unfold Unmarshal in *.
  rewrite Hl, (loop_prefix _ _ _ _ _ H).
  rewrite loop_key_value_line, assignTarget_struct by assumption.
  rewrite assignFields_app by assumption.
  now rewrite assignFields_step, Hm, Hv.
Qed.

(** X11 -- Unexported fields.  Behind an input that decodes into a
    record without error, a key/value line shorter than the scanner's
    limit of 65536 bytes makes the call panic at the first field at which
    it stops, when that field is a string field that is not exported and
    that the line assigns (reflection cannot set the field): the field is
    not skipped, resolves to the key of the line and is not an omitempty
    field while the value is empty, and no field declared before it stops
    the line (those that are not skipped and resolve to the key are
    strings, and exported when the line assigns them).  The fields
    declared before it have been assigned by the line, the fields behind
    it have not. *)
Theorem Unmarshal_unexported_field (data data' : bytes) (l : gostring)
    (rest : list gostring) (v : Value) (pre post : list Field) (f : Field) :
  Unmarshal data v = (PointerTo (StructValue (pre ++ f :: post)), Returns None) ->
  bufio.lines data' = bufio.lines data ++ l :: rest ->
  fits l = true -> isKeyValue l = true ->
  forallb (assignable (lineKey l) (lineValue l)) pre = true ->
  assigns (lineKey l) (lineValue l) f = true -> isString f = true ->
  reflect.Exported (fType f) = false ->
  Unmarshal data' v =
    (PointerTo (StructValue (assignAll (lineKey l) (lineValue l) pre ++ f :: post)),
     Panics).
Proof.
  intros H Hl Hf Hk Ha Hm Hs Hx. unfold Unmarshal in *.
  rewrite Hl, (loop_prefix _ _ _ _ _ H).
  rewrite loop_key_value_line, assignTarget_struct by assumption.
  rewrite assignFields_app by assumption.
  rewrite assignFields_step, (assigns_matched _ _ _ Hm), Hm, Hx.
  unfold isString in Hs. now destruct (fValue f).
Qed.


(** ** Further properties of Unmarshal: the whole input *)

Lemma forallb_type (p : Field -> bool) (st fs : list Field) :
  (forall f g, zeroField f = zeroField g -> p f = p g) ->
  zeroFields st = zeroFields fs -> forallb p st = forallb p fs.
Proof.
  intros Hp. revert fs. induction st as [|f st IH]; intros fs H.
  - destruct fs; [reflexivity|discriminate].
  - apply zeroFields_cons_inv in H as (g & gs & -> & Hz & Hs).
    cbn [forallb]. now rewrite (Hp f g Hz), (IH gs Hs).
Qed.

Lemma matched_type (k : gostring) (f g : Field) :
  zeroField f = zeroField g -> matched k f = matched k g.
Proof.
  intros H. apply zeroField_inv in H as [Ht _].
  unfold matched, keyOf, optsOf. now rewrite Ht.
Qed.

Lemma passes_type (st fs : list Field) (l : gostring) :
  zeroFields st = zeroFields fs -> passes st l = passes fs l.
Proof.
  intros H. unfold passes. f_equal. f_equal.
  apply forallb_type; [|assumption]. intros f g. apply assignable_type.
Qed.

Lemma assignAll_type (k v : gostring) (fs : list Field) :
  forallb (assignable k v) fs = true -> zeroFields (assignAll k v fs) = zeroFields fs.
Proof.
  intros H. pose proof (assignFields_keeps k v fs) as Hk.
  rewrite assignFields_assignable in Hk by assumption.
  now apply keeps_type in Hk.
Qed.

Lemma isKeyValue_ignored (l : gostring) : isIgnored l = true -> isKeyValue l = false.
Proof. unfold isKeyValue. now intros ->. Qed.

(** Lines that all pass are decoded without error, one assignment after
    the other. *)
Lemma loop_passes (fs : list Field) (ls : list gostring) :
  forall c st,
  zeroFields st = zeroFields fs ->
  forallb (passes fs) ls = true ->
  unmarshalLoop ls c (PointerTo (StructValue st)) =
    (PointerTo (StructValue (assignLines (filter isKeyValue ls) st)), Returns None).
Proof.
  induction ls as [|l ls IH]; intros c st Ht H; [reflexivity|].
  cbn [forallb] in H. apply andb_true_iff in H as [Hl Hls].
  rewrite <- (passes_type st fs l Ht) in Hl. unfold passes in Hl.
  apply andb_true_iff in Hl as [Hl Ha]. apply andb_true_iff in Hl as [Hf Hm].
  apply negb_true_iff in Hm. cbn [filter].
  destruct (line_cases l) as [Hf'|[_ [Hi|[Hm'|Hk]]]]; try congruence.
  - rewrite loop_ignored, (isKeyValue_ignored l Hi) by assumption. now apply IH.
  - rewrite Hk in *. cbn [implb] in Ha.
    rewrite loop_key_value_line, assignTarget_struct by assumption.
    rewrite assignFields_assignable by assumption. cbn [fst snd].
    rewrite IH; [reflexivity| |assumption].
    now rewrite assignAll_type.
Qed.

(** A decoding without error has met only lines that pass. *)
Lemma loop_passed (fs : list Field) (ls : list gostring) :
  forall c st v',
  zeroFields st = zeroFields fs ->
  unmarshalLoop ls c (PointerTo (StructValue st)) = (v', Returns None) ->
  forallb (passes fs) ls = true.
Proof.
  induction ls as [|l ls IH]; intros c st v' Ht H; [reflexivity|].
  cbn [forallb]. rewrite <- (passes_type st fs l Ht). unfold passes.
  destruct (line_cases l) as [Hf|[Hf [Hi|[Hm|Hk]]]].
  - rewrite loop_too_long in H by assumption. discriminate.
  - rewrite loop_ignored in H by assumption.
    rewrite Hf, (isMalformed_ignored l Hi), (isKeyValue_ignored l Hi).
    cbn. eauto.
  - rewrite loop_malformed in H by assumption. discriminate.
  - rewrite loop_key_value_line, assignTarget_struct in H by assumption.
    rewrite Hf, (isMalformed_key_value l Hk), Hk. cbn [negb andb implb].
    destruct (snd (assignFields (lineKey l) (lineValue l) st)) as [x|] eqn:E.
    + inversion H as [[Hv Ho]]. now apply outcomeOf_not_nil in Ho.
    + pose proof (assignFields_finished _ _ _ E) as Ha. rewrite Ha. cbn [andb].
      eapply IH; [|exact H].
      pose proof (assignFields_keeps (lineKey l) (lineValue l) st) as Hk'.
      apply keeps_type in Hk'. congruence.
Qed.

(** X12 -- Decoding without error, as a whole.  Decoding into a record
    returns no error exactly when every line of the input fits the
    scanner, none is malformed, and no key/value line meets a field that
    stops it; the record is then the one that the key/value lines make,
    each assigning its trimmed value to the fields its key resolves to,
    in the order of the input.  Blank lines, comments and the line
    numbers play no part in the result. *)
Theorem Unmarshal_success (data : bytes) (fs : list Field) (v' : Value) :
  Unmarshal data (PointerTo (StructValue fs)) = (v', Returns None) <->
  forallb (passes fs) (bufio.lines data) = true /\
  v' = PointerTo (StructValue (assignLines (filter isKeyValue (bufio.lines data)) fs)).
Proof.
  unfold Unmarshal. split.
  - intros H. assert (Hp := loop_passed fs _ _ _ _ eq_refl H). split; [exact Hp|].
    rewrite (loop_passes fs) in H by auto. now inversion H.
  - intros [Hp ->]. now apply (loop_passes fs).
Qed.

Lemma assigns_fType (k v : gostring) (f g : Field) :
  fType f = fType g -> assigns k v f = assigns k v g.
Proof. intros H. unfold assigns, matched, keyOf, optsOf. now rewrite H. Qed.

Lemma assignedBy_fType (ls : list gostring) (f : Field) :
  fType (assignedBy ls f) = fType f.
Proof.
  unfold assignedBy. revert f. induction ls as [|l ls IH]; intros f; [reflexivity|].
  cbn [fold_left]. rewrite IH. now destruct (assigns _ _ f).
Qed.

Lemma assignedBy_snoc (ls : list gostring) (l : gostring) (f : Field) :
  assignedBy (ls ++ [l]) f =
    if assigns (lineKey l) (lineValue l) f
    then mkField (fType f) (FStr (strings.TrimSpace (lineValue l)))
    else assignedBy ls f.
Proof.
  unfold assignedBy. rewrite fold_left_app. cbn [fold_left].
  fold (assignedBy ls f).
  rewrite (assigns_fType _ _ (assignedBy ls f) f) by apply assignedBy_fType.
  now rewrite assignedBy_fType.
Qed.

Lemma assignedBy_idempotent (ls : list gostring) (f : Field) :
  assignedBy ls (assignedBy ls f) = assignedBy ls f.
Proof.
  induction ls as [|l ls IH] using rev_ind; [reflexivity|].
  rewrite !assignedBy_snoc.
  destruct (assigns (lineKey l) (lineValue l) f) eqn:Ea.
  - change (assigns (lineKey l) (lineValue l)
              (mkField (fType f) (FStr (strings.TrimSpace (lineValue l)))))
      with (assigns (lineKey l) (lineValue l) f).
    now rewrite Ea.
  - rewrite (assigns_fType _ _ (assignedBy ls f) f) by apply assignedBy_fType.
    now rewrite Ea.
Qed.

Lemma assignLines_map (ls : list gostring) (fs : list Field) :
  assignLines ls fs = map (assignedBy ls) fs.
Proof.
  unfold assignLines, assignedBy. revert fs.
  induction ls as [|l ls IH]; intros fs.
  - simpl. now rewrite map_id.
  - cbn [fold_left]. rewrite IH. unfold assignAll. now rewrite map_map.
Qed.

Lemma loop_untouched (ls : list gostring) (v : Value) :
  (forall fs, v <> PointerTo (StructValue fs)) ->
  forall c, fst (unmarshalLoop ls c v) = v.
Proof.
  intros Hv. induction ls as [|l ls IH]; intros c; [reflexivity|].
  destruct (line_cases l) as [Hf|[Hf [Hi|[Hm|Hk]]]].
  - now rewrite loop_too_long.
  - rewrite loop_ignored by assumption. apply IH.
  - now rewrite loop_malformed.
  - rewrite loop_key_value_line by assumption.
    destruct v as [|fs| |elem|kd]; try reflexivity.
    destruct elem as [|fs| |elem|kd]; try reflexivity.
    now destruct (Hv fs).
Qed.

(** X13 -- Decoding twice.  When an input decodes without error, decoding
    the same input once more into the result returns no error and leaves
    the result as it is, for every target. *)
Theorem Unmarshal_idempotent (data : bytes) (v v' : Value) :
  Unmarshal data v = (v', Returns None) ->
  Unmarshal data v' = (v', Returns None).
Proof.
  intros H.
  assert (Hcases : (exists fs, v = PointerTo (StructValue fs)) \/
                   (forall fs, v <> PointerTo (StructValue fs))).
  { destruct v as [|fs| |elem|kd]; try (right; discriminate).
    destruct elem as [|fs| |elem|kd]; try (right; discriminate).
    left. now exists fs. }
  destruct Hcases as [(fs & ->)|Hv].
  - unfold Unmarshal in *.
    assert (Hp := loop_passed fs _ _ _ _ eq_refl H).
    destruct (loop_keeps (bufio.lines data) 0 fs) as (fs' & Hr & Hk).
    rewrite H in Hr. cbn [fst] in Hr. subst v'. apply keeps_type in Hk.
    rewrite (loop_passes fs) in H by auto.
    rewrite (loop_passes fs) by auto.
    inversion H as [Hfs]. do 3 f_equal. subst fs'.
    rewrite !assignLines_map, map_map. apply map_ext.
    intros f. apply assignedBy_idempotent.
  - pose proof (loop_untouched (bufio.lines data) v Hv 0) as Hu.
    unfold Unmarshal in *. rewrite H in Hu. cbn in Hu. subst v'. exact H.
Qed.


Lemma loop_outcome_type (ls : list gostring) :
  forall c fs gs,
  zeroFields fs = zeroFields gs ->
  snd (unmarshalLoop ls c (PointerTo (StructValue fs))) =
  snd (unmarshalLoop ls c (PointerTo (StructValue gs))).
Proof.
  induction ls as [|l ls IH]; intros c fs gs H; [reflexivity|].
  destruct (line_cases l) as [Hf|[Hf [Hi|[Hm|Hk]]]].
  - now rewrite !loop_too_long.
  - rewrite !loop_ignored by assumption. now apply IH.
  - now rewrite !loop_malformed.
  - rewrite !loop_key_value_line, !assignTarget_struct by assumption.
    rewrite (assignFields_exit_type _ _ fs gs H).
    destruct (snd (assignFields (lineKey l) (lineValue l) gs)); [reflexivity|].
    apply IH.
    pose proof (keeps_type _ _ (assignFields_keeps (lineKey l) (lineValue l) fs)).
    pose proof (keeps_type _ _ (assignFields_keeps (lineKey l) (lineValue l) gs)).
    congruence.
Qed.

(** X14 -- The contents of the record do not matter to the outcome.  For
    two records of the same type (the same fields with the same names,
    tags and kinds), every input decodes with the same outcome: the same
    error, the same panic or no error, whatever the fields hold. *)
Theorem Unmarshal_outcome_by_type (data : bytes) (fs gs : list Field) :
  zeroFields fs = zeroFields gs ->
  snd (Unmarshal data (PointerTo (StructValue fs))) =
  snd (Unmarshal data (PointerTo (StructValue gs))).
Proof. apply loop_outcome_type. Qed.

Lemma assignFields_unmatched (k v : gostring) (st : list Field) :
  forallb (fun f => negb (matched k f)) st = true ->
  assignFields k v st = (st, None).
Proof.
  induction st as [|f st IH]; [reflexivity|].
  cbn [forallb]. intros H. apply andb_true_iff in H as [Hf Hst].
  apply negb_true_iff in Hf.
  now rewrite assignFields_step, Hf, (IH Hst).
Qed.

Lemma loop_unknown (fs : list Field) (ls : list gostring) :
  forallb (fun l => negb (isMalformed l) && implb (unknownKey fs l) (fits l)) ls = true ->
  forall c1 c2 st,
  zeroFields st = zeroFields fs ->
  unmarshalLoop ls c1 (PointerTo (StructValue st)) =
  unmarshalLoop (filter (fun l => negb (unknownKey fs l)) ls) c2
    (PointerTo (StructValue st)).
Proof.
  induction ls as [|l ls IH]; intros H c1 c2 st Ht; [reflexivity|].
  cbn [forallb] in H. apply andb_true_iff in H as [Hl Hls].
  apply andb_true_iff in Hl as [Hm Hu]. apply negb_true_iff in Hm.
  cbn [filter]. destruct (unknownKey fs l) eqn:Eu; cbn [negb].
  - cbn [implb] in Hu. unfold unknownKey in Eu.
    apply andb_true_iff in Eu as [Hk Hn].
    rewrite loop_key_value_line, assignTarget_struct by assumption.
    rewrite assignFields_unmatched.
    + cbn [fst snd]. now apply IH.
    + rewrite <- Hn. apply forallb_type; [|assumption].
      intros f g Hz. now rewrite (matched_type _ f g Hz).
  - destruct (line_cases l) as [Hf|[Hf [Hi|[Hm'|Hk]]]]; try congruence.
    + now rewrite !loop_too_long.
    + rewrite !loop_ignored by assumption. now apply IH.
    + rewrite !loop_key_value_line, !assignTarget_struct by assumption.
      destruct (snd (assignFields (lineKey l) (lineValue l) st)); [reflexivity|].
      apply IH; [assumption|].
      pose proof (keeps_type _ _ (assignFields_keeps (lineKey l) (lineValue l) st)).
      congruence.
Qed.

(** X15 -- Keys that the record does not know.  Key/value lines whose
    key no field of the record resolves to (skipped fields resolve to no
    key) are passed over: when the input has no malformed line and these
    lines fit the scanner, the input decodes to the same record with the
    same outcome as the input without them. *)
Theorem Unmarshal_unknown_keys (data : bytes) (fs : list Field) :
  forallb (fun l => negb (isMalformed l) && implb (unknownKey fs l) (fits l))
          (bufio.lines data) = true ->
  Unmarshal data (PointerTo (StructValue fs)) =
  Unmarshal (unlines (filter (fun l => negb (unknownKey fs l)) (bufio.lines data)))
            (PointerTo (StructValue fs)).
Proof.
  intros H. unfold Unmarshal. rewrite lines_unlines.
  - now apply loop_unknown.
  - intros l Hin. apply filter_In in Hin as [Hin _]. now apply (lines_no_NL data).
Qed.


(** ** Round trip with skipped and omitempty fields *)

Lemma beforeEq_app (k v : gostring) :
  hasEq k = false -> beforeEq (k ++ "="%char :: v) = k.
Proof.
  rewrite hasEq_not_In. induction k as [|c k IH]; intros H; [reflexivity|].
  simpl. destruct (Ascii.eqb_spec c "="%char) as [->|Hne]; [exfalso; apply H; now left|].
  rewrite IH; [reflexivity|]. intros Hin. apply H. now right.
Qed.

Lemma afterEq_app (k v : gostring) :
  hasEq k = false -> afterEq (k ++ "="%char :: v) = v.
Proof.
  rewrite hasEq_not_In. induction k as [|c k IH]; intros H; [reflexivity|].
  simpl. destruct (Ascii.eqb_spec c "="%char) as [->|Hne]; [exfalso; apply H; now left|].
  apply IH. intros Hin. apply H. now right.
Qed.

(** The line written for a field with a plain key and a plain value is a
    key/value line with that key and that value. *)
Lemma lineOf_plain (g : Field) :
  plainKey (keyOf g) -> plainValue (stringOf g) ->
  isKeyValue (lineOf g) = true /\ lineKey (lineOf g) = keyOf g /\
  lineValue (lineOf g) = stringOf g.
Proof.
  intros (Hk & He & _ & Hh) (Hv & _).
  assert (Ht : strings.TrimSpace (lineOf g) = lineOf g)
    by now apply TrimSpace_key_value.
  unfold lineKey, lineValue. rewrite Ht. unfold lineOf.
  rewrite beforeEq_app, afterEq_app by assumption.
  split; [|auto].
  unfold isKeyValue, isIgnored, isBlank, isComment. fold (lineOf g). rewrite Ht.
  unfold lineOf. rewrite HasPrefix_hash_key by assumption.
  rewrite eqs_neq by (destruct (keyOf g); discriminate).
  cbn [orb negb andb]. apply hasEq_In. apply in_or_app. right. now left.
Qed.

Lemma decodable_zeroField (f : Field) : decodable (zeroField f) = decodable f.
Proof.
  unfold decodable, isString, optsOf, zeroField. cbn [fType fValue].
  now destruct (fValue f).
Qed.

Lemma assignedBy_cons (l : gostring) (ls : list gostring) (f : Field) :
  assignedBy (l :: ls) f =
    assignedBy ls (if assigns (lineKey l) (lineValue l) f
                   then mkField (fType f) (FStr (strings.TrimSpace (lineValue l)))
                   else f).
Proof. reflexivity. Qed.

Lemma assignedBy_app (ls ms : list gostring) (f : Field) :
  assignedBy (ls ++ ms) f = assignedBy ms (assignedBy ls f).
Proof. unfold assignedBy. apply fold_left_app. Qed.

Lemma assignedBy_unassigned (ls : list gostring) (f : Field) :
  (forall l, In l ls -> assigns (lineKey l) (lineValue l) f = false) ->
  assignedBy ls f = f.
Proof.
  induction ls as [|l ls IH]; intros H; [reflexivity|].
  rewrite assignedBy_cons, (H l) by now left.
  apply IH. intros l' Hin. apply H. now right.
Qed.

(** The line of a field with another key assigns nothing to the field. *)
Lemma lineOf_other_key (g f : Field) :
  plainKey (keyOf g) -> plainValue (stringOf g) ->
  keyOf g <> keyOf f ->
  assigns (lineKey (lineOf g)) (lineValue (lineOf g)) f = false.
Proof.
  intros Hk Hv Hne. destruct (lineOf_plain g Hk Hv) as (_ & -> & _).
  unfold assigns, matched. destruct Hk as (-> & _).
  rewrite (eqs_neq _ _ Hne). now rewrite andb_false_r.
Qed.

Lemma NoDup_map_filter_sub {A B} (h : A -> B) (p q : A -> bool) (l : list A) :
  (forall x, q x = true -> p x = true) ->
  NoDup (map h (filter p l)) -> NoDup (map h (filter q l)).
Proof.
  intros Hqp. induction l as [|a l IH]; [auto|].
  cbn [filter]. destruct (q a) eqn:Eq.
  - rewrite (Hqp a Eq). cbn [map]. intros H. inversion H as [|x xs Hni Hnd]; subst.
    constructor; [|auto]. intros Hin. apply Hni.
    apply in_map_iff in Hin as (b & Hb & Hin). apply in_map_iff. exists b.
    split; [assumption|]. apply filter_In in Hin as [Hin Hq].
    apply filter_In. auto.
  - destruct (p a); [|exact IH]. cbn [map]. intros H.
    inversion H; subst. auto.
Qed.

Lemma NoDup_map_inj {A B} (h : A -> B) (l : list A) (a b : A) :
  NoDup (map h l) -> In a l -> In b l -> h a = h b -> a = b.
Proof.
  induction l as [|x l IH]; [intros _ []|].
  cbn [map]. intros H Ha Hb Hab. inversion H as [|y ys Hni Hnd]; subst.
  destruct Ha as [->|Ha], Hb as [->|Hb]; auto.
  - exfalso. apply Hni. rewrite Hab. now apply in_map.
  - exfalso. apply Hni. rewrite <- Hab. now apply in_map.
Qed.

(** With distinct keys, the lines written for a record give every field
    of the zero record that is not skipped the value it has in the
    record, and leave the skipped fields at zero. *)
Lemma assignedBy_written (fs : list Field) (f : Field) :
  forallb decodable fs = true ->
  Forall (fun f => emitted f = true ->
            plainKey (keyOf f) /\ plainValue (stringOf f) /\ fits (lineOf f) = true) fs ->
  NoDup (map keyOf (filter (fun f => negb (Skip (optsOf f))) fs)) ->
  In f fs ->
  assignedBy (map lineOf (filter emitted fs)) (zeroField f) =
    if Skip (optsOf f) then zeroField f else f.
Proof.
  intros Hd Hp Hnd Hin.
  rewrite Forall_forall in Hp. rewrite forallb_forall in Hd.
  assert (Hplain : forall g, In g (filter emitted fs) ->
            plainKey (keyOf g) /\ plainValue (stringOf g)).
  { intros g Hg. apply filter_In in Hg as [Hg He].
    destruct (Hp g Hg He) as (Hk & Hv & _). auto. }
  destruct (Skip (optsOf f)) eqn:Es.
  - apply assignedBy_unassigned. intros l Hl.
    unfold assigns, matched. change (optsOf (zeroField f)) with (optsOf f).
    now rewrite Es.
  - assert (Hstr : isString f = true /\ reflect.Exported (fType f) = true).
    { specialize (Hd f Hin). unfold decodable in Hd. rewrite Es in Hd.
      now apply andb_true_iff in Hd. }
    destruct Hstr as [Hstr _].
    assert (Hf : f = mkField (fType f) (FStr (stringOf f))).
    { unfold isString in Hstr. unfold stringOf. destruct f as [t [s|k]];
        [reflexivity|discriminate]. }
    destruct (emitted f) eqn:Ee.
    + assert (Hg : In f (filter emitted fs)) by (apply filter_In; auto).
      destruct (Hp f Hin Ee) as (Hk & Hv & _).
      apply in_split in Hg as (pre & post & Hsplit).
      assert (Hnd' : NoDup (map keyOf (filter emitted fs))).
      { revert Hnd. apply NoDup_map_filter_sub. intros x Hx.
        unfold emitted in Hx. now apply andb_true_iff in Hx as [-> _]. }
      assert (Hother : forall g, In g (pre ++ post) ->
                plainKey (keyOf g) /\ plainValue (stringOf g) /\ keyOf g <> keyOf f).
      { intros g Hg.
        assert (Hg' : In g (filter emitted fs)).
        { rewrite Hsplit. apply in_app_or in Hg as [Hg|Hg];
            apply in_or_app; [now left|right; now right]. }
        destruct (Hplain g Hg') as [Hgk Hgv].
        split; [exact Hgk|]. split; [exact Hgv|].
        intros Heq. rewrite Hsplit, map_app in Hnd'. cbn [map] in Hnd'.
        apply NoDup_remove_2 in Hnd'. apply Hnd'. rewrite <- Heq, <- map_app.
        now apply in_map. }
      rewrite Hsplit, map_app, assignedBy_app. cbn [map].
      rewrite (assignedBy_unassigned (map lineOf pre)).
      * rewrite assignedBy_cons.
        destruct (lineOf_plain f Hk Hv) as (_ & HK & HV). rewrite HK, HV.
        assert (Ha : assigns (keyOf f) (stringOf f) (zeroField f) = true).
        { unfold assigns, matched. change (optsOf (zeroField f)) with (optsOf f).
          change (keyOf (zeroField f)) with (keyOf f).
          destruct Hk as (-> & _). rewrite Es, eqs_refl. cbn [negb andb].
          unfold emitted in Ee. rewrite Es in Ee. exact Ee. }
        rewrite Ha. destruct Hv as (-> & _). cbn [zeroField fType].
        rewrite <- Hf. apply assignedBy_unassigned.
        intros l Hl. apply in_map_iff in Hl as (g & <- & Hg).
        destruct (Hother g) as (Hgk & Hgv & Hne); [apply in_or_app; now right|].
        now apply lineOf_other_key.
      * intros l Hl. apply in_map_iff in Hl as (g & <- & Hg).
        destruct (Hother g) as (Hgk & Hgv & Hne); [apply in_or_app; now left|].
        apply lineOf_other_key; assumption.
    + assert (Hz : zeroField f = f).
      { unfold emitted in Ee. rewrite Es in Ee. cbn [negb andb] in Ee.
        apply negb_false_iff in Ee. apply andb_true_iff in Ee as [_ Ee].
        apply eqs_spec in Ee. rewrite Hf at 2. unfold zeroField.
        unfold isString in Hstr. destruct (fValue f); [|discriminate].
        now rewrite Ee. }
      rewrite Hz. apply assignedBy_unassigned.
      intros l Hl. apply in_map_iff in Hl as (g & <- & Hg).
      destruct (Hplain g Hg) as [Hgk Hgv].
      apply lineOf_other_key; try assumption.
      intros Heq. apply filter_In in Hg as [Hg Heg].
      assert (g = f); [|congruence].
      apply (NoDup_map_inj keyOf _ g f Hnd); try assumption.
      * apply filter_In. split; [assumption|].
        unfold emitted in Heg. now apply andb_true_iff in Heg as [-> _].
      * apply filter_In. split; [assumption|]. now rewrite Es.
Qed.

(** X16 -- Round trip with skipped and omitempty fields.  For every
    record whose fields are skipped or exported strings, whose fields
    that are written (not skipped, and not an omitempty field with empty
    contents) are of a type without [Format], [Error] or [String] method
    (the type [string] itself is one), have plain keys and values
    (trimmed, without newline, the keys without ['='] and leading ['#'])
    and a line [KEY=value] shorter than the scanner's limit of 65536
    bytes, and whose fields that are not skipped have distinct keys:
    encoding succeeds, and decoding the encoding into the zero record of
    the same type returns the record with its skipped fields at their
    zero value.  Empty omitempty fields are not written and come back
    empty. *)
Theorem Marshal_Unmarshal_roundtrip_options (fs : list Field) :
  forallb decodable fs = true ->
  Forall (fun f => emitted f = true ->
            unformatted f /\
            plainKey (keyOf f) /\ plainValue (stringOf f) /\ fits (lineOf f) = true) fs ->
  NoDup (map keyOf (filter (fun f => negb (Skip (optsOf f))) fs)) ->
  exists data,
    Marshal (StructValue fs) = (data, None) /\
    Unmarshal data (PointerTo (StructValue (zeroFields fs))) =
      (PointerTo (StructValue (withoutSkipped fs)), Returns None).
Proof.
  intros Hd Hu Hnd.
  assert (Hp : Forall (fun f => emitted f = true ->
                 plainKey (keyOf f) /\ plainValue (stringOf f) /\
                 fits (lineOf f) = true) fs).
  { eapply Forall_impl; [|exact Hu]. intros f H He. now destruct (H He). }
  exists (unlines (map lineOf (filter emitted fs))). split.
  - unfold Marshal. rewrite <- (app_nil_r fs) at 1.
    rewrite marshalFields_app.
    + cbn [app marshalFields]. do 2 f_equal. apply map_ext_in. intros f Hin.
      apply filter_In in Hin as [Hin He]. apply writtenLine_unformatted.
      rewrite Forall_forall in Hu. now apply Hu.
    + apply forallb_forall. intros f Hin. rewrite forallb_forall in Hd.
      specialize (Hd f Hin). unfold decodable, encodable in *.
      destruct (Skip (optsOf f)); [reflexivity|].
      now apply andb_true_iff in Hd as [-> _].
  - assert (Hlines : forall g, In g (filter emitted fs) ->
              plainKey (keyOf g) /\ plainValue (stringOf g) /\ fits (lineOf g) = true).
    { intros g Hg. apply filter_In in Hg as [Hg He].
      rewrite Forall_forall in Hp. now apply Hp. }
    unfold Unmarshal. rewrite lines_unlines.
    + rewrite (loop_passes (zeroFields fs)); [|reflexivity|].
      * do 3 f_equal.
        replace (filter isKeyValue (map lineOf (filter emitted fs)))
          with (map lineOf (filter emitted fs)).
        -- rewrite assignLines_map, zeroFields_map, map_map.
           unfold withoutSkipped. apply map_ext_in. intros f Hin.
           now rewrite assignedBy_written.
        -- symmetry. apply forallb_filter_id. apply forallb_forall.
           intros l Hl. apply in_map_iff in Hl as (g & <- & Hg).
           destruct (Hlines g Hg) as (Hk & Hv & _).
           now destruct (lineOf_plain g Hk Hv).
      * apply forallb_forall. intros l Hl. apply in_map_iff in Hl as (g & <- & Hg).
        destruct (Hlines g Hg) as (Hk & Hv & Hf).
        destruct (lineOf_plain g Hk Hv) as (Hkv & _ & _).
        unfold passes. rewrite Hf, (isMalformed_key_value _ Hkv), Hkv.
        cbn [negb andb implb]. apply forallb_forall. intros z Hz.
        apply decodable_assignable. rewrite zeroFields_map in Hz.
        apply in_map_iff in Hz as (f & <- & Hin). rewrite decodable_zeroField.
        rewrite forallb_forall in Hd. now apply Hd.
    + intros l Hl. apply in_map_iff in Hl as (g & <- & Hg).
      destruct (Hlines g Hg) as ((_ & _ & Hk & _) & (_ & Hv) & _).
      now apply lineOf_no_NL.
Qed.


(** ** Decoding in two parts *)

Lemma lines_unlines_app (la : list gostring) (b : bytes) :
  (forall l, In l la -> ~ In NL l) ->
  bufio.lines (unlines la ++ b) = la ++ bufio.lines b.
Proof.
  induction la as [|l la IH]; intros H; [reflexivity|].
  unfold unlines. cbn [map concat]. rewrite <- !app_assoc. simpl.
  rewrite lines_line by (apply H; now left).
  simpl. f_equal. apply IH. intros l' Hl'. apply H. now right.
Qed.

Lemma assignTarget_exit_shift (d : Z) (x : exit) :
  (x = Panic \/ exists kd, x = Return (ErrorUnsupportedType kd)) ->
  shiftLine d (outcomeOf x) = outcomeOf x.
Proof. intros [->|(kd & ->)]; reflexivity. Qed.

(** The count of the lines read so far shows in the line number of
    [LineParsing] only. *)
Lemma loop_shift (ls : list gostring) (d : Z) :
  forall c v,
  unmarshalLoop ls (c + d) v =
    (fst (unmarshalLoop ls c v), shiftLine d (snd (unmarshalLoop ls c v))).
Proof.
  induction ls as [|l ls IH]; intros c v; [reflexivity|].
  replace (c + d + 1) with (c + 1 + d) by lia.
  destruct (line_cases l) as [Hf|[Hf [Hi|[Hm|Hk]]]].
  - now rewrite !loop_too_long.
  - rewrite !loop_ignored by assumption.
    replace (c + d + 1) with (c + 1 + d) by lia. apply IH.
  - rewrite !loop_malformed by assumption. cbn.
    now replace (c + d + 1) with (c + 1 + d) by lia.
  - rewrite !loop_key_value_line by assumption.
    destruct (assignTarget (lineKey l) (lineValue l) v) as [v1 [x|]] eqn:E.
    + cbn [fst snd]. apply assignTarget_exit_kind in E.
      now rewrite assignTarget_exit_shift.
    + replace (c + d + 1) with (c + 1 + d) by lia. apply IH.
Qed.

(** X17 -- Decoding in two parts.  When a text of whole lines decodes
    without error, decoding it with a second text behind it is the same
    as decoding the second text into the result of the first: the same
    record and the same outcome, a [LineParsing] line number counting the
    lines of the first text too. *)
Theorem Unmarshal_concat (la : list gostring) (b : bytes) (v v1 : Value) :
  forallb (fun l => negb (hasNL l)) la = true ->
  Unmarshal (unlines la) v = (v1, Returns None) ->
  Unmarshal (unlines la ++ b) v =
    (fst (Unmarshal b v1), shiftLine (Z.of_nat (length la)) (snd (Unmarshal b v1))).
Proof.
  intros Hnl H.
  assert (Hn : forall l, In l la -> ~ In NL l).
  { intros l Hin. rewrite forallb_forall in Hnl. apply Hnl in Hin.
    apply negb_true_iff in Hin. now apply hasNL_not_In. }
  unfold Unmarshal in *. rewrite lines_unlines in H by assumption.
  rewrite lines_unlines_app by assumption.
  rewrite (loop_prefix _ _ _ _ _ H). apply loop_shift.
Qed.

(** ** A key given twice *)

Lemma matched_fType (k : gostring) (f g : Field) :
  fType f = fType g -> matched k f = matched k g.
Proof. intros H. unfold matched, keyOf, optsOf. now rewrite H. Qed.

(** Behind a line that assigns the field, what stood before the line
    does not show any more. *)
Lemma assignedBy_overwritten (l : gostring) (ls : list gostring) (f g : Field) :
  fType f = fType g ->
  assigns (lineKey l) (lineValue l) f = true ->
  assignedBy (l :: ls) f = assignedBy (l :: ls) g.
Proof.
  intros Ht Ha. rewrite !assignedBy_cons.
  rewrite <- (assigns_fType _ _ f g Ht), Ha. now rewrite Ht.
Qed.

Lemma assignedBy_twice (l1 l2 : gostring) (m1 m2 m3 : list gostring) (f : Field) :
  strings.TrimSpace (lineKey l1) = strings.TrimSpace (lineKey l2) ->
  eqs (lineValue l2) [] = false ->
  assignedBy (m1 ++ l1 :: m2 ++ l2 :: m3) f = assignedBy (m1 ++ m2 ++ l2 :: m3) f.
Proof.
  intros Hk Hv.
  rewrite !assignedBy_app, assignedBy_cons, !assignedBy_app.
  set (g := assignedBy m1 f).
  destruct (assigns (lineKey l1) (lineValue l1) g) eqn:Ea; [|reflexivity].
  apply assignedBy_overwritten.
  - now rewrite !assignedBy_fType.
  - rewrite (assigns_fType _ _ _ g) by now rewrite assignedBy_fType.
    apply assigns_matched in Ea. unfold assigns, matched in *.
    rewrite <- Hk, Hv, andb_false_r. cbn [negb]. now rewrite andb_true_r.
Qed.

Lemma decodable_passes (fs : list Field) (l : gostring) :
  forallb decodable fs = true ->
  fits l = true -> isMalformed l = false -> passes fs l = true.
Proof.
  intros Hd Hf Hm. unfold passes. rewrite Hf, Hm. cbn [negb andb].
  destruct (isKeyValue l); [|reflexivity]. cbn [implb].
  apply forallb_forall. intros f Hin. apply decodable_assignable.
  rewrite forallb_forall in Hd. now apply Hd.
Qed.

Lemma filter_twice {A} (p : A -> bool) (a b c : list A) (x y : A) :
  p x = true -> p y = true ->
  filter p (a ++ x :: b ++ y :: c) = filter p a ++ x :: filter p b ++ y :: filter p c /\
  filter p (a ++ b ++ y :: c) = filter p a ++ filter p b ++ y :: filter p c.
Proof.
  intros Hx Hy. rewrite !filter_app. cbn [filter]. rewrite !filter_app.
  cbn [filter]. now rewrite Hx, Hy.
Qed.

(** X18 -- A key given twice.  In an input without malformed or too long
    lines, decoded into a record whose fields are skipped or exported
    strings, a key/value line is of no effect when a later line has the
    same key (after trimming) and a value that is not empty: the later
    line wins, and the input decodes as it does without the earlier
    line. *)
Theorem Unmarshal_later_line_wins (a b c : list gostring) (l1 l2 : gostring)
    (fs : list Field) :
  forallb decodable fs = true ->
  forallb (fun l => negb (hasNL l) && fits l && negb (isMalformed l))
          (a ++ l1 :: b ++ l2 :: c) = true ->
  isKeyValue l1 = true -> isKeyValue l2 = true ->
  strings.TrimSpace (lineKey l1) = strings.TrimSpace (lineKey l2) ->
  eqs (lineValue l2) [] = false ->
  Unmarshal (unlines (a ++ l1 :: b ++ l2 :: c)) (PointerTo (StructValue fs)) =
  Unmarshal (unlines (a ++ b ++ l2 :: c)) (PointerTo (StructValue fs)).
Proof.
  intros Hd Hall Hk1 Hk2 Hk Hv. rewrite forallb_forall in Hall.
  assert (Hin2 : forall l, In l (a ++ b ++ l2 :: c) -> In l (a ++ l1 :: b ++ l2 :: c)).
  { intros l Hl. apply in_app_or in Hl as [Hl|Hl]; apply in_or_app; auto.
    right. now right. }
  assert (Hline : forall l, In l (a ++ l1 :: b ++ l2 :: c) ->
            ~ In NL l /\ passes fs l = true).
  { intros l Hl. apply Hall in Hl. apply andb_true_iff in Hl as [Hl Hm].
    apply andb_true_iff in Hl as [Hn Hf]. apply negb_true_iff in Hn, Hm.
    split; [now apply hasNL_not_In|now apply decodable_passes]. }
  unfold Unmarshal. rewrite !lines_unlines.
  - rewrite !(loop_passes fs); try reflexivity.
    + destruct (filter_twice isKeyValue a b c l1 l2 Hk1 Hk2) as [-> ->].
      do 3 f_equal. rewrite !assignLines_map. apply map_ext. intros f.
      now apply assignedBy_twice.
    + apply forallb_forall. intros l Hl. now apply Hline, Hin2.
    + apply forallb_forall. intros l Hl. now apply Hline.
  - intros l Hl. now apply Hline, Hin2.
  - intros l Hl. now apply Hline.
Qed.

(** ** The error messages *)

Lemma str_inj (s t : string) : str s = str t -> s = t.
Proof.
  unfold str. intros H.
  rewrite <- (string_of_list_ascii_of_string s), <- (string_of_list_ascii_of_string t).
  now rewrite H.
Qed.

Lemma itoa_inj (n m : Z) : itoa n = itoa m -> n = m.
Proof.
  unfold itoa. intros H. apply str_inj in H.
  apply to_int_inj.
  assert (Hs : Some (Z.to_int n) = Some (Z.to_int m))
    by (rewrite <- !NilEmpty.isi; now rewrite H).
  now inversion Hs.
Qed.

Lemma KindString_inj (k k' : reflect.Kind) : KindString k = KindString k' -> k = k'.
Proof.
  destruct k, k'; intros H; try reflexivity; vm_compute in H; discriminate.
Qed.

(** X19 -- The error messages tell the errors apart.  Two errors of the
    package with the same message are the same error: the messages of
    [UnsupportedType] name the kind, those of [LineParsing] give the line
    number in decimal, and no message of the one form is a message of the
    other (nor the scanner's "token too long"). *)
Theorem Error_injective (e e' : error) : Error e = Error e' -> e = e'.
Proof.
  destruct e as [k|n|], e' as [k'|n'|]; cbn [Error]; intros H;
    try (vm_compute in H; discriminate); try reflexivity.
  - apply app_inv_head in H. f_equal. now apply KindString_inj.
  - apply app_inv_head in H. f_equal. now apply itoa_inj.
Qed.


(** ** White space around the key and the value *)

Lemma TrimSpace_split (s : gostring) :
  exists p q, s = p ++ strings.TrimSpace s ++ q /\
              strings.Spaces E p /\ strings.Spaces R (rev q).
Proof.
  unfold strings.TrimSpace.
  destruct (TrimLeft_decomp s) as (p & Hp & Hs & _).
  destruct (TrimRight_decomp (strings.TrimLeftSpace s)) as (q & Hq & Hs' & _).
  exists p, q. split; [|auto]. now rewrite <- Hs', <- Hs.
Qed.

Lemma TrimSpace_length (s : gostring) :
  (length (strings.TrimSpace s) <= length s)%nat.
Proof.
  destruct (TrimSpace_split s) as (p & q & Hs & _).
  rewrite Hs at 2. rewrite !length_app. lia.
Qed.

Lemma Spaces_last (encs : list gostring) (p : gostring) :
  strings.Spaces encs p -> p <> [] -> exists p' e, In e encs /\ p = p' ++ e.
Proof.
  induction 1 as [|e r Hin Hr IH]; intros Hne; [congruence|].
  destruct r as [|c r'].
  - exists [], e. now rewrite app_nil_r.
  - destruct IH as (p' & e' & He' & Hp'); [discriminate|].
    exists (e ++ p'), e'. split; [assumption|]. now rewrite Hp', app_assoc.
Qed.

Lemma Spaces_first (encs : list gostring) (p : gostring) :
  (forall e, In e encs -> e <> []) ->
  strings.Spaces encs p -> p <> [] -> exists e r, In e encs /\ p = e ++ r.
Proof.
  intros Hne. induction 1 as [|e r Hin Hr IH]; intros Hp; [congruence|].
  now exists e, r.
Qed.

(** A string that trimming empties and that is not empty ends with a
    space sequence. *)
Lemma blank_ends_with_space (v : gostring) :
  strings.TrimSpace v = [] -> v <> [] ->
  exists r, In r R /\ strings.HasPrefix (rev v) r = true.
Proof.
  intros Ht Hne. destruct (TrimSpace_split v) as (p & q & Hv & Hp & Hq).
  rewrite Ht in Hv. cbn [app] in Hv.
  destruct q as [|c q'].
  - rewrite app_nil_r in Hv. subst p.
    destruct (Spaces_last _ _ Hp Hne) as (p' & e & He & ->).
    exists (rev e). split; [now apply in_map|].
    rewrite rev_app_distr. apply HasPrefix_app.
  - destruct (Spaces_first R (rev (c :: q')) R_nonempty Hq) as (r & t & Hr & Hrt).
    + intros H. apply (f_equal (@rev ascii)) in H. rewrite rev_involutive in H.
      discriminate.
    + exists r. split; [assumption|].
      rewrite Hv, rev_app_distr, Hrt, <- app_assoc. apply HasPrefix_app.
Qed.

Lemma afterEq_suffix (s : gostring) : exists u, s = u ++ afterEq s.
Proof.
  induction s as [|c s (u & Hu)]; [now exists []|].
  simpl. destruct (Ascii.eqb c "="%char).
  - now exists [c].
  - exists (c :: u). simpl. congruence.
Qed.

Lemma beforeEq_no_eq (s : gostring) : hasEq (beforeEq s) = false.
Proof.
  apply hasEq_not_In. induction s as [|c s IH]; [intros []|].
  simpl. destruct (Ascii.eqb_spec c "="%char) as [->|Hne]; [intros []|].
  intros [H|H]; [congruence|contradiction].
Qed.

Lemma beforeEq_afterEq (s : gostring) :
  In "="%char s -> s = beforeEq s ++ "="%char :: afterEq s.
Proof.
  induction s as [|c s IH]; [intros []|].
  simpl. destruct (Ascii.eqb_spec c "="%char) as [->|Hne]; [reflexivity|].
  intros [H|H]; [congruence|]. simpl. now rewrite <- IH.
Qed.

(** The value of a line is empty as soon as its trimming is: the line
    has been trimmed before it is cut. *)
Lemma lineValue_blank (l : gostring) :
  strings.TrimSpace (lineValue l) = [] -> lineValue l = [].
Proof.
  intros Ht. destruct (lineValue l) as [|c v] eqn:Ev; [reflexivity|exfalso].
  destruct (blank_ends_with_space (c :: v) Ht) as (r & Hr & Hp); [discriminate|].
  pose proof (TrimSpace_idempotent l) as Hid.
  apply TrimSpace_id_iff in Hid as [_ Hid]. rewrite stripOne_none in Hid.
  specialize (Hid r Hr).
  destruct (afterEq_suffix (strings.TrimSpace l)) as (u & Hu).
  unfold lineValue in Ev. rewrite Ev in Hu.
  rewrite Hu, rev_app_distr in Hid.
  apply HasPrefix_inv in Hp. rewrite Hp, <- app_assoc, HasPrefix_app in Hid.
  discriminate.
Qed.

Lemma eqs_lineValue (l : gostring) :
  eqs (strings.TrimSpace (lineValue l)) [] = eqs (lineValue l) [].
Proof.
  destruct (eqs (lineValue l) []) eqn:E.
  - apply eqs_spec in E. rewrite E. reflexivity.
  - apply eqs_neq. intros H. apply lineValue_blank in H.
    rewrite H in E. discriminate.
Qed.

Lemma assignFields_trimmed (k v : gostring) (fs : list Field) :
  eqs (strings.TrimSpace v) [] = eqs v [] ->
  assignFields (strings.TrimSpace k) (strings.TrimSpace v) fs = assignFields k v fs.
Proof.
  intros He. induction fs as [|f fs IH]; [reflexivity|].
  rewrite !assignFields_cons. cbv zeta.
  now rewrite IH, !TrimSpace_idempotent, He.
Qed.

Lemma assignTarget_trimmed (k v : gostring) (t : Value) :
  eqs (strings.TrimSpace v) [] = eqs v [] ->
  assignTarget (strings.TrimSpace k) (strings.TrimSpace v) t = assignTarget k v t.
Proof.
  intros He. destruct t as [|fs| |elem|kd]; try reflexivity.
  destruct elem as [|fs| |elem|kd]; try reflexivity.
  unfold assignTarget. now rewrite assignFields_trimmed.
Qed.

(** The key of a key/value line starts like the trimmed line: no white
    space and no ['#'] in front. *)
Lemma lineKey_front (l : gostring) :
  isKeyValue l = true ->
  strings.stripOne E (lineKey l) = None /\
  strings.HasPrefix (lineKey l) (str "#") = false.
Proof.
  intros Hk. unfold isKeyValue in Hk. apply andb_true_iff in Hk as [Hi He].
  apply negb_true_iff in Hi. unfold isIgnored in Hi.
  apply orb_false_iff in Hi as [_ Hc]. unfold isComment in Hc.
  apply hasEq_In, TrimSpace_In_eq, beforeEq_afterEq in He.
  pose proof (TrimSpace_idempotent l) as Hid.
  apply TrimSpace_id_iff in Hid as [Hid _]. rewrite stripOne_none in Hid.
  unfold lineKey. split.
  - apply stripOne_none. intros e Hin.
    destruct (strings.HasPrefix (beforeEq (strings.TrimSpace l)) e) eqn:Hp;
      [|reflexivity].
    apply HasPrefix_inv in Hp. specialize (Hid e Hin).
    rewrite He, Hp, <- app_assoc, HasPrefix_app in Hid. discriminate.
  - rewrite He in Hc. destruct (beforeEq (strings.TrimSpace l)); [reflexivity|].
    exact Hc.
Qed.

Lemma trimmed_key_front (k : gostring) :
  strings.stripOne E k = None ->
  strings.HasPrefix k (str "#") = false ->
  strings.HasPrefix (strings.TrimSpace k) (str "#") = false.
Proof.
  intros Hs Hh. unfold strings.TrimSpace. rewrite TrimLeft_id by assumption.
  destruct (TrimRight_decomp k) as (q & _ & Hk & _).
  destruct (strings.TrimRightSpace k) as [|c t]; [reflexivity|].
  rewrite Hk in Hh. exact Hh.
Qed.

(** The trimmed form of a key/value line is a key/value line with the
    trimmed key and the trimmed value, and no longer than the line. *)
Lemma trimmedLine_spec (l : gostring) :
  isKeyValue l = true ->
  isKeyValue (trimmedLine l) = true /\
  lineKey (trimmedLine l) = strings.TrimSpace (lineKey l) /\
  lineValue (trimmedLine l) = strings.TrimSpace (lineValue l) /\
  (length (trimmedLine l) <= length l)%nat /\
  (forall c, In c (trimmedLine l) -> In c l).
Proof.
  intros Hk. destruct (lineKey_front l Hk) as [Hs Hh].
  assert (He : hasEq (strings.TrimSpace (lineKey l)) = false).
  { apply hasEq_not_In. intros H. apply TrimSpace_In in H.
    pose proof (beforeEq_no_eq (strings.TrimSpace l)) as Hb.
    apply hasEq_not_In in Hb. now apply Hb. }
  assert (Ht : strings.TrimSpace (trimmedLine l) = trimmedLine l)
    by (apply TrimSpace_key_value; apply TrimSpace_idempotent).
  assert (Hl : strings.TrimSpace l = lineKey l ++ "="%char :: lineValue l).
  { unfold isKeyValue in Hk. apply andb_true_iff in Hk as [_ Hk].
    now apply hasEq_In, TrimSpace_In_eq, beforeEq_afterEq in Hk. }
  split; [|split; [|split; [|split]]].
  - unfold isKeyValue, isIgnored, isBlank, isComment. rewrite Ht.
    unfold trimmedLine.
    rewrite HasPrefix_hash_key by now apply trimmed_key_front.
    rewrite eqs_neq by (destruct (strings.TrimSpace (lineKey l)); discriminate).
    cbn [orb negb andb]. apply hasEq_In. apply in_or_app. right. now left.
  - unfold lineKey at 1. rewrite Ht. unfold trimmedLine. now apply beforeEq_app.
  - unfold lineValue at 1. rewrite Ht. unfold trimmedLine. now apply afterEq_app.
  - pose proof (TrimSpace_length l) as H1. rewrite Hl in H1.
    pose proof (TrimSpace_length (lineKey l)) as H2.
    pose proof (TrimSpace_length (lineValue l)) as H3.
    unfold trimmedLine. rewrite length_app in *. simpl in *. lia.
  - intros c Hc. apply TrimSpace_In. rewrite Hl. unfold trimmedLine in Hc.
    apply in_app_or in Hc as [Hc|[Hc|Hc]]; apply in_or_app.
    + left. now apply TrimSpace_In.
    + right. now left.
    + right. right. now apply TrimSpace_In.
Qed.

Lemma loop_replace_line (l l' : gostring) (a b : list gostring) :
  (forall rest c v, unmarshalLoop (l :: rest) c v = unmarshalLoop (l' :: rest) c v) ->
  forall c v, unmarshalLoop (a ++ l :: b) c v = unmarshalLoop (a ++ l' :: b) c v.
Proof.
  intros H. induction a as [|x a IH]; intros c v; [apply H|].
  simpl app. rewrite !loop_cons. cbv zeta.
  destruct (bufio.MaxScanTokenSize <=? len x); [reflexivity|].
  destruct (eqs _ [] || _); [apply IH|].
  destruct (strings.SplitN _ _ 2) as [|k [|val [|]]]; try reflexivity.
  destruct (assignTarget k val v) as [v1 [x0|]]; [reflexivity|apply IH].
Qed.

(** X20 -- White space around the key and the value.  White space (as
    [strings.TrimSpace] knows it) before and behind the key and the value
    of a key/value line that is shorter than the scanner's limit of 65536
    bytes is of no effect: for every target, a document of lines decodes
    to the same record with the same outcome when such a line of it is
    replaced by its trimmed key, ['='] and its trimmed value.  (A line of
    65536 bytes or more stops the scanner, whatever its trimmed form.) *)
Theorem Unmarshal_trimmed_line (a b : list gostring) (l : gostring) (v : Value) :
  forallb (fun x => negb (hasNL x)) (a ++ l :: b) = true ->
  fits l = true -> isKeyValue l = true ->
  Unmarshal (unlines (a ++ l :: b)) v = Unmarshal (unlines (a ++ trimmedLine l :: b)) v.
Proof.
  intros Hnl Hf Hk. rewrite forallb_forall in Hnl.
  assert (Hn : forall x, In x (a ++ l :: b) -> ~ In NL x).
  { intros x Hx. apply Hnl in Hx. apply negb_true_iff in Hx.
    now apply hasNL_not_In. }
  destruct (trimmedLine_spec l Hk) as (Hk' & HK & HV & Hlen & Hin).
  assert (Hf' : fits (trimmedLine l) = true).
  { unfold fits, len in *. rewrite Z.ltb_lt in *. lia. }
  unfold Unmarshal. rewrite !lines_unlines.
  - apply loop_replace_line. intros rest c t.
    rewrite !loop_key_value_line by assumption.
    now rewrite HK, HV, assignTarget_trimmed by apply eqs_lineValue.
  - intros x Hx. apply in_app_or in Hx as [Hx|[<-|Hx]].
    + apply Hn. apply in_or_app. now left.
    + intros Hc. apply Hin in Hc. revert Hc. apply Hn. apply in_or_app. right. now left.
    + apply Hn. apply in_or_app. right. now right.
  - exact Hn.
Qed.


End Envfile.

(** ** The package's tests, run on the embedding *)

(** The cases of [TestMarshal], in their order. *)
Example Marshal_tests :
  Marshal noUnicode (StructValue [stringField "Test" "" "abc123"]) =
    (text ["TEST=abc123"], None) /\
  Marshal noUnicode (StructValue [stringField "Test" "TEST_THING" "abc123"]) =
    (text ["TEST_THING=abc123"], None) /\
  Marshal noUnicode (StructValue [stringField "Test" "TEST" "abc123  "]) =
    (text ["TEST=abc123  "], None) /\
  Marshal noUnicode (StructValue [intField "Test" "TEST"]) =
    ([], Some (ErrorUnsupportedType reflect.Int)) /\
  Marshal noUnicode (StructValue [stringField "Test" "TEST_THING,omitempty" ""]) =
    ([], None) /\
  Marshal noUnicode (StructValue [stringField "Bla" "BLA" "Blabla"; intField "Test" "-"]) =
    (text ["BLA=Blabla"], None) /\
  Marshal noUnicode Nil = ([], None) /\
  Marshal noUnicode (StructValue []) = ([], None) /\
  Marshal noUnicode (Other reflect.String) =
    ([], Some (ErrorUnsupportedType reflect.String)).
Proof. repeat split; reflexivity. Qed.

(** [ExampleMarshal]. *)
Example Marshal_example :
  Marshal noUnicode
    (StructValue [stringField "Name" "" "foo";
                  stringField "MySetting" "MY_SETTING" "https://127.0.0.1";
                  stringField "Empty" ",omitempty" ""]) =
    (text ["NAME=foo"; "MY_SETTING=https://127.0.0.1"], None).
Proof. reflexivity. Qed.

(** Cases of [TestUnmarshall]: several fields with comments and empty
    lines, the invalid line, the [int] field, the ignored fields and the
    omitempty field; then [TestUnmarshalIntoNil]. *)
Example Unmarshal_tests :
  let three a b c := PointerTo (StructValue
    [stringField "Test" "TEST" a; stringField "Foo" "FOO_VAR" b;
     stringField "Bar" "BAR_WHERE" c]) in
  Unmarshal noUnicode
    (text ["#test"; "TEST=abc123"; "# foo variable"; "FOO_VAR=foofoo"; "BAR_WHERE=bar123"])
    (three "" "" "") = (three "abc123" "foofoo" "bar123", Returns None) /\
  Unmarshal noUnicode
    (text [""; "TEST=abc123"; ""; "FOO_VAR=foofoo"; "BAR_WHERE=bar123"; ""])
    (three "" "" "") = (three "abc123" "foofoo" "bar123", Returns None) /\
  Unmarshal noUnicode
    (text ["TEST=abc123"; "FOO_VAR-foofoo"; "BAR_WHERE=bar123"])
    (three "" "" "") = (three "abc123" "" "", Returns (Some (ErrorLineParsing 2))) /\
  Unmarshal noUnicode (text ["TEST=1"]) (PointerTo (StructValue [intField "Test" "TEST"])) =
    (PointerTo (StructValue [intField "Test" "TEST"]),
     Returns (Some (ErrorUnsupportedType reflect.Int))) /\
  Unmarshal noUnicode (text ["TEST=1"]) (PointerTo (StructValue [intField "Test" "-"])) =
    (PointerTo (StructValue [intField "Test" "-"]), Returns None) /\
  Unmarshal noUnicode (text ["TEST=abc"])
    (PointerTo (StructValue [stringField "Test" "-" ""])) =
    (PointerTo (StructValue [stringField "Test" "-" ""]), Returns None) /\
  Unmarshal noUnicode (text ["TEST="])
    (PointerTo (StructValue [stringField "Test" ",omitempty" ""])) =
    (PointerTo (StructValue [stringField "Test" ",omitempty" ""]), Returns None) /\
  Unmarshal noUnicode (str "TEST=123") Nil =
    (Nil, Returns (Some (ErrorUnsupportedType reflect.Invalid))).
Proof. intros three. repeat split; reflexivity. Qed.

(** [ExampleUnmarshal]. *)
Example Unmarshal_example :
  let v a b := PointerTo (StructValue
    [stringField "Foo" "" a; stringField "Database" "DB" b;
     stringField "Empty" ",omitempty" ""; stringField "Ignored" "-" ""]) in
  Unmarshal noUnicode
    (text ["FOO=bar"; "DB=test"; "# Comments and empty lines are ignored";
           "EMPTY="; ""; "IGNORED=valuenotread"])
    (v "" "") = (v "bar" "test", Returns None).
Proof. reflexivity. Qed.

(** What the embedding adds to the tests: a pointer to a value that is
    no struct and an assignment to an unexported field make the
    reflection calls panic. *)
Example Unmarshal_panics :
  snd (Unmarshal noUnicode (text ["TEST=1"]) (PointerTo (Other reflect.Int))) = Panics /\
  snd (Unmarshal noUnicode (text ["TEST=1"])
         (PointerTo (StructValue
            [mkField (reflect.mkStructField (str "test") (str "TEST") false None) (FStr [])]))) =
    Panics.
Proof. split; reflexivity. Qed.


(** A field of a named string type with a [String] method: [%s] prints
    what the method gives when the field is exported, and the contents
    when it is not; decoding sets the contents. *)
Example Marshal_named_string_type :
  Marshal noUnicode (StructValue [stringerField "Test" "TEST" bracketed "abc123"]) =
    (text ["TEST=<abc123>"], None) /\
  Marshal noUnicode
    (StructValue [mkField (reflect.mkStructField (str "test") (str "TEST") false
                             (Some bracketed)) (FStr (str "abc123"))]) =
    (text ["TEST=abc123"], None) /\
  Unmarshal noUnicode (text ["TEST=<abc123>"])
    (PointerTo (StructValue [stringerField "Test" "TEST" bracketed ""])) =
    (PointerTo (StructValue [stringerField "Test" "TEST" bracketed "<abc123>"]),
     Returns None).
Proof. split; [reflexivity|]. split; reflexivity. Qed.

(** ** The theorems at the inputs of the package's tests *)

Lemma parseFieldOpts_correct_witness :
  let field := reflect.mkStructField (str "Empty") (str ",omitempty") true None in
  parseFieldOpts noUnicode field = (str "EMPTY", mkEnvOptions false true) /\
  firstToken (reflect.EnvTag field) = [] /\
  fst (parseFieldOpts noUnicode field) = ToUpper noUnicode (reflect.Name field).
Proof.
  intros field. split; [reflexivity|]. split; [reflexivity|].
  apply (parseFieldOpts_correct noUnicode field). reflexivity.
Defined.

Lemma Marshal_error_empty_witness :
  let v := StructValue [stringField "Bla" "BLA" "Blabla"; intField "Test" "TEST"] in
  snd (Marshal noUnicode v) = Some (ErrorUnsupportedType reflect.Int) /\
  fst (Marshal noUnicode v) = [].
Proof.
  intros v. split; [reflexivity|].
  apply (Marshal_error_empty noUnicode v (ErrorUnsupportedType reflect.Int)).
  reflexivity.
Defined.

Lemma skipped_field_never_appears_witness :
  let pre := [stringField "Bla" "BLA" "Blabla"] in
  let f := intField "Test" "-" in
  firstToken (reflect.EnvTag (fType f)) = str "-" /\
  Marshal noUnicode (StructValue (pre ++ [f])) = Marshal noUnicode (StructValue pre) /\
  exists pre' post' o,
    length pre' = length pre /\
    Unmarshal noUnicode (text ["TEST=1"; "BLA=x"]) (PointerTo (StructValue (pre ++ [f]))) =
      (PointerTo (StructValue (pre' ++ f :: post')), o) /\
    Unmarshal noUnicode (text ["TEST=1"; "BLA=x"]) (PointerTo (StructValue (pre ++ []))) =
      (PointerTo (StructValue (pre' ++ post')), o).
Proof.
  intros pre f. split; [reflexivity|].
  destruct (skipped_field_never_appears noUnicode pre [] f eq_refl) as [HM HU].
  split; [exact HM|]. exact (HU (text ["TEST=1"; "BLA=x"])).
Defined.

Lemma Unmarshal_invalid_target_witness :
  nonNilPointer Nil = false /\
  bufio.lines (str "TEST=123") = [] ++ str "TEST=123" :: [] /\
  fits (str "TEST=123") = true /\ isKeyValue (str "TEST=123") = true /\
  Unmarshal noUnicode (str "TEST=123") Nil =
    (Nil, Returns (Some (ErrorUnsupportedType reflect.Invalid))).
Proof.
  split; [reflexivity|]. split; [reflexivity|].
  split; [reflexivity|]. split; [reflexivity|].
  apply (Unmarshal_invalid_target noUnicode (str "TEST=123") [] [] (str "TEST=123") Nil);
    try reflexivity.
  constructor.
Defined.

Lemma Unmarshal_line_parsing_witness :
  let target c := PointerTo (StructValue
    [stringField "Test" "TEST" c; stringField "Foo" "FOO_VAR" "";
     stringField "Bar" "BAR_WHERE" ""]) in
  let data := text ["TEST=abc123"; "FOO_VAR-foofoo"; "BAR_WHERE=bar123"] in
  bufio.lines data = [str "TEST=abc123"] ++ str "FOO_VAR-foofoo" :: [str "BAR_WHERE=bar123"] /\
  fits (str "FOO_VAR-foofoo") = true /\ isMalformed (str "FOO_VAR-foofoo") = true /\
  Unmarshal noUnicode (unlines [str "TEST=abc123"]) (target "") =
    (target "abc123", Returns None) /\
  Unmarshal noUnicode data (target "") =
    (target "abc123", Returns (Some (ErrorLineParsing 2))).
Proof.
  intros target data.
  split; [reflexivity|]. split; [reflexivity|]. split; [reflexivity|].
  split; [reflexivity|].
  apply (Unmarshal_line_parsing noUnicode data [str "TEST=abc123"]
           [str "BAR_WHERE=bar123"] (str "FOO_VAR-foofoo")); reflexivity.
Defined.

Lemma Unmarshal_first_eq_wins_witness :
  let f := stringField "Test" "TEST" "" in
  let data := text ["TEST=abc123=123=a"] in
  bufio.lines data = [str "TEST" ++ "="%char :: str "abc123=123=a"] /\
  keyOf noUnicode f = str "TEST" /\
  Unmarshal noUnicode data (PointerTo (StructValue [f])) =
    (PointerTo (StructValue [stringField "Test" "TEST" "abc123=123=a"]), Returns None).
Proof.
  intros f data. split; [reflexivity|]. split; [reflexivity|].
  apply (proj2 (proj2 (Unmarshal_first_eq_wins noUnicode)) data f); reflexivity.
Defined.

Lemma Unmarshal_ignores_blank_and_comment_witness :
  let target := PointerTo (StructValue
    [stringField "Test" "TEST" ""; stringField "Foo" "FOO_VAR" "";
     stringField "Bar" "BAR_WHERE" ""]) in
  let data := text ["#test"; "TEST=abc123"; ""; "# foo variable"; "FOO_VAR=foofoo";
                    "  "; "BAR_WHERE=bar123"; ""] in
  unlines (filter (fun l => negb (isIgnored l)) (bufio.lines data)) =
    text ["TEST=abc123"; "FOO_VAR=foofoo"; "BAR_WHERE=bar123"] /\
  Unmarshal noUnicode data target =
    Unmarshal noUnicode (text ["TEST=abc123"; "FOO_VAR=foofoo"; "BAR_WHERE=bar123"]) target.
Proof.
  intros target data. split; [reflexivity|].
  apply (Unmarshal_ignores_blank_and_comment noUnicode data target).
  repeat constructor; discriminate.
Defined.

Lemma Unmarshal_target_checked_late_witness :
  Unmarshal noUnicode (text ["# only a comment"; ""]) (Other reflect.Int) =
    (Other reflect.Int, Returns None) /\
  Unmarshal noUnicode (text ["# a comment"; "FOO_VAR-foofoo"]) NilPointer =
    (NilPointer, Returns (Some (ErrorLineParsing 2))).
Proof.
  split.
  - apply (proj1 (Unmarshal_target_checked_late noUnicode (Other reflect.Int))).
    repeat constructor.
  - apply (proj2 (Unmarshal_target_checked_late noUnicode NilPointer)
             (text ["# a comment"; "FOO_VAR-foofoo"])
             [str "# a comment"] (str "FOO_VAR-foofoo") []); try reflexivity.
    repeat constructor.
Defined.

Lemma Marshal_Unmarshal_roundtrip_witness :
  let fs := [stringField "Name" "" "foo";
             stringField "MySetting" "MY_SETTING" "https://127.0.0.1"] in
  Marshal noUnicode (StructValue fs) =
    (text ["NAME=foo"; "MY_SETTING=https://127.0.0.1"], None) /\
  exists data,
    Marshal noUnicode (StructValue fs) = (data, None) /\
    Unmarshal noUnicode data (PointerTo (StructValue (zeroFields fs))) =
      (PointerTo (StructValue fs), Returns None).
Proof.
  intros fs. split; [reflexivity|].
  apply (Marshal_Unmarshal_roundtrip noUnicode fs).
  - repeat constructor.
  - repeat constructor.
  - repeat constructor; simpl; intuition discriminate.
Defined.


(** ** Inputs at which the claims fail as they are written *)

(** C1 as written fails: a plain string field whose value ends in white
    space (the "whitespace in value" case of the Marshal tests) is
    encoded verbatim and decoded trimmed. *)
Lemma roundtrip_counterexample :
  let r := [stringField "Test" "TEST" "abc123  "] in
  Forall (plainField noUnicode) r /\
  Marshal noUnicode (StructValue r) = (text ["TEST=abc123  "], None) /\
  Unmarshal noUnicode (text ["TEST=abc123  "]) (PointerTo (StructValue (zeroFields r))) =
    (PointerTo (StructValue [stringField "Test" "TEST" "abc123"]), Returns None) /\
  [stringField "Test" "TEST" "abc123"] <> r.
Proof.
  intros r. split; [repeat constructor|]. split; [reflexivity|].
  split; [reflexivity|]. discriminate.
Qed.

(** C2 as written fails: with an input without key/value line the target
    is never examined, and decoding into nil returns no error. *)
Lemma invalid_target_counterexample :
  nonNilPointer Nil = false /\
  Unmarshal noUnicode [] Nil = (Nil, Returns None) /\
  Unmarshal noUnicode (text ["# comment"; ""]) Nil = (Nil, Returns None) /\
  Unmarshal noUnicode (text ["FOO_VAR-foofoo"]) Nil =
    (Nil, Returns (Some (ErrorLineParsing 1))).
Proof. repeat split; reflexivity. Qed.

(** C4 as written fails: in a 3-line document whose line 2 has no ['=']
    the content of line 1 matters.  When line 1 has no ['='] either, line
    number 1 is reported; when line 1 is a key/value line for an [int]
    field, decoding ends there with [UnsupportedType]. *)
Lemma line_parsing_counterexample :
  let target := PointerTo (StructValue [stringField "Test" "TEST" ""]) in
  let data := text ["FOO_VAR-foofoo"; "BAR_WHERE-bar123"; "TEST=abc123"] in
  let target' := PointerTo (StructValue [intField "Test" "TEST"]) in
  let data' := text ["TEST=1"; "FOO_VAR-foofoo"; "BAR_WHERE=bar123"] in
  map isMalformed (bufio.lines data) = [true; true; false] /\
  Unmarshal noUnicode data target = (target, Returns (Some (ErrorLineParsing 1))) /\
  map isMalformed (bufio.lines data') = [false; true; false] /\
  Unmarshal noUnicode data' target' =
    (target', Returns (Some (ErrorUnsupportedType reflect.Int))).
Proof.
  intros target data target' data'.
  split; [reflexivity|]. split; [reflexivity|]. split; reflexivity.
Qed.

(** C5 as written fails: the line of the claim, decoded into a record
    whose one string field resolves to [TEST] but is not exported, makes
    the assignment panic; and a key/value line of 65536 bytes is not
    split at all, the scanner stops with [ErrTooLong]. *)
Lemma first_eq_wins_counterexample :
  let f := mkField (reflect.mkStructField (str "test") (str "TEST") false None) (FStr []) in
  let g := stringField "Test" "TEST" "" in
  let long := longKeyValue ++ [NL] in
  keyOf noUnicode f = str "TEST" /\ isString f = true /\
  Unmarshal noUnicode (text ["TEST=abc123=123=a"]) (PointerTo (StructValue [f])) =
    (PointerTo (StructValue [f]), Panics) /\
  map len (bufio.lines long) = [65536] /\
  map isKeyValue (bufio.lines long) = [true] /\
  Unmarshal noUnicode long (PointerTo (StructValue [g])) =
    (PointerTo (StructValue [g]), Returns (Some ErrTooLong)).
Proof.
  intros f g long.
  split; [reflexivity|]. split; [reflexivity|]. split; [reflexivity|].
  split; [vm_compute; reflexivity|]. split; [vm_compute; reflexivity|].
  vm_compute; reflexivity.
Qed.

(** C8 as written fails: a comment line of 65536 bytes stops the scanner
    with [ErrTooLong], while the document without it decodes. *)
Lemma blank_comment_counterexample :
  let target c := PointerTo (StructValue [stringField "Test" "TEST" c]) in
  let data := longComment ++ [NL] ++ text ["TEST=abc123"] in
  map len (bufio.lines data) = [65536; 11] /\
  map isComment (bufio.lines data) = [true; false] /\
  map isKeyValue (bufio.lines data) = [false; true] /\
  unlines (filter (fun l => negb (isIgnored l)) (bufio.lines data)) =
    text ["TEST=abc123"] /\
  Unmarshal noUnicode data (target "") = (target "", Returns (Some ErrTooLong)) /\
  Unmarshal noUnicode (text ["TEST=abc123"]) (target "") = (target "abc123", Returns None).
Proof.
  intros target data.
  split; [vm_compute; reflexivity|]. split; [vm_compute; reflexivity|].
  split; [vm_compute; reflexivity|]. split; [vm_compute; reflexivity|].
  split; vm_compute; reflexivity.
Qed.

(** C9 as written fails: an input that holds nothing but a comment line
    returns an error when that line has 65536 bytes. *)
Lemma comment_only_counterexample :
  let data := longComment ++ [NL] in
  map len (bufio.lines data) = [65536] /\
  map isComment (bufio.lines data) = [true] /\
  Unmarshal noUnicode data Nil = (Nil, Returns (Some ErrTooLong)).
Proof.
  intros data.
  split; [vm_compute; reflexivity|]. split; vm_compute; reflexivity.
Qed.

(** ** The further theorems at inputs of the package's tests *)

Example Error_tests :
  Error (ErrorUnsupportedType reflect.Int) = str "unsupported type int" /\
  Error (ErrorLineParsing 5) = str "error parsing line 5".
Proof. split; reflexivity. Qed.

Lemma Marshal_output_witness :
  let fs := [stringField "Name" "" "foo";
             stringField "MySetting" "MY_SETTING" "https://127.0.0.1";
             stringField "Empty" ",omitempty" ""; intField "Count" "-"] in
  let gs := [stringField "Name" "" "foo";
             stringerField "MySetting" "MY_SETTING" bracketed "https://127.0.0.1"] in
  forallb (encodable noUnicode) fs = true /\
  Marshal noUnicode (StructValue fs) =
    (text ["NAME=foo"; "MY_SETTING=https://127.0.0.1"], None) /\
  forallb (encodable noUnicode) gs = true /\
  Marshal noUnicode (StructValue gs) =
    (text ["NAME=foo"; "MY_SETTING=<https://127.0.0.1>"], None).
Proof.
  intros fs gs. split; [reflexivity|]. split.
  - apply (proj2 (Marshal_output noUnicode fs eq_refl)).
    repeat constructor.
  - split; [reflexivity|].
    exact (proj1 (Marshal_output noUnicode gs eq_refl)).
Defined.

Lemma Marshal_first_unsupported_witness :
  let pre := [stringField "Bla" "BLA" "Blabla"] in
  let f := intField "Test" "TEST" in
  let post := [mkField (reflect.mkStructField (str "Ok") (str "OK") true None)
                 (FOther reflect.Bool)] in
  forallb (encodable noUnicode) pre = true /\
  Marshal noUnicode (StructValue (pre ++ f :: post)) =
    ([], Some (ErrorUnsupportedType reflect.Int)).
Proof.
  intros pre f post. split; [reflexivity|].
  apply (Marshal_first_unsupported noUnicode pre post f reflect.Int); reflexivity.
Defined.

Lemma Unmarshal_line_number_witness :
  let target c := PointerTo (StructValue
    [stringField "Test" "TEST" c; stringField "Foo" "FOO_VAR" "";
     stringField "Bar" "BAR_WHERE" ""]) in
  let data := text ["TEST=abc123"; "FOO_VAR-foofoo"; "BAR_WHERE=bar123"] in
  Unmarshal noUnicode data (target "") =
    (target "abc123", Returns (Some (ErrorLineParsing 2))) /\
  exists pre bad post,
    bufio.lines data = pre ++ bad :: post /\ 2 = Z.of_nat (length pre) + 1 /\
    fits bad = true /\ isMalformed bad = true /\
    Forall (fun l => fits l = true /\ isMalformed l = false) pre.
Proof.
  intros target data. split; [reflexivity|].
  apply (Unmarshal_line_number noUnicode data (target "") (target "abc123") 2).
  reflexivity.
Defined.

Lemma Unmarshal_too_long_witness :
  let target c := PointerTo (StructValue [stringField "Test" "TEST" c]) in
  let data := text ["TEST=abc123"] ++ longComment ++ [NL] ++ text ["TEST=later"] in
  forallb fits (bufio.lines data) = false /\
  Unmarshal noUnicode data (target "") = (target "abc123", Returns (Some ErrTooLong)).
Proof.
  intros target data. split; [vm_compute; reflexivity|].
  apply (Unmarshal_too_long noUnicode data (target "") (target "abc123"));
    vm_compute; reflexivity.
Defined.

Lemma Unmarshal_decodable_record_witness :
  let fs := [stringField "Foo" "" ""; stringField "Database" "DB" "";
             stringField "Empty" ",omitempty" ""; intField "Ignored" "-"] in
  let data := text ["FOO=bar"; "DB=test"; "# Comments and empty lines are ignored";
                    "EMPTY="; ""; "IGNORED=valuenotread"; "FOO=again"] in
  forallb (decodable noUnicode) fs = true /\
  snd (Unmarshal noUnicode data (PointerTo (StructValue fs))) = Returns None.
Proof.
  intros fs data. split; [reflexivity|].
  apply (proj1 (Unmarshal_decodable_record noUnicode data fs eq_refl)).
  reflexivity.
Defined.

Lemma Unmarshal_CRLF_witness :
  let target := PointerTo (StructValue
    [stringField "Test" "TEST" ""; stringField "Foo" "FOO_VAR" ""]) in
  let ls := [str "TEST=abc123"; str ""; str "FOO_VAR=foofoo"] in
  Unmarshal noUnicode (unlinesCRLF ls) target = Unmarshal noUnicode (unlines ls) target.
Proof.
  intros target ls. apply (Unmarshal_CRLF noUnicode ls target). reflexivity.
Defined.

Lemma Unmarshal_append_line_witness :
  let fs c d e := [stringField "Test" "TEST" c; stringField "Copy" "TEST" d;
                   stringField "Foo" "FOO_VAR" e] in
  let data := text ["FOO_VAR=foofoo"] in
  let data' := text ["FOO_VAR=foofoo"; " TEST = abc123 "] in
  Unmarshal noUnicode data (PointerTo (StructValue (fs "" "" ""))) =
    (PointerTo (StructValue (fs "" "" "foofoo")), Returns None) /\
  Unmarshal noUnicode data' (PointerTo (StructValue (fs "" "" ""))) =
    (PointerTo (StructValue (fs "abc123" "abc123" "foofoo")), Returns None).
Proof.
  intros fs data data'. split; [reflexivity|].
  apply (Unmarshal_append_line noUnicode data data' (str " TEST = abc123 ")
           (PointerTo (StructValue (fs "" "" ""))) (fs "" "" "foofoo"));
    reflexivity.
Defined.

Lemma Unmarshal_unsupported_field_witness :
  let pre c := [stringField "Name" "TEST" c] in
  let f := intField "Test" "TEST,omitempty" in
  let post := [stringField "Copy" "TEST" ""] in
  let v c := PointerTo (StructValue (pre c ++ f :: post)) in
  Unmarshal noUnicode (text ["TEST="; "FOO_VAR-foofoo"]) (v "old") =
    (v "", Returns (Some (ErrorUnsupportedType reflect.Int))).
Proof.
  intros pre f post v.
  apply (Unmarshal_unsupported_field noUnicode [] (text ["TEST="; "FOO_VAR-foofoo"])
           (str "TEST=") [str "FOO_VAR-foofoo"] (v "old") (pre "old") post f reflect.Int);
    reflexivity.
Defined.

Lemma Unmarshal_unexported_field_witness :
  let f := mkField (reflect.mkStructField (str "test") (str "TEST") false None) (FStr []) in
  let v := PointerTo (StructValue [f]) in
  Unmarshal noUnicode (text ["TEST=1"]) v = (v, Panics).
Proof.
  intros f v.
  apply (Unmarshal_unexported_field noUnicode [] (text ["TEST=1"]) (str "TEST=1") []
           v [] [] f); reflexivity.
Defined.

Lemma Unmarshal_success_witness :
  let fs a b := [stringField "Test" "TEST" a; stringField "Foo" "FOO_VAR" b] in
  let data := text ["#test"; "TEST=abc123"; "TEST=def"; ""; "FOO_VAR=foofoo"] in
  forallb (passes noUnicode (fs "" "")) (bufio.lines data) = true /\
  Unmarshal noUnicode data (PointerTo (StructValue (fs "" ""))) =
    (PointerTo (StructValue (fs "def" "foofoo")), Returns None).
Proof.
  intros fs data. split; [reflexivity|].
  apply (proj2 (Unmarshal_success noUnicode data (fs "" "")
                  (PointerTo (StructValue (fs "def" "foofoo"))))).
  split; reflexivity.
Defined.

Lemma Unmarshal_idempotent_witness :
  let fs a b := [stringField "Test" "TEST" a; stringField "Foo" "FOO_VAR,omitempty" b] in
  let data := text ["TEST=abc123"; "FOO_VAR=foofoo"; "FOO_VAR="; "TEST=def"] in
  Unmarshal noUnicode data (PointerTo (StructValue (fs "" ""))) =
    (PointerTo (StructValue (fs "def" "foofoo")), Returns None) /\
  Unmarshal noUnicode data (PointerTo (StructValue (fs "def" "foofoo"))) =
    (PointerTo (StructValue (fs "def" "foofoo")), Returns None).
Proof.
  intros fs data. split; [reflexivity|].
  apply (Unmarshal_idempotent noUnicode data (PointerTo (StructValue (fs "" "")))).
  reflexivity.
Defined.

Lemma Unmarshal_outcome_by_type_witness :
  let fs a := [stringField "Name" "" a; intField "Test" "TEST"] in
  snd (Unmarshal noUnicode (text ["NAME=x"; "TEST=1"]) (PointerTo (StructValue (fs "")))) =
  snd (Unmarshal noUnicode (text ["NAME=x"; "TEST=1"]) (PointerTo (StructValue (fs "old")))).
Proof.
  intros fs.
  apply (Unmarshal_outcome_by_type noUnicode (text ["NAME=x"; "TEST=1"]) (fs "") (fs "old")).
  reflexivity.
Defined.

Lemma Unmarshal_unknown_keys_witness :
  let fs := [stringField "Foo" "" ""; stringField "Ignored" "-" ""] in
  let data := text ["FOO=bar"; "DB=test"; "IGNORED=valuenotread"; "# end"] in
  unlines (filter (fun l => negb (unknownKey noUnicode fs l)) (bufio.lines data)) =
    text ["FOO=bar"; "# end"] /\
  Unmarshal noUnicode data (PointerTo (StructValue fs)) =
    Unmarshal noUnicode (text ["FOO=bar"; "# end"]) (PointerTo (StructValue fs)).
Proof.
  intros fs data. split; [reflexivity|].
  apply (Unmarshal_unknown_keys noUnicode data fs). reflexivity.
Defined.

Lemma Marshal_Unmarshal_roundtrip_options_witness :
  let fs := [stringField "Name" "" "foo";
             stringField "MySetting" "MY_SETTING" "https://127.0.0.1";
             stringField "Empty" ",omitempty" ""; stringField "Ignored" "-" "kept"] in
  exists data,
    Marshal noUnicode (StructValue fs) = (data, None) /\
    Unmarshal noUnicode data (PointerTo (StructValue (zeroFields fs))) =
      (PointerTo (StructValue
         [stringField "Name" "" "foo";
          stringField "MySetting" "MY_SETTING" "https://127.0.0.1";
          stringField "Empty" ",omitempty" ""; stringField "Ignored" "-" ""]),
       Returns None).
Proof.
  intros fs.
  apply (Marshal_Unmarshal_roundtrip_options noUnicode fs).
  - reflexivity.
  - repeat constructor; discriminate.
  - repeat constructor; simpl; intuition discriminate.
Defined.

Lemma Unmarshal_concat_witness :
  let target c := PointerTo (StructValue [stringField "Test" "TEST" c]) in
  let la := [str "#test"; str "TEST=abc123"] in
  Unmarshal noUnicode (unlines la) (target "") = (target "abc123", Returns None) /\
  Unmarshal noUnicode (text ["FOO_VAR-foofoo"]) (target "abc123") =
    (target "abc123", Returns (Some (ErrorLineParsing 1))) /\
  Unmarshal noUnicode (unlines la ++ text ["FOO_VAR-foofoo"]) (target "") =
    (target "abc123", Returns (Some (ErrorLineParsing 3))).
Proof.
  intros target la. split; [reflexivity|]. split; [reflexivity|].
  apply (Unmarshal_concat noUnicode la (text ["FOO_VAR-foofoo"]) (target "")
           (target "abc123")); reflexivity.
Defined.

Lemma Unmarshal_later_line_wins_witness :
  let target := PointerTo (StructValue
    [stringField "Test" "TEST" ""; stringField "Foo" "FOO_VAR" ""]) in
  Unmarshal noUnicode
    (unlines ([str "# first"] ++ str "TEST=abc123" ::
              [str "FOO_VAR=foofoo"] ++ str " TEST = def" :: [str ""])) target =
  Unmarshal noUnicode
    (unlines ([str "# first"] ++ [str "FOO_VAR=foofoo"] ++ str " TEST = def" :: [str ""]))
    target.
Proof.
  intros target.
  apply (Unmarshal_later_line_wins noUnicode [str "# first"] [str "FOO_VAR=foofoo"]
           [str ""] (str "TEST=abc123") (str " TEST = def")); reflexivity.
Defined.

Lemma Error_injective_witness :
  Error (ErrorLineParsing 5) = str "error parsing line 5" /\
  ErrorLineParsing (2 + 3) = ErrorLineParsing 5.
Proof.
  split; [reflexivity|].
  apply (Error_injective (ErrorLineParsing (2 + 3)) (ErrorLineParsing 5)). reflexivity.
Defined.

Lemma Unmarshal_trimmed_line_witness :
  let target := PointerTo (StructValue
    [stringField "Test" "TEST" ""; stringField "Foo" "FOO_VAR" ""]) in
  trimmedLine (str "  TEST =  abc 123  ") = str "TEST=abc 123" /\
  Unmarshal noUnicode
    (unlines ([str "FOO_VAR=foofoo"] ++ str "  TEST =  abc 123  " :: [str "# end"]))
    target =
  Unmarshal noUnicode
    (unlines ([str "FOO_VAR=foofoo"] ++ trimmedLine (str "  TEST =  abc 123  ")
                :: [str "# end"]))
    target.
Proof.
  intros target. split; [reflexivity|].
  apply (Unmarshal_trimmed_line noUnicode [str "FOO_VAR=foofoo"] [str "# end"]
           (str "  TEST =  abc 123  ") target); reflexivity.
Defined.

